(** * The interaction and animation core of the 3D product viewer

    A shallow embedding of the viewer's main script: the scene-graph
    queries it relies on, hotspot anchoring and per-frame placement, the
    toggleable-part map with hover and click handling, the explode
    animator, the keyboard handler and the scroll-driven context
    transition.

    Conventions.
    - The loaded glTF scene graph is a rose tree.  An object is referred
      to by its position in that tree: the child indices from the object
      up to the model root, innermost first, so that [obj.parent] is the
      tail of the reference.  Two references are the same JavaScript
      object exactly when they are equal.
    - Mutable fields of scene objects ([visible], [material.emissive],
      [position]) live in stores keyed by reference.
    - The ray caster, the bounding boxes, the camera projection and the
      world orientations belong to the rendering library; they enter as
      section variables.
    - Screen coordinates and the scroll position are rationals; the
      explode geometry needs a square root and uses real numbers, with
      single cases evaluated in binary64 arithmetic as well. *)

From Stdlib Require Import ZArith QArith Qminmax Qround Reals RNsatz Lra Lia.
From Stdlib Require Floats Lqa.
From stdpp Require Import base gmap sets list strings.

Set Warnings "-register-all,-clear-no-such-hyp".

(** ** Scene graph *)

Module SceneGraph.

(** [material] is the identity of the material object of a mesh; several
    meshes of a glTF file may share one material. *)
Inductive Object3D := Obj {
  name : string;
  isMesh : bool;
  material : option nat;
  children : list Object3D }.

Abbreviation Ref := (list nat).

(** What a traversal callback receives: the object together with its
    identity. *)
Record Node := { ref : Ref; obj : Object3D }.

(** [Object3D.traverse]: the callback runs on the object, then on each
    child's subtree, in child order. *)
Fixpoint traverseAt (here : Ref) (o : Object3D) : list Node :=
  match o with
  | Obj _ _ _ cs =>
      {| ref := here; obj := o |} ::
      (fix each (i : nat) (cs : list Object3D) : list Node :=
         match cs with
         | [] => []
         | c :: cs' => traverseAt (i :: here) c ++ each (S i) cs'
         end) 0%nat cs
  end.

Definition traverse (root : Object3D) : list Node := traverseAt [] root.

(** [node.traverse(...)] on an object met during an earlier traversal. *)
Definition traverseNode (n : Node) : list Node := traverseAt (ref n) (obj n).

(** The object found by following a reference down from [o]; [path] lists
    the child indices outermost first. *)
Fixpoint descend (o : Object3D) (path : list nat) : option Object3D :=
  match path with
  | [] => Some o
  | i :: path' =>
      match children o !! i with
      | Some c => descend c path'
      | None => None
      end
  end.

(** A non-empty string is truthy. *)
Definition truthy (s : string) : bool :=
  match s with EmptyString => false | String _ _ => true end.

(** [String.prototype.includes]. *)
Fixpoint includes (s sub : string) : bool :=
  String.prefix sub s ||
  match s with
  | EmptyString => false
  | String _ s' => includes s' sub
  end.

(** [collectMeshes(objects)]. *)
Definition collectMeshes (objects : list Node) : list Node :=
  foldl (fun meshes o =>
           foldl (fun meshes c => if isMesh (obj c) then meshes ++ [c] else meshes)
                 meshes (traverseNode o))
        [] objects.

(** [findOwner(mesh, candidates)]: walk up the parent chain until an
    object of [candidates] is met.  Above the model root there is only
    the scene, which is never a candidate. *)
Fixpoint findOwner (mesh : Ref) (candidates : list Node) : option Node :=
  match find (fun c => bool_decide (ref c = mesh)) candidates with
  | Some c => Some c
  | None =>
      match mesh with
      | [] => None
      | _ :: parent => findOwner parent candidates
      end
  end.

(** The loop over the children inside [traverseAt], by name. *)
Definition eachChild (here : Ref) : nat -> list Object3D -> list Node :=
  fix each (i : nat) (cs : list Object3D) : list Node :=
    match cs with
    | [] => []
    | c :: cs' => traverseAt (i :: here) c ++ each (S i) cs'
    end.

(** *** Facts about traversal and substring search *)

Lemma traverseAt_unfold here o :
  traverseAt here o = {| ref := here; obj := o |} :: eachChild here 0 (children o).
Proof. destruct o; reflexivity. Qed.

(** A rose-tree induction principle that reaches the children. *)
Lemma Object3D_ind' (P : Object3D -> Prop) :
  (forall n m mat cs, Forall P cs -> P (Obj n m mat cs)) ->
  forall o, P o.
Proof.
  intros step. fix IH 1. intros [n m mat cs]. apply step.
  induction cs as [|c cs IHcs]; constructor; [apply IH | exact IHcs].
Qed.

(** Every node produced by a traversal sits where its reference says. *)
Lemma traverseAt_descend o : forall here n,
  n ∈ traverseAt here o ->
  exists path, ref n = rev path ++ here /\ descend o path = Some (obj n).
Proof.
  induction o as [nm m mat cs IH] using Object3D_ind'.
  intros here n. rewrite traverseAt_unfold. cbn [children].
  rewrite elem_of_cons. intros [->|Hin].
  - exists []. split; reflexivity.
  - assert (Hgen : forall i,
      n ∈ eachChild here i cs ->
      exists k c path, cs !! k = Some c /\
        ref n = rev path ++ (i + k) :: here /\ descend c path = Some (obj n)).
    { clear Hin. induction IH as [|c cs' Hc _ IHcs]; intros i Hn.
      - cbn in Hn. by apply elem_of_nil in Hn.
      - cbn in Hn. apply elem_of_app in Hn as [Hn|Hn].
        + destruct (Hc _ _ Hn) as (path & Hr & Hd).
          exists 0, c, path. rewrite Nat.add_0_r. auto.
        + destruct (IHcs _ Hn) as (k & c' & path & Hk & Hr & Hd).
          exists (S k), c', path. split; [exact Hk|].
          split; [|exact Hd]. by replace (i + S k) with (S i + k) by lia. }
    destruct (Hgen 0 Hin) as (k & c & path & Hk & Hr & Hd).
    exists (k :: path). split.
    + rewrite Hr. cbn. by rewrite <- app_assoc.
    + cbn. by rewrite Hk.
Qed.

(** Object identity: a traversal never yields two different objects under
    one reference. *)
Lemma traverse_functional root n1 n2 :
  n1 ∈ traverse root -> n2 ∈ traverse root -> ref n1 = ref n2 -> n1 = n2.
Proof.
  intros H1 H2 Heq.
  destruct (traverseAt_descend _ _ _ H1) as (p1 & Hr1 & Hd1).
  destruct (traverseAt_descend _ _ _ H2) as (p2 & Hr2 & Hd2).
  rewrite !app_nil_r in *.
  assert (p1 = p2) as ->.
  { rewrite <- (rev_involutive p1), <- (rev_involutive p2). congruence. }
  destruct n1, n2; cbn in *. congruence.
Qed.

Lemma prefix_spec sub s :
  String.prefix sub s = true <-> exists rest, s = (sub +:+ rest)%string.
Proof.
  revert s. induction sub as [|c sub IH]; intros s.
  - split; [intros _; by exists s | intros _; by destruct s].
  - destruct s as [|d s]; cbn.
    + split; [done | intros [? ?]; done].
    + destruct (Ascii.ascii_dec c d) as [->|Hne].
      * rewrite IH. split.
        -- intros [rest ->]. by exists rest.
        -- intros [rest [= ->]]. by exists rest.
      * split; [done | intros [rest [= ? ?]]; done].
Qed.

(** [includes] is the substring relation. *)
Lemma includes_spec s sub :
  includes s sub = true <->
  exists before after, s = (before +:+ sub +:+ after)%string.
Proof.
  induction s as [|c s IH]; cbn [includes].
  - rewrite orb_false_r, prefix_spec. split.
    + intros [rest ->]. by exists ""%string, rest.
    + intros ([|? ?] & after & Heq); [by exists after | done].
  - rewrite orb_true_iff, prefix_spec, IH. split.
    + intros [[rest ->] | (b & a & ->)].
      * by exists ""%string, rest.
      * by exists (String c b), a.
    + intros ([|d b] & a & Heq).
      * left. by exists a.
      * right. injection Heq as -> ->. by exists b, a.
Qed.

End SceneGraph.

(** ** Hotspot annotations *)

Module Hotspots.
Import SceneGraph.

Record Hotspot := { match_ : string; title : string; desc : string }.

Definition HOTSPOTS : list Hotspot :=
  [ {| match_ := "ANGL-PAR-OSH-001_REV-G"; title := "SIDE PANEL"; desc := "Aluminium enclosure" |};
    {| match_ := "ANGL-PAR-OSH-002_REV-G"; title := "TOP PANEL"; desc := "CNC ventilation" |};
    {| match_ := "Motherboard Mini-ATX generic"; title := "MOTHERBOARD"; desc := "ASUS Strix B850-I" |};
    {| match_ := "RTX 5090"; title := "GPU"; desc := "RTX 5090 Inno3D iChill" |};
    {| match_ := "SF1000_simplified"; title := "PSU"; desc := "Corsair SF1000" |};
    {| match_ := "Noctua-200mm"; title := "FAN"; desc := "Noctua 200 mm" |};
    {| match_ := "Alphacool radiator 200mm"; title := "RADIATOR"; desc := "Alphacool 200 mm" |};
    {| match_ := "DDR5 module"; title := "MEMORY"; desc := "DDR5 module" |};
    {| match_ := "SSD NVMe M2 2280 Generic"; title := "STORAGE"; desc := "NVMe M.2 2280 SSD" |};
    {| match_ := "Power button assembly"; title := "POWER BUTTON"; desc := "Illuminated momentary" |};
    {| match_ := "Riser_AG-P5-33VV-v.3_MOUNTED"; title := "RISER CABLE"; desc := "PCIe 5.0 x16" |} ].

#[global] Instance Hotspot_eq_dec : EqDecision Hotspot.
Proof. solve_decision. Defined.

(** A CSS length written by the script: never written, ['auto'], or a
    pixel count. *)
Inductive Css := Unset | Auto | Px (v : Q).

(** One entry of [hotspotInstances] with the parts of its two DOM
    elements that the script writes: [tagVisible] and [tagOnLeft] are the
    classes ['visible'] and ['left'] of the tag card. *)
Record HotspotInstance := {
  data : Hotspot;
  object : Node;
  open : bool;
  tagVisible : bool;
  tagOnLeft : bool;
  markerOpacity : string;
  markerLeft : Css;
  markerTop : Css;
  tagLeft : Css;
  tagRight : Css;
  tagTop : Css }.

(** The first traversal of [initHotspots]: [target] is assigned at the
    first object whose name is the token and never again. *)
Definition exactPass (root : Object3D) (tok : string) : option Node :=
  foldl (fun target child =>
           if negb (bool_decide (is_Some target)) && String.eqb (name (obj child)) tok
           then Some child else target)
        None (traverse root).

(** The second traversal, run only when the first found nothing. *)
Definition includesPass (root : Object3D) (tok : string) : option Node :=
  foldl (fun target child =>
           if negb (bool_decide (is_Some target)) && truthy (name (obj child))
              && includes (name (obj child)) tok
           then Some child else target)
        None (traverse root).

Definition resolveTarget (root : Object3D) (hs : Hotspot) : option Node :=
  match exactPass root (match_ hs) with
  | Some target => Some target
  | None => includesPass root (match_ hs)
  end.

Definition newInstance (hs : Hotspot) (target : Node) : HotspotInstance :=
  {| data := hs; object := target; open := false;
     tagVisible := false; tagOnLeft := false; markerOpacity := "";
     markerLeft := Unset; markerTop := Unset;
     tagLeft := Unset; tagRight := Unset; tagTop := Unset |}.

(** The body of [HOTSPOTS.forEach]: an unresolved descriptor only logs a
    warning and returns. *)
Definition addHotspot (root : Object3D)
    (instances : list HotspotInstance) (hs : Hotspot) : list HotspotInstance :=
  match resolveTarget root hs with
  | None => instances
  | Some target => instances ++ [newInstance hs target]
  end.

(** [initHotspots(root)]: the instance array is emptied and refilled. *)
Definition initHotspots (root : Object3D) : list HotspotInstance :=
  foldl (addHotspot root) [] HOTSPOTS.

Definition setOpen (inst : HotspotInstance) (o : bool) : HotspotInstance :=
  {| data := data inst; object := object inst; open := o;
     tagVisible := o; tagOnLeft := tagOnLeft inst;
     markerOpacity := markerOpacity inst;
     markerLeft := markerLeft inst; markerTop := markerTop inst;
     tagLeft := tagLeft inst; tagRight := tagRight inst; tagTop := tagTop inst |}.

(** The click listener of the marker created for [hs]: the instance of
    that descriptor gets [inst.open = !inst.open] and the ['visible']
    class follows.  The descriptors of [HOTSPOTS] differ pairwise, so
    equal records are the same descriptor. *)
Fixpoint markerClick (hs : Hotspot) (instances : list HotspotInstance)
    : list HotspotInstance :=
  match instances with
  | [] => []
  | inst :: rest =>
      if bool_decide (data inst = hs)
      then setOpen inst (negb (open inst)) :: rest
      else inst :: markerClick hs rest
  end.

Section Frame.
Local Open Scope Q_scope.

(** The window size and, for each anchor, the centre of its world
    bounding box projected by the active camera. *)
Variables innerWidth innerHeight : Q.
Variable project : Node -> Q * Q * Q.

Definition hw : Q := innerWidth / 2.
Definition hh : Q := innerHeight / 2.

(** The body of the loop of [updateHotspotPositions]. *)
Definition updateInstance (inst : HotspotInstance) : HotspotInstance :=
  let '(px, py, pz) := project (object inst) in
  let sx := px * hw + hw in
  let sy := - py * hh + hh in
  if negb (Qle_bool pz 1) then
    {| data := data inst; object := object inst; open := open inst;
       tagVisible := false; tagOnLeft := tagOnLeft inst;
       markerOpacity := "0";
       markerLeft := markerLeft inst; markerTop := markerTop inst;
       tagLeft := tagLeft inst; tagRight := tagRight inst; tagTop := tagTop inst |}
  else
    let onLeft := negb (Qle_bool sx (innerWidth / 2)) in
    {| data := data inst; object := object inst; open := open inst;
       tagVisible := tagVisible inst; tagOnLeft := onLeft;
       markerOpacity := "";
       markerLeft := Px sx; markerTop := Px sy;
       tagLeft := if onLeft then Auto else Px (sx + 14);
       tagRight := if onLeft then Px (innerWidth - sx + 14) else Auto;
       tagTop := Px sy |}.

Definition updateHotspotPositions (instances : list HotspotInstance)
    : list HotspotInstance :=
  map updateInstance instances.

End Frame.

(** *** Example scenes *)

(** A scene whose traversal meets a longer name containing the token
    before the object named exactly by the token. *)
Definition gpuScene : Object3D :=
  Obj "ANGL-ASM-MAIN" false None
    [ Obj "RTX 5090 backplate" true (Some 0%nat) [];
      Obj "GPU assembly" false None
        [ Obj "RTX 5090" true (Some 1%nat) [] ] ].

Definition gpuHotspot : Hotspot :=
  {| match_ := "RTX 5090"; title := "GPU"; desc := "RTX 5090 Inno3D iChill" |}.

(** An open card whose anchor is behind the camera. *)
Definition openGpuInstance : HotspotInstance :=
  setOpen (newInstance gpuHotspot
             {| ref := [0; 1]%nat; obj := Obj "RTX 5090" true (Some 1%nat) [] |}) true.

(** *** Anchor resolution *)

Lemma exactPass_find root tok :
  exactPass root tok = find (fun c => String.eqb (name (obj c)) tok) (traverse root).
Proof.
  unfold exactPass.
  assert (Hgen : forall l (t : Node),
    foldl (fun target child =>
             if negb (bool_decide (is_Some target)) && String.eqb (name (obj child)) tok
             then Some child else target) (Some t) l = Some t).
  { induction l as [|c l IH]; intros t; cbn; [done | apply IH]. }
  induction (traverse root) as [|c l IH]; cbn; [done|].
  destruct (String.eqb (name (obj c)) tok); [apply Hgen | exact IH].
Qed.

Lemma includesPass_find root tok :
  includesPass root tok =
  find (fun c => truthy (name (obj c)) && includes (name (obj c)) tok) (traverse root).
Proof.
  unfold includesPass.
  assert (Hgen : forall l (t : Node),
    foldl (fun target child =>
             if negb (bool_decide (is_Some target)) && truthy (name (obj child))
                && includes (name (obj child)) tok
             then Some child else target) (Some t) l = Some t).
  { induction l as [|c l IH]; intros t; cbn; [done | apply IH]. }
  induction (traverse root) as [|c l IH]; cbn; [done|].
  destruct (truthy (name (obj c)) && includes (name (obj c)) tok); [apply Hgen | exact IH].
Qed.

Lemma find_first {A} (p : A -> bool) before x after :
  (forall b, b ∈ before -> p b = false) -> p x = true ->
  find p (before ++ x :: after) = Some x.
Proof.
  intros Hb Hx. induction before as [|b before IH]; cbn.
  - by rewrite Hx.
  - rewrite (Hb b) by apply list_elem_of_here.
    apply IH. intros b' Hb'. apply Hb. by apply list_elem_of_further.
Qed.

Lemma find_none {A} (p : A -> bool) l :
  (forall b, b ∈ l -> p b = false) -> find p l = None.
Proof.
  induction l as [|b l IH]; intros Hb; cbn; [done|].
  rewrite (Hb b) by apply list_elem_of_here.
  apply IH. intros b' Hb'. apply Hb. by apply list_elem_of_further.
Qed.

Lemma foldl_addHotspot_app root l : forall acc,
  foldl (addHotspot root) acc l = acc ++ foldl (addHotspot root) [] l.
Proof.
  induction l as [|hs l IH]; intros acc; cbn.
  - by rewrite app_nil_r.
  - rewrite IH, (IH (addHotspot root [] hs)). unfold addHotspot.
    destruct (resolveTarget root hs); cbn; [by rewrite <- app_assoc | done].
Qed.

Lemma initHotspots_omap root :
  initHotspots root =
  omap (fun hs => newInstance hs <$> resolveTarget root hs) HOTSPOTS.
Proof.
  unfold initHotspots. generalize HOTSPOTS as l.
  induction l as [|hs l IH]; [done|].
  cbn. rewrite foldl_addHotspot_app, IH.
  unfold addHotspot. by destruct (resolveTarget root hs).
Qed.

(** C8.  Anchor resolution in [initHotspots]: whenever some object is
    named exactly by the token, the anchor is the first such object in
    traversal order, whatever other names contain the token and wherever
    they stand; only when no object has that exact name is the anchor the
    first object with a non-empty name containing the token; when neither
    exists the descriptor adds no instance and the remaining descriptors
    are still processed, so the instances are exactly the resolved
    descriptors, in order, each closed. *)
Theorem resolveTarget_exact_first_then_substring (root : Object3D) (hs : Hotspot) :
  (forall before c after,
      traverse root = before ++ c :: after ->
      (forall b, b ∈ before -> name (obj b) <> match_ hs) ->
      name (obj c) = match_ hs ->
      resolveTarget root hs = Some c)
  /\ (forall before c after,
      traverse root = before ++ c :: after ->
      (forall n, n ∈ traverse root -> name (obj n) <> match_ hs) ->
      (forall b, b ∈ before ->
         truthy (name (obj b)) && includes (name (obj b)) (match_ hs) = false) ->
      truthy (name (obj c)) && includes (name (obj c)) (match_ hs) = true ->
      resolveTarget root hs = Some c)
  /\ ((forall n, n ∈ traverse root ->
         name (obj n) <> match_ hs /\
         truthy (name (obj n)) && includes (name (obj n)) (match_ hs) = false) ->
      resolveTarget root hs = None /\
      forall instances, addHotspot root instances hs = instances)
  /\ initHotspots root =
     omap (fun hs => newInstance hs <$> resolveTarget root hs) HOTSPOTS.
Proof.
  unfold resolveTarget. rewrite exactPass_find, includesPass_find.
  split; [|split; [|split]].
  - intros before c after -> Hb Hc.
    rewrite (find_first _ before c after); [done| |by apply String.eqb_eq].
    intros b Hin. apply String.eqb_neq. by apply Hb.
  - intros before c after Htr Hno Hb Hc.
    rewrite (find_none (fun c => String.eqb (name (obj c)) (match_ hs))).
    + rewrite Htr. by apply find_first.
    + intros n Hn. apply String.eqb_neq. by apply Hno.
  - intros Hno.
    assert (Hnone : match find (fun c => String.eqb (name (obj c)) (match_ hs)) (traverse root) with
                    | Some target => Some target
                    | None => find (fun c => truthy (name (obj c)) && includes (name (obj c)) (match_ hs))
                                (traverse root)
                    end = None).
    { rewrite !find_none; [done| |].
      - intros n Hn. by apply Hno.
      - intros n Hn. apply String.eqb_neq. by apply Hno. }
    split; [exact Hnone|]. intros instances. unfold addHotspot, resolveTarget.
    by rewrite exactPass_find, includesPass_find, Hnone.
  - apply initHotspots_omap.
Qed.

(** The scenario of the token "RTX 5090": the exact name wins although
    "RTX 5090 backplate" comes first in the traversal. *)
Lemma resolveTarget_gpu_exact :
  resolveTarget gpuScene gpuHotspot
  = Some {| ref := [0; 1]%nat; obj := Obj "RTX 5090" true (Some 1%nat) [] |}.
Proof.
  apply (proj1 (resolveTarget_exact_first_then_substring gpuScene gpuHotspot)
           [ {| ref := []; obj := gpuScene |};
             {| ref := [0]%nat; obj := Obj "RTX 5090 backplate" true (Some 0%nat) [] |};
             {| ref := [1]%nat; obj := Obj "GPU assembly" false None
                                         [ Obj "RTX 5090" true (Some 1%nat) [] ] |} ]
           _ []).
  - reflexivity.
  - intros b Hb. repeat (apply elem_of_cons in Hb as [->|Hb]; [by cbn|]).
    by apply elem_of_nil in Hb.
  - reflexivity.
Defined.

(** *** Per-frame placement *)

(** The per-frame update never writes the [open] flag of an instance. *)
Lemma updateInstance_open w h project inst :
  open (updateInstance w h project inst) = open inst.
Proof.
  unfold updateInstance. destruct (project (object inst)) as [[px py] pz].
  by destruct (negb (Qle_bool pz 1)).
Qed.

(** C4.  What the per-frame update does to an instance whose anchor
    projects to a depth above 1 (behind the camera): the marker gets
    opacity 0 and the card loses its ['visible'] class, but the [open]
    flag keeps the value it had; the card is hidden, not closed. *)
Theorem updateHotspotPositions_behind_camera
    (innerWidth innerHeight : Q) (project : Node -> Q * Q * Q)
    (instances : list HotspotInstance) (i : nat) (inst : HotspotInstance) :
  instances !! i = Some inst ->
  (1 < snd (project (object inst)))%Q ->
  exists inst',
    updateHotspotPositions innerWidth innerHeight project instances !! i = Some inst'
    /\ markerOpacity inst' = "0"%string
    /\ tagVisible inst' = false
    /\ open inst' = open inst.
Proof.
  intros Hi Hz. exists (updateInstance innerWidth innerHeight project inst).
  split; [unfold updateHotspotPositions; by rewrite list_lookup_fmap, Hi|].
  rewrite updateInstance_open. unfold updateInstance.
  destruct (project (object inst)) as [[px py] pz]. cbn in Hz.
  assert (Qle_bool pz 1 = false) as ->; [|done].
  destruct (Qle_bool pz 1) eqn:E; [|done].
  apply Qle_bool_iff in E. exfalso. by apply (Qlt_not_le _ _ Hz).
Qed.

Lemma updateHotspotPositions_behind_camera_open_stays :
  exists inst',
    updateHotspotPositions 1920 1080 (fun _ => (0, 0, 3 # 2)%Q) [openGpuInstance] !! 0%nat
      = Some inst'
    /\ markerOpacity inst' = "0"%string
    /\ tagVisible inst' = false
    /\ open inst' = true.
Proof.
  apply (updateHotspotPositions_behind_camera 1920 1080 (fun _ => (0, 0, 3 # 2)%Q)
           [openGpuInstance] 0 openGpuInstance); reflexivity.
Defined.

End Hotspots.

(** ** Toggleable parts: classification, hover highlight, click toggle *)

Module Toggle.
Import SceneGraph.

Record ToggleMap := { individuals : list Node; groupMembers : list Node }.

(** The test of the second loop of [buildToggleMap]. *)
Definition isIndividual (child : Node) : bool :=
  String.eqb (name (obj child)) "Solid2" || includes (name (obj child)) ".001".

Definition isSolid2 (child : Node) : bool :=
  truthy (name (obj child)) && includes (name (obj child)) "Solid2".

(** [buildToggleMap(root)]: collect the objects whose name contains
    "Solid2", then push each of them to one of the two arrays. *)
Definition buildToggleMap (root : Object3D) : ToggleMap :=
  let allSolid2 :=
    foldl (fun acc child => if isSolid2 child then acc ++ [child] else acc)
          [] (traverse root) in
  foldl (fun tm child =>
           if isIndividual child
           then {| individuals := individuals tm ++ [child];
                   groupMembers := groupMembers tm |}
           else {| individuals := individuals tm;
                   groupMembers := groupMembers tm ++ [child] |})
        {| individuals := []; groupMembers := [] |} allSolid2.

(** The [visible] flags of the scene objects, kept as the set of objects
    whose flag is [false]. *)
Definition visible (hiddenSet : gset Ref) (r : Ref) : bool :=
  bool_decide (r ∉ hiddenSet).

Definition setVisible (r : Ref) (v : bool) (hiddenSet : gset Ref) : gset Ref :=
  if v then hiddenSet ∖ {[ r ]} else hiddenSet ∪ {[ r ]}.

Definition highlightEmissive : N := 0x333333.
Definition defaultEmissive : N := 0x000000.

(** The value of [hoveredGroup] when it is not [null].  [getToggleGroup]
    returns either a new array [[indivOwner]] or the array
    [toggleMap.groupMembers] itself, and [!==] compares arrays by
    identity. *)
Inductive Group :=
  | FreshArray (indivOwner : Node)
  | GroupMembersArray.

Definition sameArray (a b : option Group) : bool :=
  match a, b with
  | None, None => true
  | Some GroupMembersArray, Some GroupMembersArray => true
  | _, _ => false
  end.

Record State := {
  hidden : gset Ref;
  emissive : gmap nat N;
  hoveredGroup : option Group;
  cursor : string }.

(** [setGroupEmissive(objects, color)]: the emissive colour of the
    material of every mesh below the objects. *)
Definition setGroupEmissive (objects : list Node) (color : N)
    (em : gmap nat N) : gmap nat N :=
  foldl (fun em o =>
           foldl (fun em c =>
                    match isMesh (obj c), material (obj c) with
                    | true, Some m => <[ m := color ]> em
                    | _, _ => em
                    end)
                 em (traverseNode o))
        em objects.

(** The first loop of [tryTogglePart]: every hidden part is remembered
    and made visible. *)
Definition forceVisible (parts : list Node) (hiddenSet : gset Ref)
    : list Node * gset Ref :=
  foldl (fun acc part =>
           if visible (snd acc) (ref part) then acc
           else (fst acc ++ [part], setVisible (ref part) true (snd acc)))
        ([], hiddenSet) parts.

Definition restoreHidden (wasHidden : list Node) (hiddenSet : gset Ref) : gset Ref :=
  foldl (fun h part => setVisible (ref part) false h) hiddenSet wasHidden.

(** The identities of a list of objects. *)
Definition refsOf (l : list Node) : gset Ref := list_to_set (ref <$> l).

Section Pointer.

(** The model's toggle map, and the ray caster: for the ray of a pointer
    event, the [visible] flags at the time of the call and the meshes
    handed over, the objects hit, nearest first. *)
Variable toggleMap : ToggleMap.
Variable Ray : Type.
Variable intersectObjects : Ray -> gset Ref -> list Node -> list Ref.

Definition allToggleable : list Node :=
  individuals toggleMap ++ groupMembers toggleMap.

Definition groupObjects (g : Group) : list Node :=
  match g with
  | FreshArray indivOwner => [indivOwner]
  | GroupMembersArray => groupMembers toggleMap
  end.

Definition getToggleGroup (mesh : Ref) : option Group :=
  match findOwner mesh (individuals toggleMap) with
  | Some indivOwner => Some (FreshArray indivOwner)
  | None =>
      match findOwner mesh (groupMembers toggleMap) with
      | Some _ => Some GroupMembersArray
      | None => None
      end
  end.

(** The [mousemove] listener. *)
Definition mousemove (ray : Ray) (s : State) : State :=
  let meshes :=
    collectMeshes (List.filter (fun p => visible (hidden s) (ref p)) allToggleable) in
  let hits := intersectObjects ray (hidden s) meshes in
  let newGroup :=
    match hits with
    | hit :: _ => getToggleGroup hit
    | [] => None
    end in
  if negb (sameArray newGroup (hoveredGroup s)) then
    let em1 :=
      match hoveredGroup s with
      | Some g => setGroupEmissive (groupObjects g) defaultEmissive (emissive s)
      | None => emissive s
      end in
    let em2 :=
      match newGroup with
      | Some g => setGroupEmissive (groupObjects g) highlightEmissive em1
      | None => em1
      end in
    {| hidden := hidden s; emissive := em2; hoveredGroup := newGroup;
       cursor := match newGroup with Some _ => "pointer" | None => "" end |}
  else s.

(** [if (hoveredGroup) { setGroupEmissive(hoveredGroup, defaultEmissive);
    hoveredGroup = null; }] *)
Definition clearHighlight (s : State) : State :=
  match hoveredGroup s with
  | Some g =>
      {| hidden := hidden s;
         emissive := setGroupEmissive (groupObjects g) defaultEmissive (emissive s);
         hoveredGroup := None; cursor := cursor s |}
  | None => s
  end.

Definition withHidden (s : State) (h : gset Ref) : State :=
  {| hidden := h; emissive := emissive s;
     hoveredGroup := hoveredGroup s; cursor := cursor s |}.

(** The part of [tryTogglePart] after the hidden state is restored. *)
Definition toggleHit (hits : list Ref) (s : State) : bool * State :=
  match hits with
  | hitMesh :: _ =>
      match findOwner hitMesh (individuals toggleMap) with
      | Some indivOwner =>
          let h := setVisible (ref indivOwner)
                     (negb (visible (hidden s) (ref indivOwner))) (hidden s) in
          (true, clearHighlight (withHidden s h))
      | None =>
          match findOwner hitMesh (groupMembers toggleMap) with
          | Some groupOwner =>
              let newVis := negb (visible (hidden s) (ref groupOwner)) in
              let h := foldl (fun h m => setVisible (ref m) newVis h)
                         (hidden s) (groupMembers toggleMap) in
              (true, clearHighlight (withHidden s h))
          | None => (false, s)
          end
      end
  | [] => (false, s)
  end.

(** [tryTogglePart(event)]. *)
Definition tryTogglePart (ray : Ray) (s : State) : bool * State :=
  let forced := forceVisible allToggleable (hidden s) in
  let meshes := collectMeshes allToggleable in
  let hits := intersectObjects ray (snd forced) meshes in
  let restored := restoreHidden (fst forced) (snd forced) in
  toggleHit hits (withHidden s restored).

(** The hits a click obtains: the ray is tested against the meshes of all
    toggleable parts while none of these parts is hidden. *)
Definition clickHits (ray : Ray) (s : State) : list Ref :=
  intersectObjects ray (hidden s ∖ refsOf allToggleable) (collectMeshes allToggleable).

(** The hits a pointer move obtains: only the meshes of the visible
    toggleable parts are tested. *)
Definition hoverHits (ray : Ray) (s : State) : list Ref :=
  intersectObjects ray (hidden s)
    (collectMeshes (List.filter (fun p => visible (hidden s) (ref p)) allToggleable)).

Inductive Event :=
  | MouseMove (ray : Ray)
  | Click (ray : Ray).

Definition step (s : State) (e : Event) : State :=
  match e with
  | MouseMove ray => mousemove ray s
  | Click ray => snd (tryTogglePart ray s)
  end.

Definition run (events : list Event) (s : State) : State := foldl step s events.

End Pointer.

(** The objects a click with these hits toggles: what [getToggleGroup]
    returns for the nearest hit, none without a hit or an owner. *)
Definition toggledUnit (toggleMap : ToggleMap) (hits : list Ref) : list Node :=
  match hits with
  | hit :: _ =>
      match getToggleGroup toggleMap hit with
      | Some g => groupObjects toggleMap g
      | None => []
      end
  | [] => []
  end.

(** The state right after a model is loaded: every object visible,
    nothing hovered. *)
Definition initialState (em : gmap nat N) : State :=
  {| hidden := ∅; emissive := em; hoveredGroup := None; cursor := "" |}.

(** All group members have one visibility. *)
Definition groupUniform (toggleMap : ToggleMap) (h : gset Ref) : Prop :=
  forall m1 m2, m1 ∈ groupMembers toggleMap -> m2 ∈ groupMembers toggleMap ->
    visible h (ref m1) = visible h (ref m2).

(** *** An example model *)

(** A small model: one individual part and a group of two. *)
Definition caseModel : Object3D :=
  Obj "ANGL-ASM-MAIN" false None
    [ Obj "Solid2" true (Some 0%nat) [];
      Obj "Solid2.002" true (Some 1%nat) [];
      Obj "Solid2.003" true (Some 2%nat) [] ].

(** A ray caster for examples: the pointer is over one mesh or over
    none, and that mesh is hit when it is among the meshes tested. *)
Definition pointAt (ray : option Ref) (_ : gset Ref) (meshes : list Node) : list Ref :=
  match ray with
  | Some r => if bool_decide (r ∈ ref <$> meshes) then [r] else []
  | None => []
  end.

(** The model with its individual part hovered. *)
Definition hoveredState : State :=
  mousemove (buildToggleMap caseModel) (option Ref) pointAt (Some [0%nat])
    (initialState ∅).

(** *** Facts about the visibility store *)

Arguments refsOf : simpl never.
Arguments visible : simpl never.
Arguments setVisible : simpl never.

Lemma refsOf_cons p l : refsOf (p :: l) = {[ ref p ]} ∪ refsOf l.
Proof. reflexivity. Qed.

Lemma refsOf_app l1 l2 : refsOf (l1 ++ l2) = refsOf l1 ∪ refsOf l2.
Proof. unfold refsOf. rewrite fmap_app. apply list_to_set_app_L. Qed.

Lemma elem_of_refsOf r l : r ∈ refsOf l <-> exists p, p ∈ l /\ ref p = r.
Proof.
  unfold refsOf. rewrite elem_of_list_to_set, list_elem_of_fmap.
  split; intros (p & H1 & H2); exists p; auto.
Qed.

Lemma visible_true h r : visible h r = true <-> r ∉ h.
Proof. unfold visible. apply bool_decide_eq_true. Qed.

Lemma visible_false h r : visible h r = false <-> r ∈ h.
Proof.
  unfold visible. rewrite bool_decide_eq_false. split; [|tauto].
  intros Hn. by destruct (decide (r ∈ h)).
Qed.

Lemma visible_setVisible_eq r v h : visible (setVisible r v h) r = v.
Proof.
  destruct v; unfold setVisible.
  - apply visible_true. set_solver.
  - apply visible_false. set_solver.
Qed.

Lemma visible_setVisible_ne r r' v h :
  r' <> r -> visible (setVisible r v h) r' = visible h r'.
Proof.
  intros Hne. unfold visible, setVisible. apply bool_decide_ext.
  destruct v; set_solver.
Qed.

Lemma refsOf_nil : refsOf [] = ∅.
Proof. reflexivity. Qed.

Lemma refsOf_singleton p : refsOf [p] = {[ ref p ]}.
Proof. unfold refsOf. cbn. set_solver. Qed.

Lemma forceVisible_acc parts : forall w h,
  let res := foldl (fun acc part =>
                      if visible (snd acc) (ref part) then acc
                      else (fst acc ++ [part], setVisible (ref part) true (snd acc)))
                   (w, h) parts in
  snd res = h ∖ refsOf parts /\ refsOf (fst res) = refsOf w ∪ (h ∩ refsOf parts).
Proof.
  induction parts as [|p parts IH]; intros w h.
  - cbn. rewrite refsOf_nil. split; set_solver.
  - cbn. destruct (visible h (ref p)) eqn:Hv.
    + apply visible_true in Hv. destruct (IH w h) as [IH1 IH2].
      cbn zeta in IH1, IH2. rewrite IH1, IH2, refsOf_cons. clear IH IH1 IH2.
      split; set_solver.
    + apply visible_false in Hv.
      destruct (IH (w ++ [p]) (setVisible (ref p) true h)) as [IH1 IH2].
      cbn zeta in IH1, IH2.
      rewrite IH1, IH2, refsOf_cons, refsOf_app, refsOf_singleton.
      clear IH IH1 IH2. unfold setVisible. split; [set_solver|].
      apply set_eq. intros r. set_unfold.
      destruct (decide (r = ref p)); naive_solver.
Qed.

Lemma forceVisible_snd parts h :
  snd (forceVisible parts h) = h ∖ refsOf parts.
Proof. apply (forceVisible_acc parts [] h). Qed.

Lemma forceVisible_fst parts h :
  refsOf (fst (forceVisible parts h)) = h ∩ refsOf parts.
Proof.
  destruct (forceVisible_acc parts [] h) as [_ H]. cbn zeta in H.
  unfold forceVisible. rewrite H, refsOf_nil. set_solver.
Qed.

Lemma restoreHidden_spec w : forall h, restoreHidden w h = h ∪ refsOf w.
Proof.
  unfold restoreHidden. induction w as [|p w IH]; intros h; cbn.
  - rewrite refsOf_nil. set_solver.
  - rewrite IH, refsOf_cons. unfold setVisible. set_solver.
Qed.

(** Forcing the hidden parts visible and restoring them gives back the
    store the click started from. *)
Lemma restore_after_force parts h :
  restoreHidden (fst (forceVisible parts h)) (snd (forceVisible parts h)) = h.
Proof.
  rewrite restoreHidden_spec, forceVisible_snd, forceVisible_fst.
  apply set_eq. intros r. rewrite elem_of_union, elem_of_difference, elem_of_intersection.
  destruct (decide (r ∈ refsOf parts)); tauto.
Qed.

Lemma setVisible_all v ms : forall h,
  foldl (fun h m => setVisible (ref m) v h) h ms
  = if v then h ∖ refsOf ms else h ∪ refsOf ms.
Proof.
  induction ms as [|m ms IH]; intros h; cbn.
  - rewrite refsOf_nil. destruct v; set_solver.
  - rewrite IH, refsOf_cons. unfold setVisible. destruct v; set_solver.
Qed.

Lemma withHidden_id s : withHidden s (hidden s) = s.
Proof. by destruct s. Qed.

Lemma hidden_clearHighlight tm s : hidden (clearHighlight tm s) = hidden s.
Proof. unfold clearHighlight. by destruct (hoveredGroup s). Qed.

Lemma findOwner_elem mesh candidates c :
  findOwner mesh candidates = Some c -> c ∈ candidates.
Proof.
  induction mesh as [|i parent IH]; cbn;
    destruct (find _ candidates) eqn:Hf; intros H.
  - injection H as <-. apply find_some in Hf as [Hin _]. by apply list_elem_of_In.
  - done.
  - injection H as <-. apply find_some in Hf as [Hin _]. by apply list_elem_of_In.
  - by apply IH.
Qed.

Lemma visible_group_all v ms h m :
  m ∈ ms ->
  visible (foldl (fun h m => setVisible (ref m) v h) h ms) (ref m) = v.
Proof.
  intros Hm. rewrite setVisible_all.
  assert (ref m ∈ refsOf ms) by (apply elem_of_refsOf; eauto).
  destruct v; [apply visible_true | apply visible_false]; set_solver.
Qed.

Lemma visible_group_other v ms h r :
  r ∉ refsOf ms ->
  visible (foldl (fun h m => setVisible (ref m) v h) h ms) r = visible h r.
Proof.
  intros Hr. rewrite setVisible_all. unfold visible. apply bool_decide_ext.
  destruct v; set_solver.
Qed.

Section PointerFacts.

Variable toggleMap : ToggleMap.
Variable Ray : Type.
Variable intersectObjects : Ray -> gset Ref -> list Node -> list Ref.

Lemma tryTogglePart_toggleHit ray s :
  tryTogglePart toggleMap Ray intersectObjects ray s
  = toggleHit toggleMap (clickHits toggleMap Ray intersectObjects ray s) s.
Proof.
  unfold tryTogglePart, clickHits.
  by rewrite restore_after_force, forceVisible_snd, withHidden_id.
Qed.

Lemma toggleHit_frame hits s r :
  r ∉ refsOf (toggledUnit toggleMap hits) ->
  visible (hidden (snd (toggleHit toggleMap hits s))) r = visible (hidden s) r.
Proof.
  unfold toggledUnit, toggleHit, getToggleGroup.
  destruct hits as [|hit rest]; [done|].
  destruct (findOwner hit (individuals toggleMap)) as [o|].
  - cbn. rewrite refsOf_singleton, hidden_clearHighlight. cbn.
    intros Hr. apply visible_setVisible_ne. set_solver.
  - destruct (findOwner hit (groupMembers toggleMap)) as [g|]; [|done].
    cbn. rewrite hidden_clearHighlight. cbn. apply visible_group_other.
Qed.

Lemma toggleHit_individual hit rest o s :
  findOwner hit (individuals toggleMap) = Some o ->
  fst (toggleHit toggleMap (hit :: rest) s) = true /\
  visible (hidden (snd (toggleHit toggleMap (hit :: rest) s))) (ref o)
  = negb (visible (hidden s) (ref o)).
Proof.
  intros Ho. unfold toggleHit. rewrite Ho. cbn.
  rewrite hidden_clearHighlight. cbn. split; [done|]. apply visible_setVisible_eq.
Qed.

Lemma toggleHit_group hit rest g s :
  findOwner hit (individuals toggleMap) = None ->
  findOwner hit (groupMembers toggleMap) = Some g ->
  fst (toggleHit toggleMap (hit :: rest) s) = true /\
  forall m, m ∈ groupMembers toggleMap ->
    visible (hidden (snd (toggleHit toggleMap (hit :: rest) s))) (ref m)
    = negb (visible (hidden s) (ref g)).
Proof.
  intros Ho Hg. unfold toggleHit. rewrite Ho, Hg. cbn.
  rewrite hidden_clearHighlight. cbn. split; [done|].
  intros m Hm. by apply visible_group_all.
Qed.

Lemma hidden_mousemove ray s :
  hidden (mousemove toggleMap Ray intersectObjects ray s) = hidden s.
Proof. unfold mousemove. by destruct (negb _). Qed.

Lemma setVisible_back r h :
  setVisible r (visible h r) (setVisible r (negb (visible h r)) h) = h.
Proof.
  destruct (visible h r) eqn:Hv; unfold setVisible; cbn.
  - apply visible_true in Hv. set_solver.
  - apply visible_false in Hv. apply set_eq. intros r'. set_unfold.
    destruct (decide (r' = r)); naive_solver.
Qed.

(** Two clicks with the same ray on an individual part give back the
    visibility of before: the second click hits the part although the
    first one hid it. *)
Lemma tryTogglePart_twice_individual ray s hit rest o :
  clickHits toggleMap Ray intersectObjects ray s = hit :: rest ->
  findOwner hit (individuals toggleMap) = Some o ->
  hidden (snd (tryTogglePart toggleMap Ray intersectObjects ray
                 (snd (tryTogglePart toggleMap Ray intersectObjects ray s))))
  = hidden s.
Proof.
  intros Hhits Ho. rewrite (tryTogglePart_toggleHit ray s), Hhits.
  set (s1 := snd (toggleHit toggleMap (hit :: rest) s)).
  assert (Hs1 : hidden s1
                = setVisible (ref o) (negb (visible (hidden s) (ref o))) (hidden s)).
  { unfold s1, toggleHit. rewrite Ho. cbn. by rewrite hidden_clearHighlight. }
  assert (Hsame : clickHits toggleMap Ray intersectObjects ray s1 = hit :: rest).
  { rewrite <- Hhits. unfold clickHits. f_equal. rewrite Hs1.
    assert (ref o ∈ refsOf (allToggleable toggleMap)).
    { apply elem_of_refsOf. exists o. split; [|done].
      apply elem_of_app. left. by apply findOwner_elem in Ho. }
    unfold setVisible. destruct (negb _); set_solver. }
  rewrite tryTogglePart_toggleHit, Hsame. unfold toggleHit. rewrite Ho. cbn.
  rewrite hidden_clearHighlight. cbn. rewrite Hs1, visible_setVisible_eq, negb_involutive.
  apply setVisible_back.
Qed.

End PointerFacts.

(** *** The classification of [buildToggleMap] *)

Lemma foldl_push_filter {A} (p : A -> bool) l : forall acc,
  foldl (fun acc x => if p x then acc ++ [x] else acc) acc l = acc ++ List.filter p l.
Proof.
  induction l as [|x l IH]; intros acc; cbn.
  - by rewrite app_nil_r.
  - rewrite IH. destruct (p x); [by rewrite <- app_assoc | done].
Qed.

Lemma buildToggleMap_spec root :
  individuals (buildToggleMap root)
  = List.filter isIndividual (List.filter isSolid2 (traverse root))
  /\ groupMembers (buildToggleMap root)
  = List.filter (fun c => negb (isIndividual c)) (List.filter isSolid2 (traverse root)).
Proof.
  unfold buildToggleMap. rewrite foldl_push_filter. cbn [app].
  generalize (List.filter isSolid2 (traverse root)) as l.
  assert (Hgen : forall l tm,
    let res := foldl (fun tm child =>
                 if isIndividual child
                 then {| individuals := individuals tm ++ [child];
                         groupMembers := groupMembers tm |}
                 else {| individuals := individuals tm;
                         groupMembers := groupMembers tm ++ [child] |}) tm l in
    individuals res = individuals tm ++ List.filter isIndividual l /\
    groupMembers res = groupMembers tm ++ List.filter (fun c => negb (isIndividual c)) l).
  { induction l as [|c l IH]; intros tm; cbn.
    - by rewrite !app_nil_r.
    - destruct (isIndividual c); cbn; edestruct IH as [-> ->]; cbn;
        by rewrite <- ?app_assoc. }
  intros l. apply (Hgen l {| individuals := []; groupMembers := [] |}).
Qed.

(** No object is both an individual and a group member. *)
Lemma buildToggleMap_disjoint root o m :
  o ∈ individuals (buildToggleMap root) ->
  m ∈ groupMembers (buildToggleMap root) ->
  ref o <> ref m.
Proof.
  destruct (buildToggleMap_spec root) as [-> ->].
  rewrite !list_elem_of_In, !filter_In, <- !list_elem_of_In.
  intros [[Ho _] Hi] [[Hm _] Hg] Heq.
  rewrite (traverse_functional root o m Ho Hm Heq) in Hi.
  by rewrite Hi in Hg.
Qed.

(** *** Clicks and pointer moves *)

(** C5.  [tryTogglePart] tests the ray against every toggleable mesh
    while every toggleable part is visible, and has restored the hidden
    set of before the call when it mutates.  After the call every object
    outside the resolved unit (the individual owner, or the members of
    the group) has the visibility it had before; a click whose nearest
    hit resolves to a hidden individual, or to a hidden group owner, is
    handled and shows that part, or all group members, again; and the
    hits of a click are the same whichever toggleable parts are hidden. *)
Theorem tryTogglePart_restores_and_frames
    (toggleMap : ToggleMap) (Ray : Type)
    (intersectObjects : Ray -> gset Ref -> list Node -> list Ref)
    (ray : Ray) (s : State) :
  let all := allToggleable toggleMap in
  let forced := forceVisible all (hidden s) in
  let hits := intersectObjects ray (snd forced) (collectMeshes all) in
  let result := tryTogglePart toggleMap Ray intersectObjects ray s in
  (forall p, p ∈ all -> visible (snd forced) (ref p) = true)
  /\ restoreHidden (fst forced) (snd forced) = hidden s
  /\ result = toggleHit toggleMap hits s
  /\ (forall r, r ∉ refsOf (toggledUnit toggleMap hits) ->
        visible (hidden (snd result)) r = visible (hidden s) r)
  /\ (forall hit rest o,
        hits = hit :: rest ->
        findOwner hit (individuals toggleMap) = Some o ->
        visible (hidden s) (ref o) = false ->
        fst result = true /\ visible (hidden (snd result)) (ref o) = true)
  /\ (forall hit rest g,
        hits = hit :: rest ->
        findOwner hit (individuals toggleMap) = None ->
        findOwner hit (groupMembers toggleMap) = Some g ->
        visible (hidden s) (ref g) = false ->
        fst result = true /\
        forall m, m ∈ groupMembers toggleMap ->
          visible (hidden (snd result)) (ref m) = true)
  /\ (forall s2,
        hidden s2 ∖ refsOf all = hidden s ∖ refsOf all ->
        clickHits toggleMap Ray intersectObjects ray s2 = hits).
Proof.
  intros all forced hits result.
  assert (Hres : result = toggleHit toggleMap hits s).
  { unfold result, hits, forced, all. rewrite tryTogglePart_toggleHit.
    unfold clickHits. by rewrite forceVisible_snd. }
  split; [|split; [|split; [|split; [|split; [|split]]]]].
  - intros p Hp. unfold forced. rewrite forceVisible_snd. apply visible_true.
    assert (ref p ∈ refsOf all) by (apply elem_of_refsOf; eauto). set_solver.
  - apply restore_after_force.
  - exact Hres.
  - rewrite Hres. apply toggleHit_frame.
  - intros hit rest o Hh Ho Hv. rewrite Hres, Hh.
    destruct (toggleHit_individual toggleMap hit rest o s Ho) as [-> ->].
    by rewrite Hv.
  - intros hit rest g Hh Ho Hg Hv. rewrite Hres, Hh.
    destruct (toggleHit_group toggleMap hit rest g s Ho Hg) as [-> Hm].
    split; [done|]. intros m Hin. rewrite (Hm m Hin). by rewrite Hv.
  - intros s2 Hsame. unfold clickHits, hits, forced.
    rewrite forceVisible_snd. change (allToggleable toggleMap) with all.
    by rewrite Hsame.
Qed.

(** On the small model with its individual part hidden, a click on that
    part is handled and shows it again. *)
Lemma tryTogglePart_shows_hidden_part :
  let s := {| hidden := {[ [0%nat] ]}; emissive := ∅;
              hoveredGroup := None; cursor := "" |} in
  let result := tryTogglePart (buildToggleMap caseModel) (option Ref) pointAt
                  (Some [0%nat]) s in
  fst result = true /\ visible (hidden (snd result)) [0%nat] = true.
Proof.
  intros s result.
  apply (proj1 (proj2 (proj2 (proj2 (proj2
           (tryTogglePart_restores_and_frames (buildToggleMap caseModel)
              (option Ref) pointAt (Some [0%nat]) s)))))
           [0%nat] []
           {| ref := [0%nat]; obj := Obj "Solid2" true (Some 0%nat) [] |});
    vm_compute; reflexivity.
Defined.

(** C1, as the script behaves.  A click whose ray hits nothing is
    unhandled and leaves the whole state as it was: visibility, emissive
    colours, hovered group and cursor.  A pointer move whose ray hits
    nothing leaves all visibility unchanged and ends with no hovered
    group; it changes nothing at all when no group was hovered, and
    otherwise resets the emissive colour of the meshes of the group that
    was hovered; repeating the same move changes nothing more. *)
Theorem no_hit_click_and_hover
    (toggleMap : ToggleMap) (Ray : Type)
    (intersectObjects : Ray -> gset Ref -> list Node -> list Ref)
    (ray : Ray) (s : State) :
  (clickHits toggleMap Ray intersectObjects ray s = [] ->
   tryTogglePart toggleMap Ray intersectObjects ray s = (false, s))
  /\ (hoverHits toggleMap Ray intersectObjects ray s = [] ->
      let s' := mousemove toggleMap Ray intersectObjects ray s in
      hidden s' = hidden s
      /\ hoveredGroup s' = None
      /\ (hoveredGroup s = None -> s' = s)
      /\ (forall g, hoveredGroup s = Some g ->
            emissive s' = setGroupEmissive (groupObjects toggleMap g)
                            defaultEmissive (emissive s))
      /\ mousemove toggleMap Ray intersectObjects ray s' = s').
Proof.
  split.
  - intros Hhits. by rewrite tryTogglePart_toggleHit, Hhits.
  - intros Hhits s'.
    assert (Hs' : s' = match hoveredGroup s with
                       | Some g =>
                           {| hidden := hidden s;
                              emissive := setGroupEmissive (groupObjects toggleMap g)
                                            defaultEmissive (emissive s);
                              hoveredGroup := None; cursor := "" |}
                       | None => s
                       end).
    { unfold s', mousemove. unfold hoverHits in Hhits. rewrite Hhits.
      by destruct (hoveredGroup s). }
    assert (Hh : hidden s' = hidden s) by apply hidden_mousemove.
    assert (Hg : hoveredGroup s' = None).
    { rewrite Hs'. by destruct (hoveredGroup s) eqn:E. }
    split; [exact Hh|]. split; [exact Hg|]. split; [|split].
    + intros Hn. by rewrite Hs', Hn.
    + intros g Hsome. by rewrite Hs', Hsome.
    + unfold mousemove. rewrite Hh. unfold hoverHits in Hhits.
      rewrite Hhits, Hg. reflexivity.
Qed.

(** On the small model with its individual part hovered, a click and a
    move away from every part: the click changes nothing. *)
Lemma no_hit_click_on_hovered_model :
  tryTogglePart (buildToggleMap caseModel) (option Ref) pointAt None hoveredState
  = (false, hoveredState).
Proof.
  apply (proj1 (no_hit_click_and_hover (buildToggleMap caseModel)
                  (option Ref) pointAt None hoveredState)).
  reflexivity.
Defined.

(** C1 as stated fails for the pointer move: with the individual part of
    the small model hovered, a move whose ray hits nothing changes the
    emissive colour of that part's material from the highlight back to
    the default, and empties the hovered group. *)
Lemma no_hit_hover_clears_highlight :
  hoverHits (buildToggleMap caseModel) (option Ref) pointAt None hoveredState = []
  /\ emissive hoveredState !! 0%nat = Some highlightEmissive
  /\ emissive (mousemove (buildToggleMap caseModel) (option Ref) pointAt None
                 hoveredState) !! 0%nat = Some defaultEmissive
  /\ hoveredGroup hoveredState
     = Some (FreshArray {| ref := [0%nat]; obj := Obj "Solid2" true (Some 0%nat) [] |})
  /\ hoveredGroup (mousemove (buildToggleMap caseModel) (option Ref) pointAt None
                     hoveredState) = None.
Proof. repeat split; vm_compute; reflexivity. Qed.

(** *** The group invariant *)

Lemma groupUniform_toggleHit root hits s :
  groupUniform (buildToggleMap root) (hidden s) ->
  groupUniform (buildToggleMap root)
    (hidden (snd (toggleHit (buildToggleMap root) hits s))).
Proof.
  intros Hinv m1 m2 H1 H2. unfold toggleHit.
  destruct hits as [|hit rest]; [by apply Hinv|].
  destruct (findOwner hit (individuals (buildToggleMap root))) as [o|] eqn:Ho.
  - apply findOwner_elem in Ho. cbn. rewrite hidden_clearHighlight. cbn.
    rewrite !visible_setVisible_ne; [by apply Hinv| |].
    + intros Heq. by apply (buildToggleMap_disjoint root o m2).
    + intros Heq. by apply (buildToggleMap_disjoint root o m1).
  - destruct (findOwner hit (groupMembers (buildToggleMap root))) as [g|];
      [|by apply Hinv].
    cbn. rewrite hidden_clearHighlight. cbn. by rewrite !visible_group_all.
Qed.

Lemma groupUniform_run root Ray intersectObjects events : forall s,
  groupUniform (buildToggleMap root) (hidden s) ->
  groupUniform (buildToggleMap root)
    (hidden (run (buildToggleMap root) Ray intersectObjects events s)).
Proof.
  unfold run. induction events as [|e events IH]; intros s Hinv; [done|].
  cbn. apply IH. destruct e as [ray|ray]; cbn.
  - by rewrite hidden_mousemove.
  - rewrite tryTogglePart_toggleHit. by apply groupUniform_toggleHit.
Qed.

(** C6.  For the toggle map built from any model: after any sequence of
    clicks and pointer moves from the all-visible state all group members
    have the same visibility; a click resolved to the group gives every
    member the negation of the owner's visibility, and any other click
    leaves the visibility of every group member as it was. *)
Theorem group_members_share_visibility
    (root : Object3D) (Ray : Type)
    (intersectObjects : Ray -> gset Ref -> list Node -> list Ref)
    (events : list (Event Ray)) (em : gmap nat N) :
  let toggleMap := buildToggleMap root in
  (forall m1 m2, m1 ∈ groupMembers toggleMap -> m2 ∈ groupMembers toggleMap ->
     visible (hidden (run toggleMap Ray intersectObjects events (initialState em)))
       (ref m1)
     = visible (hidden (run toggleMap Ray intersectObjects events (initialState em)))
         (ref m2))
  /\ (forall (ray : Ray) (s : State),
      let hits := clickHits toggleMap Ray intersectObjects ray s in
      let s' := snd (tryTogglePart toggleMap Ray intersectObjects ray s) in
      (forall hit rest g,
          hits = hit :: rest ->
          findOwner hit (individuals toggleMap) = None ->
          findOwner hit (groupMembers toggleMap) = Some g ->
          forall m, m ∈ groupMembers toggleMap ->
            visible (hidden s') (ref m) = negb (visible (hidden s) (ref g)))
      /\ ((forall hit rest, hits = hit :: rest ->
             getToggleGroup toggleMap hit <> Some GroupMembersArray) ->
          forall m, m ∈ groupMembers toggleMap ->
            visible (hidden s') (ref m) = visible (hidden s) (ref m))).
Proof.
  intros toggleMap. split.
  - apply groupUniform_run. intros m1 m2 _ _. reflexivity.
  - intros ray s hits s'. unfold s'. rewrite tryTogglePart_toggleHit. fold hits.
    split.
    + intros hit rest g -> Ho Hg m Hm.
      by apply (toggleHit_group toggleMap hit rest g s Ho Hg).
    + intros Hother m Hm. unfold toggleHit. destruct hits as [|hit rest]; [done|].
      specialize (Hother hit rest eq_refl). unfold getToggleGroup in Hother.
      destruct (findOwner hit (individuals toggleMap)) as [o|] eqn:Ho.
      * apply findOwner_elem in Ho. cbn. rewrite hidden_clearHighlight. cbn.
        apply visible_setVisible_ne. intros Heq.
        by apply (buildToggleMap_disjoint root o m).
      * by destruct (findOwner hit (groupMembers toggleMap)) as [g|].
Qed.

(** On the small model: hide the group, toggle the individual part, move
    the pointer; the two group members are both hidden. *)
Lemma group_members_share_visibility_case :
  let s := run (buildToggleMap caseModel) (option Ref) pointAt
             [Click _ (Some [1%nat]); Click _ (Some [0%nat]); MouseMove _ (Some [2%nat])]
             (initialState ∅) in
  visible (hidden s) [1%nat] = visible (hidden s) [2%nat]
  /\ visible (hidden s) [2%nat] = false.
Proof.
  intros s. split; [|vm_compute; reflexivity].
  apply (proj1 (group_members_share_visibility caseModel (option Ref) pointAt
                  [Click _ (Some [1%nat]); Click _ (Some [0%nat]);
                   MouseMove _ (Some [2%nat])] ∅)
           {| ref := [1%nat]; obj := Obj "Solid2.002" true (Some 1%nat) [] |}
           {| ref := [2%nat]; obj := Obj "Solid2.003" true (Some 2%nat) [] |}).
  - apply list_elem_of_here.
  - apply list_elem_of_further, list_elem_of_here.
Defined.

End Toggle.

(** ** Scroll-driven context transition *)

Module Transition.
Local Open Scope Q_scope.

(** A context preset.  Its colours, materials, lights and exposure reach
    the renderer through [applyContextNow] and play no part in the
    choice of what is rendered. *)
Record ContextPreset := { ctxName : string }.

Definition contexts : list ContextPreset :=
  [ {| ctxName := "Scandinavian" |}; {| ctxName := "Marble" |};
    {| ctxName := "Minimal" |}; {| ctxName := "Walnut" |};
    {| ctxName := "Steel" |}; {| ctxName := "Terracotta" |};
    {| ctxName := "Noir" |}; {| ctxName := "Sage" |};
    {| ctxName := "Blush" |}; {| ctxName := "Gallery" |} ].

Definition SCROLL_PER_CONTEXT : Q := 400.

Inductive Target := RtA | RtB | Screen.

(** What one frame asks of the renderer, in order. *)
Inductive Cmd :=
  | UpdateDots (activeIdx : Z)
  | ApplyContextNow (ctx : option ContextPreset)
  | SetRenderTarget (target : Target)
  | RenderScene
  | SetWipeUniforms (progress : Q) (direction : Z)
  | RenderWipe
  | ComposerRender.

Inductive Input :=
  | Wheel (deltaY : Q)
  | DotClick (k : nat).

Section Engine.

(** The engine for any list of presets; [dotsEl] tells whether the
    element holding the dot buttons exists. *)
Variable presets : list ContextPreset.
Variable dotsEl : bool.

Definition lastIndex : Q := inject_Z (Z.of_nat (length presets)) - 1.

(** The [wheel] listener. *)
Definition wheel (deltaY : Q) (scrollPosition : Q) : Q :=
  let delta := deltaY / SCROLL_PER_CONTEXT in
  Qmax 0 (Qmin lastIndex (scrollPosition + delta)).

(** The click listeners of the dot buttons, one per preset:
    [scrollPosition = i]. *)
Definition dots : list (Q -> Q) :=
  if dotsEl then imap (fun i _ => fun _ : Q => inject_Z (Z.of_nat i)) presets else [].

(** A click on the [k]-th dot button, when there is one. *)
Definition dotClick (k : nat) (scrollPosition : Q) : Q :=
  match dots !! k with
  | Some listener => listener scrollPosition
  | None => scrollPosition
  end.

Definition handle (scrollPosition : Q) (i : Input) : Q :=
  match i with
  | Wheel deltaY => wheel deltaY scrollPosition
  | DotClick k => dotClick k scrollPosition
  end.

Definition fromIdx (scrollPosition : Q) : Z := Qfloor scrollPosition.

Definition toIdx (scrollPosition : Q) : Z :=
  Z.min (fromIdx scrollPosition + 1) (Z.of_nat (length presets) - 1).

Definition progress (scrollPosition : Q) : Q :=
  scrollPosition - inject_Z (fromIdx scrollPosition).

(** [contexts[i]]: [undefined] outside the array. *)
Definition contextAt (i : Z) : option ContextPreset :=
  if (0 <=? i)%Z then presets !! Z.to_nat i else None.

(** The test [t > 0.001 && fromIdx !== toIdx] of [animate]. *)
Definition midTransition (scrollPosition : Q) : bool :=
  negb (Qle_bool (progress scrollPosition) (1 # 1000))
  && negb (fromIdx scrollPosition =? toIdx scrollPosition)%Z.

(** The rendering part of [animate]. *)
Definition renderFrame (wipeDirection : Z) (scrollPosition : Q) : list Cmd :=
  UpdateDots (Qfloor (scrollPosition + (1 # 2))) ::
  if midTransition scrollPosition then
    [ ApplyContextNow (contextAt (fromIdx scrollPosition));
      SetRenderTarget RtA; RenderScene;
      ApplyContextNow (contextAt (toIdx scrollPosition));
      SetRenderTarget RtB; RenderScene;
      SetWipeUniforms (progress scrollPosition) wipeDirection;
      SetRenderTarget Screen; RenderWipe ]
  else
    [ ApplyContextNow (contextAt (fromIdx scrollPosition)); ComposerRender ].

End Engine.

(** *** The scroll position stays in range *)

Definition inRange (presets : list ContextPreset) (scrollPosition : Q) : Prop :=
  0 <= scrollPosition /\ scrollPosition <= lastIndex presets.

Lemma lastIndex_nonneg presets : presets <> [] -> 0 <= lastIndex presets.
Proof.
  intros Hne. unfold lastIndex. destruct presets as [|c l]; [done|].
  unfold Qle. cbn [length]. cbn -[Z.of_nat]. lia.
Qed.

Lemma index_le_lastIndex presets (k : nat) :
  (k < length presets)%nat -> inject_Z (Z.of_nat k) <= lastIndex presets.
Proof. intros Hk. unfold lastIndex, Qle. cbn -[Z.of_nat]. lia. Qed.

Lemma wheel_inRange presets deltaY pos :
  presets <> [] -> inRange presets (wheel presets deltaY pos).
Proof.
  intros Hne. unfold inRange, wheel. split.
  - apply Q.le_max_l.
  - apply Q.max_lub; [by apply lastIndex_nonneg | apply Q.le_min_l].
Qed.

Lemma dotClick_spec presets dotsEl k pos :
  dotClick presets dotsEl k pos
  = if dotsEl && bool_decide (k < length presets)%nat
    then inject_Z (Z.of_nat k) else pos.
Proof.
  unfold dotClick, dots. destruct dotsEl; cbn; [|done].
  rewrite list_lookup_imap. case_bool_decide as Hk.
  - apply lookup_lt_is_Some_2 in Hk as [c ->]. done.
  - rewrite lookup_ge_None_2; [done | lia].
Qed.

Lemma dotClick_inRange presets dotsEl k pos :
  inRange presets pos -> inRange presets (dotClick presets dotsEl k pos).
Proof.
  intros Hpos. rewrite dotClick_spec.
  destruct (dotsEl && bool_decide (k < length presets)%nat) eqn:E; [|done].
  apply andb_true_iff in E as [_ Hk]. apply bool_decide_eq_true in Hk.
  split; [|by apply index_le_lastIndex].
  unfold Qle. cbn -[Z.of_nat]. lia.
Qed.

Lemma handle_inRange presets dotsEl pos i :
  presets <> [] -> inRange presets pos -> inRange presets (handle presets dotsEl pos i).
Proof.
  intros Hne Hpos. destruct i; cbn; [by apply wheel_inRange | by apply dotClick_inRange].
Qed.

(** C7.  With at least one preset, the scroll position reached from 0 by
    any sequence of wheel events and dot clicks lies in [0, N-1].  A
    wheel event is never dropped: the sum is kept when it lies in the
    range, and replaced by the nearer bound when it lies outside.  A
    click on an existing dot sets the position to that dot's index. *)
Theorem scrollPosition_in_range
    (presets : list ContextPreset) (dotsEl : bool) (inputs : list Input) :
  presets <> [] ->
  inRange presets (foldl (handle presets dotsEl) 0 inputs)
  /\ (forall deltaY pos,
        let sum := pos + deltaY / SCROLL_PER_CONTEXT in
        inRange presets (wheel presets deltaY pos)
        /\ (sum <= 0 -> wheel presets deltaY pos == 0)
        /\ (lastIndex presets <= sum -> wheel presets deltaY pos == lastIndex presets)
        /\ (inRange presets sum -> wheel presets deltaY pos == sum))
  /\ (forall k pos,
        dotsEl = true -> (k < length presets)%nat ->
        dotClick presets dotsEl k pos = inject_Z (Z.of_nat k)
        /\ inRange presets (dotClick presets dotsEl k pos)).
Proof.
  intros Hne. split; [|split].
  - assert (Hgen : forall pos, inRange presets pos ->
              inRange presets (foldl (handle presets dotsEl) pos inputs)).
    { induction inputs as [|i inputs IH]; intros pos Hpos; [done|].
      cbn. apply IH. by apply handle_inRange. }
    apply Hgen. split; [apply Qle_refl | by apply lastIndex_nonneg].
  - intros deltaY pos sum. split; [by apply wheel_inRange|].
    pose proof (lastIndex_nonneg presets Hne) as Hlast.
    unfold wheel. fold sum. split; [|split].
    + intros Hsum. rewrite Q.max_l; [reflexivity|].
      apply Qle_trans with sum; [apply Q.le_min_r | exact Hsum].
    + intros Hsum. rewrite Q.min_l by exact Hsum. by rewrite Q.max_r.
    + intros [H0 Hsum]. rewrite Q.min_r by exact Hsum. by rewrite Q.max_r.
  - intros k pos Hd Hk. rewrite dotClick_spec, Hd, bool_decide_true by done.
    cbn. split; [done|]. split; [|by apply index_le_lastIndex].
    unfold Qle. cbn -[Z.of_nat]. lia.
Qed.

(** The ten presets of the viewer: a huge scroll down, a click on the
    fourth dot, and a huge scroll up. *)
Lemma scrollPosition_in_range_contexts :
  inRange contexts
    (foldl (handle contexts true) 0 [Wheel 1000000; DotClick 3; Wheel (-1000000)]).
Proof.
  apply (proj1 (scrollPosition_in_range contexts true
                  [Wheel 1000000; DotClick 3; Wheel (-1000000)] ltac:(discriminate))).
Defined.

(** *** One page of scroll from the first context *)

(** C2, as the script behaves.  With the ten presets and 400 units per
    context, a wheel event of 400 from position 0 gives position 1.  On
    the next frame [fromIdx] is 1, [toIdx] is 2 and the fraction is 0, so
    the frame is not mid-transition: preset 1 is applied to the live
    scene and the composer renders it, with no render target and no wipe
    pass. *)
Theorem one_page_scroll_settles_on_second_context (wipeDirection : Z) :
  let scrollPosition := wheel contexts 400 0 in
  scrollPosition == 1
  /\ fromIdx scrollPosition = 1%Z
  /\ toIdx contexts scrollPosition = 2%Z
  /\ progress scrollPosition == 0
  /\ midTransition contexts scrollPosition = false
  /\ renderFrame contexts wipeDirection scrollPosition
     = [ UpdateDots 1; ApplyContextNow (Some {| ctxName := "Marble" |});
         ComposerRender ].
Proof. repeat split. Qed.

(** Half a page further, at position 3/2, the frame is mid-transition:
    presets 1 and 2 are rendered into the two targets and wiped with
    progress 1/2. *)
Lemma half_page_scroll_is_mid_transition (wipeDirection : Z) :
  exists scrollPosition,
    scrollPosition == 3 # 2
    /\ renderFrame contexts wipeDirection (wheel contexts 200 1)
       = [ UpdateDots 2;
           ApplyContextNow (Some {| ctxName := "Marble" |});
           SetRenderTarget RtA; RenderScene;
           ApplyContextNow (Some {| ctxName := "Minimal" |});
           SetRenderTarget RtB; RenderScene;
           SetWipeUniforms (progress scrollPosition) wipeDirection;
           SetRenderTarget Screen; RenderWipe ]
    /\ progress scrollPosition == 1 # 2.
Proof. exists (wheel contexts 200 1). repeat split. Qed.

(** C2 as stated fails in one point: at position 1 the two indices
    differ. *)
Lemma one_page_scroll_indices_differ :
  (fromIdx (wheel contexts 400 0) =? toIdx contexts (wheel contexts 400 0))%Z = false.
Proof. reflexivity. Qed.

End Transition.

(** ** Explode view *)

Module Explode.
Import SceneGraph.
Local Open Scope R_scope.

(** The parts of the rendering library's [Vector3] and [Quaternion] that
    the script calls, over the reals. *)
Record Vector3 := { x : R; y : R; z : R }.
Record Quaternion := { qx : R; qy : R; qz : R; qw : R }.

Definition subVectors (a b : Vector3) : Vector3 :=
  {| x := x a - x b; y := y a - y b; z := z a - z b |}.

Definition setY (v : Vector3) (y' : R) : Vector3 :=
  {| x := x v; y := y'; z := z v |}.

Definition length (v : Vector3) : R :=
  sqrt (x v * x v + y v * y v + z v * z v).

Definition multiplyScalar (v : Vector3) (s : R) : Vector3 :=
  {| x := x v * s; y := y v * s; z := z v * s |}.

Definition divideScalar (v : Vector3) (s : R) : Vector3 :=
  multiplyScalar v (1 / s).

(** [normalize()] is [divideScalar(length() || 1)]. *)
Definition normalize (v : Vector3) : Vector3 :=
  divideScalar v (if Req_dec_T (length v) 0 then 1 else length v).

Definition addScaledVector (v d : Vector3) (s : R) : Vector3 :=
  {| x := x v + x d * s; y := y v + y d * s; z := z v + z d * s |}.

(** [invert()] of a quaternion is its conjugate. *)
Definition invert (q : Quaternion) : Quaternion :=
  {| qx := - qx q; qy := - qy q; qz := - qz q; qw := qw q |}.

(** [applyQuaternion(q)]: with [t = 2 * cross(q.xyz, v)], the result is
    [v + q.w * t + cross(q.xyz, t)]. *)
Definition applyQuaternion (v : Vector3) (q : Quaternion) : Vector3 :=
  let tx := 2 * (qy q * z v - qz q * y v) in
  let ty := 2 * (qz q * x v - qx q * z v) in
  let tz := 2 * (qx q * y v - qy q * x v) in
  {| x := x v + qw q * tx + qy q * tz - qz q * ty;
     y := y v + qw q * ty + qz q * tx - qx q * tz;
     z := z v + qw q * tz + qx q * ty - qy q * tx |}.

Definition unitQuaternion (q : Quaternion) : Prop :=
  qx q * qx q + qy q * qy q + qz q * qz q + qw q * qw q = 1.

Definition EXPLODE_DISTANCE : R := 3 / 10.

Record ExplodePart := {
  object : Ref;
  originalPos : Vector3;
  direction : Vector3 }.

(** The lines of [buildExplodeParts] from the subtraction to
    [dir.normalize()]: the direction in world space. *)
Definition clampedOffset (modelCtr childCenter : Vector3) : Vector3 :=
  let dir := subVectors childCenter modelCtr in
  setY dir (Rmax (y dir) (5 / 100)).

Definition worldDirection (modelCtr childCenter : Vector3) : Vector3 :=
  normalize (clampedOffset modelCtr childCenter).

Section Build.

(** From the rendering library: the centre of the world bounding box of
    an object, the world orientation of an object, the world
    orientation of the parent of the model root ([None] when the root
    has no parent), and the local position of an object. *)
Variable boxCenter : Ref -> Vector3.
Variable worldQuaternion : Ref -> Quaternion.
Variable rootParentQuaternion : option Quaternion.
Variable position : Ref -> Vector3.

(** [child.parent.getWorldQuaternion(...)], when [child.parent] exists. *)
Definition parentQuaternion (child : Ref) : option Quaternion :=
  match child with
  | [] => rootParentQuaternion
  | _ :: parent => Some (worldQuaternion parent)
  end.

Definition explodePart (child : Node) : ExplodePart :=
  let dir := worldDirection (boxCenter []) (boxCenter (ref child)) in
  {| object := ref child;
     originalPos := position (ref child);
     direction :=
       match parentQuaternion (ref child) with
       | Some q => applyQuaternion dir (invert q)
       | None => dir
       end |}.

(** [buildExplodeParts(root)]. *)
Definition buildExplodeParts (root : Object3D) : list ExplodePart :=
  foldl (fun parts child =>
           if isMesh (obj child) then parts ++ [explodePart child] else parts)
        [] (traverse root).

End Build.

(** [explodeT += (target - explodeT) * 0.08]. *)
Definition advance (exploded : bool) (explodeT : R) : R :=
  let target := if exploded then 1 else 0 in
  explodeT + (target - explodeT) * (8 / 100).

(** The loop of [updateExplode]: the positions written, by object. *)
Definition placeParts (parts : list ExplodePart) (explodeT : R)
    (positions : gmap Ref Vector3) : gmap Ref Vector3 :=
  foldl (fun positions part =>
           <[ object part :=
                addScaledVector (originalPos part) (direction part)
                  (explodeT * EXPLODE_DISTANCE) ]> positions)
        positions parts.

Record ExplodeState := {
  exploded : bool;
  explodeT : R;
  positions : gmap Ref Vector3 }.

(** [updateExplode()]. *)
Definition updateExplode (parts : list ExplodePart) (st : ExplodeState) : ExplodeState :=
  let t := advance (exploded st) (explodeT st) in
  {| exploded := exploded st; explodeT := t;
     positions := placeParts parts t (positions st) |}.




(** *** The same lines in binary64 arithmetic

    [loadModel]'s fitting, [buildExplodeParts] and the position written
    by [updateExplode] over IEEE doubles, with the NaN and the infinities
    the reals do not have. *)

Module Binary64.
Import Floats.
Local Open Scope bool_scope.
Local Open Scope float_scope.

Record Vector3 := { x : float; y : float; z : float }.
Record Quaternion := { qx : float; qy : float; qz : float; qw : float }.
Record Box3 := { boxMin : Vector3; boxMax : Vector3 }.

(** [Math.max(a, b)]: NaN when an argument is NaN; of the two zeros
    the positive one. *)
Definition max (a b : float) : float :=
  if PrimFloat.is_nan a || PrimFloat.is_nan b then nan
  else if a <? b then b
  else if b <? a then a
  else if PrimFloat.is_zero a then a + b else a.

(** [Math.min(a, b)]: NaN when an argument is NaN; of the two zeros
    the negative one. *)
Definition min (a b : float) : float :=
  if PrimFloat.is_nan a || PrimFloat.is_nan b then nan
  else if a <? b then a
  else if b <? a then b
  else if PrimFloat.is_zero a then - (- a + - b) else a.

(** [l || 1]: zero and NaN are falsy. *)
Definition orOne (l : float) : float :=
  if (l =? 0) || PrimFloat.is_nan l then 1 else l.

Definition subVectors (a b : Vector3) : Vector3 :=
  {| x := x a - x b; y := y a - y b; z := z a - z b |}.

Definition addVectors (a b : Vector3) : Vector3 :=
  {| x := x a + x b; y := y a + y b; z := z a + z b |}.

Definition length (v : Vector3) : float :=
  PrimFloat.sqrt (x v * x v + y v * y v + z v * z v).

Definition multiplyScalar (v : Vector3) (s : float) : Vector3 :=
  {| x := x v * s; y := y v * s; z := z v * s |}.

Definition addScaledVector (v d : Vector3) (s : float) : Vector3 :=
  {| x := x v + x d * s; y := y v + y d * s; z := z v + z d * s |}.

Definition normalize (v : Vector3) : Vector3 :=
  multiplyScalar v (1 / orOne (length v)).

(** [invert()] of a quaternion multiplies x, y and z by -1. *)
Definition invert (q : Quaternion) : Quaternion :=
  {| qx := qx q * -1; qy := qy q * -1; qz := qz q * -1; qw := qw q |}.

Definition applyQuaternion (v : Vector3) (q : Quaternion) : Vector3 :=
  let tx := 2 * (qy q * z v - qz q * y v) in
  let ty := 2 * (qz q * x v - qx q * z v) in
  let tz := 2 * (qx q * y v - qy q * x v) in
  {| x := x v + qw q * tx + qy q * tz - qz q * ty;
     y := y v + qw q * ty + qz q * tx - qx q * tz;
     z := z v + qw q * tz + qx q * ty - qy q * tx |}.

(** The lines of [buildExplodeParts] from the subtraction to
    [dir.normalize()]; the clamp is the double nearest to 0.05. *)
Definition worldDirection (modelCtr childCenter : Vector3) : Vector3 :=
  let dir := subVectors childCenter modelCtr in
  normalize {| x := x dir; y := max (y dir) 0x1.999999999999ap-5; z := z dir |}.


(** The doubles nearest to 0.3 and 0.08. *)
Definition EXPLODE_DISTANCE : float := 0x1.3333333333333p-2.

Definition advance (exploded : bool) (explodeT : float) : float :=
  explodeT + ((if exploded then 1 else 0) - explodeT) * 0x1.47ae147ae147bp-4.




Definition origin : Vector3 := {| x := 0; y := 0; z := 0 |}.

(** **** The box of a model and [loadModel]'s fitting *)

(** [Box3.expandByPoint]. *)
Definition expandByPoint (b : Box3) (p : Vector3) : Box3 :=
  {| boxMin := {| x := min (x (boxMin b)) (x p);
                  y := min (y (boxMin b)) (y p);
                  z := min (z (boxMin b)) (z p) |};
     boxMax := {| x := max (x (boxMax b)) (x p);
                  y := max (y (boxMax b)) (y p);
                  z := max (z (boxMax b)) (z p) |} |}.

(** The box of a set of points that is not empty. *)
Definition setFromPoints (p0 : Vector3) (ps : list Vector3) : Box3 :=
  fold_left expandByPoint ps {| boxMin := p0; boxMax := p0 |}.

(** [Box3.isEmpty]: a comparison with NaN is false. *)
Definition isEmpty (b : Box3) : bool :=
  (x (boxMax b) <? x (boxMin b)) || (y (boxMax b) <? y (boxMin b))
  || (z (boxMax b) <? z (boxMin b)).

Definition getSize (b : Box3) : Vector3 :=
  if isEmpty b then origin else subVectors (boxMax b) (boxMin b).

Definition getCenter (b : Box3) : Vector3 :=
  if isEmpty b then origin
  else multiplyScalar (addVectors (boxMin b) (boxMax b)) 0x1p-1.

(** Position and uniform scale of the model root. *)
Record Placement := { position : Vector3; scale : float }.

(** The world box of the model: the box of its corner points, given in
    the frame of the turned root, scaled and moved with the root. *)
Definition setFromObject (corner0 : Vector3) (corners : list Vector3) (t : Placement)
    : Box3 :=
  setFromPoints (addScaledVector (position t) corner0 (scale t))
    (List.map (fun c => addScaledVector (position t) c (scale t)) corners).

(** The scaling and centring lines of [loadModel]. *)
Definition fitModel (corner0 : Vector3) (corners : list Vector3) (t : Placement)
    : Placement :=
  let box := setFromObject corner0 corners t in
  let size := getSize box in
  let maxDim := max (max (x size) (y size)) (z size) in
  let scale' := 1 / maxDim in
  let t2 := {| position := position t; scale := scale' |} in
  let scaledBox := setFromObject corner0 corners t2 in
  let scaledCenter := getCenter scaledBox in
  {| position := {| x := x (position t) - x scaledCenter;
                    y := y (position t) - y (boxMin scaledBox);
                    z := z (position t) - z scaledCenter |};
     scale := scale' |}.


(** The doubles nearest to the quaternion of the turn by -90 degrees
    about X. *)
Definition cadOrientation : Quaternion :=
  {| qx := -0x1.6a09e667f3bcdp-1; qy := 0; qz := 0; qw := 0x1.6a09e667f3bcdp-1 |}.






(** **** NaN goes through every operation *)

Lemma is_nan_Prim2SF a : PrimFloat.is_nan a = true <-> Prim2SF a = S754_nan.
Proof.
  split.
  - intros H. unfold Prim2SF. now rewrite H.
  - intros H. unfold PrimFloat.is_nan. rewrite FloatAxioms.eqb_spec, H. reflexivity.
Qed.






Lemma sqrt_nan a : PrimFloat.is_nan a = true -> PrimFloat.is_nan (PrimFloat.sqrt a) = true.
Proof. rewrite !is_nan_Prim2SF, sqrt_spec. intros ->. reflexivity. Qed.



(** **** The two cases of the clamp and of the guard *)






End Binary64.

(** *** Two panels under the rotated model root *)

(** [loadModel] turns the model root by -90 degrees about the X axis; a
    mesh directly below the root therefore has a parent with this world
    orientation. *)
Definition cadOrientation : Quaternion :=
  {| qx := - (sqrt 2 / 2); qy := 0; qz := 0; qw := sqrt 2 / 2 |}.

Definition identityQuaternion : Quaternion :=
  {| qx := 0; qy := 0; qz := 0; qw := 1 |}.

Definition origin : Vector3 := {| x := 0; y := 0; z := 0 |}.


(** [Box3.getCenter] of a box given by its lower and upper corner. *)
Definition centerOf (b : Vector3 * Vector3) : Vector3 :=
  {| x := (x (fst b) + x (snd b)) * (1 / 2);
     y := (y (fst b) + y (snd b)) * (1 / 2);
     z := (z (fst b) + z (snd b)) * (1 / 2) |}.

(** A model of two meshes below the root. *)
Definition panelModel : Object3D :=
  Obj "ANGL-ASM-MAIN" false None
    [ Obj "ANGL-PAR-OSH-001_REV-G" true (Some 0%nat) [];
      Obj "ANGL-PAR-OSH-002_REV-G" true (Some 1%nat) [] ].

(** The world boxes after [loadModel]: the side panel is low and in
    front, the top panel high and behind; the box of the model is their
    union, 1 wide, standing on the ground and centred over the origin. *)
Definition panelBox (r : Ref) : Vector3 * Vector3 :=
  match r with
  | [] => ({| x := - (5 / 10); y := 0; z := - (3 / 10) |},
           {| x := 5 / 10; y := 6 / 10; z := 3 / 10 |})
  | [0%nat] => ({| x := - (3 / 10); y := 0; z := - (1 / 10) |},
                {| x := 5 / 10; y := 4 / 10; z := 3 / 10 |})
  | _ => ({| x := - (5 / 10); y := 4 / 10; z := - (3 / 10) |},
          {| x := 1 / 10; y := 6 / 10; z := 1 / 10 |})
  end.

Definition panelCenter (r : Ref) : Vector3 := centerOf (panelBox r).

Definition panelParts : list ExplodePart :=
  buildExplodeParts panelCenter (fun _ => cadOrientation) (Some identityQuaternion)
    (fun _ => origin) panelModel.

(** *** Facts about the vector operations *)

Lemma length_nonneg v : 0 <= length v.
Proof. apply sqrt_pos. Qed.

Lemma length_sq v : length v * length v = x v * x v + y v * y v + z v * z v.
Proof. unfold length. apply sqrt_sqrt. nra. Qed.

Lemma abs_y_le_length v : Rabs (y v) <= length v.
Proof.
  unfold length. rewrite <- sqrt_Rsqr_abs. apply sqrt_le_1_alt.
  unfold Rsqr. nra.
Qed.

Lemma clampedOffset_y modelCtr childCenter :
  5 / 100 <= y (clampedOffset modelCtr childCenter).
Proof. unfold clampedOffset. cbn. apply Rmax_r. Qed.

Lemma clampedOffset_length modelCtr childCenter :
  5 / 100 <= length (clampedOffset modelCtr childCenter).
Proof.
  pose proof (clampedOffset_y modelCtr childCenter) as Hy.
  pose proof (abs_y_le_length (clampedOffset modelCtr childCenter)) as Hl.
  rewrite Rabs_right in Hl; lra.
Qed.

Lemma normalize_nonzero v :
  length v <> 0 -> normalize v = divideScalar v (length v).
Proof. intros Hne. unfold normalize. by destruct (Req_dec_T (length v) 0). Qed.

Lemma normalize_length v : length v <> 0 -> length (normalize v) = 1.
Proof.
  intros Hne. rewrite normalize_nonzero by exact Hne.
  unfold length at 1. cbn.
  replace (x v * (1 / length v) * (x v * (1 / length v))
           + y v * (1 / length v) * (y v * (1 / length v))
           + z v * (1 / length v) * (z v * (1 / length v)))
    with ((x v * x v + y v * y v + z v * z v) / (length v * length v))
    by (field; exact Hne).
  rewrite <- length_sq. replace (length v * length v / (length v * length v)) with 1
    by (field; exact Hne).
  apply sqrt_1.
Qed.


(** A unit quaternion rotates: lengths are kept. *)
Lemma applyQuaternion_length v q :
  unitQuaternion q -> length (applyQuaternion v q) = length v.
Proof.
  unfold unitQuaternion, applyQuaternion, length.
  destruct v as [vx vy vz], q as [a b c w]. cbn. intros Hq.
  f_equal. nsatz.
Qed.

Lemma invert_unit q : unitQuaternion q -> unitQuaternion (invert q).
Proof. unfold unitQuaternion, invert. cbn. intros Hq. nra. Qed.

Lemma length_multiplyScalar v s : length (multiplyScalar v s) = Rabs s * length v.
Proof.
  unfold length. cbn.
  replace (x v * s * (x v * s) + y v * s * (y v * s) + z v * s * (z v * s))
    with (Rsqr s * (x v * x v + y v * y v + z v * z v)) by (unfold Rsqr; ring).
  rewrite sqrt_mult; [| apply Rle_0_sqr | nra].
  by rewrite sqrt_Rsqr_abs.
Qed.


(** *** The world-space direction *)

Lemma clampedOffset_length_nonzero modelCtr childCenter :
  length (clampedOffset modelCtr childCenter) <> 0.
Proof. pose proof (clampedOffset_length modelCtr childCenter). lra. Qed.

Lemma worldDirection_length modelCtr childCenter :
  length (worldDirection modelCtr childCenter) = 1.
Proof. apply normalize_length, clampedOffset_length_nonzero. Qed.



(** *** The parts of a model *)

Section BuildFacts.

Variable boxCenter : Ref -> Vector3.
Variable worldQuaternion : Ref -> Quaternion.
Variable rootParentQuaternion : option Quaternion.
Variable position : Ref -> Vector3.

Let part := explodePart boxCenter worldQuaternion rootParentQuaternion position.
Let build := buildExplodeParts boxCenter worldQuaternion rootParentQuaternion position.

Lemma buildExplodeParts_map root :
  build root = map part (List.filter (fun c => isMesh (obj c)) (traverse root)).
Proof.
  unfold build, buildExplodeParts. generalize (traverse root) as l.
  assert (Hgen : forall l acc,
    foldl (fun parts child =>
             if isMesh (obj child)
             then parts ++ [explodePart boxCenter worldQuaternion rootParentQuaternion
                              position child]
             else parts) acc l
    = acc ++ map part (List.filter (fun c => isMesh (obj c)) l)).
  { induction l as [|c l IH]; intros acc; cbn.
    - by rewrite app_nil_r.
    - rewrite IH. destruct (isMesh (obj c)); cbn; [by rewrite <- app_assoc | done]. }
  intros l. apply (Hgen l []).
Qed.

Lemma buildExplodeParts_elem root p :
  p ∈ build root ->
  exists child, child ∈ traverse root /\ isMesh (obj child) = true /\ p = part child.
Proof.
  rewrite buildExplodeParts_map, list_elem_of_In, in_map_iff.
  intros (child & <- & Hin). apply filter_In in Hin as [Hin Hm].
  exists child. by rewrite list_elem_of_In.
Qed.

(** An object has one part. *)
Lemma buildExplodeParts_functional root p1 p2 :
  p1 ∈ build root -> p2 ∈ build root -> object p1 = object p2 -> p1 = p2.
Proof.
  intros H1 H2 Heq.
  apply buildExplodeParts_elem in H1 as (c1 & Hc1 & _ & ->).
  apply buildExplodeParts_elem in H2 as (c2 & Hc2 & _ & ->).
  by rewrite (traverse_functional root c1 c2 Hc1 Hc2 Heq).
Qed.

End BuildFacts.

(** *** The animation *)


Lemma placeParts_snoc parts p t positions :
  placeParts (parts ++ [p]) t positions
  = <[ object p := addScaledVector (originalPos p) (direction p) (t * EXPLODE_DISTANCE) ]>
      (placeParts parts t positions).
Proof. unfold placeParts. by rewrite foldl_app. Qed.

Lemma placeParts_lookup parts t positions p :
  (forall p1 p2, p1 ∈ parts -> p2 ∈ parts -> object p1 = object p2 -> p1 = p2) ->
  p ∈ parts ->
  placeParts parts t positions !! object p
  = Some (addScaledVector (originalPos p) (direction p) (t * EXPLODE_DISTANCE)).
Proof.
  induction parts as [|p' parts IH] using rev_ind; intros Hfun Hin.
  - by apply elem_of_nil in Hin.
  - rewrite placeParts_snoc. destruct (decide (object p' = object p)) as [Heq|Hne].
    + rewrite (Hfun p' p); [by rewrite lookup_insert_eq | | exact Hin | exact Heq].
      apply elem_of_app. right. apply list_elem_of_here.
    + rewrite lookup_insert_ne by exact Hne. apply IH.
      * intros p1 p2 H1 H2. apply Hfun; apply elem_of_app; by left.
      * apply elem_of_app in Hin as [Hin|Hin]; [exact Hin|].
        apply list_elem_of_singleton in Hin. by subst.
Qed.


(** *** The two panels *)

Lemma cadOrientation_unit : unitQuaternion cadOrientation.
Proof.
  unfold unitQuaternion, cadOrientation. cbn.
  pose proof (sqrt_sqrt 2 ltac:(lra)). nra.
Qed.

(** The box of the model is the union of the boxes of the two meshes;
    its longest side is 1, it stands on the ground and its centre is
    over the origin: the state [loadModel] leaves. *)
Lemma panelModel_fitted :
  x (fst (panelBox [])) = Rmin (x (fst (panelBox [0%nat]))) (x (fst (panelBox [1%nat])))
  /\ y (fst (panelBox [])) = Rmin (y (fst (panelBox [0%nat]))) (y (fst (panelBox [1%nat])))
  /\ z (fst (panelBox [])) = Rmin (z (fst (panelBox [0%nat]))) (z (fst (panelBox [1%nat])))
  /\ x (snd (panelBox [])) = Rmax (x (snd (panelBox [0%nat]))) (x (snd (panelBox [1%nat])))
  /\ y (snd (panelBox [])) = Rmax (y (snd (panelBox [0%nat]))) (y (snd (panelBox [1%nat])))
  /\ z (snd (panelBox [])) = Rmax (z (snd (panelBox [0%nat]))) (z (snd (panelBox [1%nat])))
  /\ x (snd (panelBox [])) - x (fst (panelBox [])) = 1
  /\ y (snd (panelBox [])) - y (fst (panelBox [])) <= 1
  /\ z (snd (panelBox [])) - z (fst (panelBox [])) <= 1
  /\ y (fst (panelBox [])) = 0
  /\ x (panelCenter []) = 0 /\ z (panelCenter []) = 0.
Proof.
  unfold panelCenter, centerOf, panelBox. cbn [fst snd x y z].
  unfold Rmin, Rmax. repeat destruct (Rle_dec _ _); repeat split; lra.
Qed.





Lemma panel_worldDirection :
  worldDirection (panelCenter []) (panelCenter [0%nat])
  = {| x := 2 / 3; y := 1 / 3; z := 2 / 3 |}
  /\ worldDirection (panelCenter []) (panelCenter [1%nat])
     = {| x := - (2 / 3); y := 2 / 3; z := - (1 / 3) |}.
Proof.
  unfold worldDirection.
  rewrite !normalize_nonzero by apply clampedOffset_length_nonzero.
  unfold clampedOffset, subVectors, setY, panelCenter, centerOf, panelBox.
  cbn [fst snd x y z]. split.
  - rewrite Rmax_right by lra.
    set (v := {| x := _; y := 5 / 100; z := _ |}).
    assert (Hl : length v = 3 / 20).
    { unfold length, v. cbn [x y z]. apply sqrt_lem_1; lra. }
    rewrite Hl. unfold divideScalar, multiplyScalar, v. cbn [x y z]. f_equal; lra.
  - rewrite Rmax_left by lra.
    set (v := {| x := _; y := _; z := _ |}).
    assert (Hl : length v = 3 / 10).
    { unfold length, v. cbn [x y z]. apply sqrt_lem_1; lra. }
    rewrite Hl. unfold divideScalar, multiplyScalar, v. cbn [x y z]. f_equal; lra.
Qed.

Lemma panelParts_eq :
  panelParts
  = [ {| object := [0%nat]; originalPos := origin;
         direction := {| x := 2 / 3; y := - (2 / 3); z := 1 / 3 |} |};
      {| object := [1%nat]; originalPos := origin;
         direction := {| x := - (2 / 3); y := 1 / 3; z := 2 / 3 |} |} ].
Proof.
  unfold panelParts. rewrite buildExplodeParts_map.
  replace (List.filter _ (traverse panelModel))
    with [ {| ref := [0%nat]; obj := Obj "ANGL-PAR-OSH-001_REV-G" true (Some 0%nat) [] |};
           {| ref := [1%nat]; obj := Obj "ANGL-PAR-OSH-002_REV-G" true (Some 1%nat) [] |} ]
    by reflexivity.
  cbn [map]. unfold explodePart, parentQuaternion. cbn [ref].
  destruct panel_worldDirection as [-> ->].
  unfold applyQuaternion, invert, cadOrientation. cbn [x y z qx qy qz qw].
  pose proof (sqrt_sqrt 2 ltac:(lra)) as Hs.
  repeat f_equal; nra.
Qed.




(** *** Degenerate and non-finite centres *)





End Explode.

(** ** Keyboard *)

Module Keyboard.
Import SceneGraph Hotspots.
Local Open Scope R_scope.

Definition viewList : list string := ["Front"; "Right"; "Rear"; "Left"; "Isometric"].

(** [viewAngles[name]]: [undefined] for any other name. *)
Definition viewAngles (name : string) : option R :=
  if String.eqb name "Front" then Some 0
  else if String.eqb name "Right" then Some (- PI / 3)
  else if String.eqb name "Rear" then Some PI
  else if String.eqb name "Left" then Some (PI / 3)
  else if String.eqb name "Isometric" then Some (PI / 4)
  else None.

Definition ISO_ELEVATION : R := 55 / 100.
Definition DEFAULT_ELEVATION : R := 15 / 100.
Definition FRUSTUM_DEFAULT : R := 22 / 10.

Record Camera := {
  viewIndex : Z;
  targetAzimuth : R;
  targetElevation : R;
  zoomed : bool;
  targetFrustum : R;
  targetOrbitY : R }.

Record State := {
  camera : Camera;
  exploded : bool;
  hotspotInstances : list HotspotInstance }.

(** [viewList.indexOf(name)]. *)
Definition indexOf (name : string) : Z :=
  match list_find (fun v => v = name) viewList with
  | Some (i, _) => Z.of_nat i
  | None => -1
  end.

(** [viewList[i]]. *)
Definition viewAt (i : Z) : option string :=
  if (0 <=? i)%Z then viewList !! Z.to_nat i else None.

Definition withViewIndex (c : Camera) (i : Z) : Camera :=
  {| viewIndex := i; targetAzimuth := targetAzimuth c;
     targetElevation := targetElevation c; zoomed := zoomed c;
     targetFrustum := targetFrustum c; targetOrbitY := targetOrbitY c |}.

(** [setView(name)]; nothing happens for [undefined] or an unknown name. *)
Definition setView (name : option string) (c : Camera) : Camera :=
  match name with
  | Some name =>
      match viewAngles name with
      | Some a =>
          {| viewIndex := indexOf name; targetAzimuth := a;
             targetElevation :=
               if String.eqb name "Isometric" then ISO_ELEVATION else DEFAULT_ELEVATION;
             zoomed := zoomed c; targetFrustum := targetFrustum c;
             targetOrbitY := targetOrbitY c |}
      | None => c
      end
  | None => c
  end.

Section Model.

(** The height of the model's bounding box and the height of its centre. *)
Variables modelHeight modelCenterY : R.

Definition FRUSTUM_ZOOMED_CALC : R := modelHeight / (95 / 100).

Definition toggleZoom (c : Camera) : Camera :=
  let zoomed' := negb (zoomed c) in
  {| viewIndex := viewIndex c; targetAzimuth := targetAzimuth c;
     targetElevation := targetElevation c; zoomed := zoomed';
     targetFrustum := if zoomed' then FRUSTUM_ZOOMED_CALC else FRUSTUM_DEFAULT;
     targetOrbitY := if zoomed' then modelCenterY else modelCenterY |}.

Definition withCamera (st : State) (c : Camera) : State :=
  {| camera := c; exploded := exploded st; hotspotInstances := hotspotInstances st |}.

Definition isKey (key : string) (names : list string) : bool :=
  existsb (String.eqb key) names.

(** The [keydown] listener of the window. *)
Definition keydown (key : string) (st : State) : State :=
  let n := Z.of_nat (List.length viewList) in
  if isKey key ["ArrowRight"] then
    let i := Z.rem (viewIndex (camera st) + 1) n in
    withCamera st (setView (viewAt i) (withViewIndex (camera st) i))
  else if isKey key ["ArrowLeft"] then
    let i := Z.rem (viewIndex (camera st) - 1 + n) n in
    withCamera st (setView (viewAt i) (withViewIndex (camera st) i))
  else if isKey key ["z"; "Z"; "ArrowUp"; "ArrowDown"] then
    withCamera st (toggleZoom (camera st))
  else if isKey key ["e"; "E"] then
    let exploded' := negb (exploded st) in
    {| camera := camera st; exploded := exploded';
       hotspotInstances := map (fun inst => setOpen inst exploded') (hotspotInstances st) |}
  else st.

End Model.

(** Two cards, the first opened by a click on its marker; the key 'e'
    opens both, and a second 'e' closes both. *)
Definition twoCards : State :=
  {| camera := {| viewIndex := 0; targetAzimuth := 0;
                  targetElevation := DEFAULT_ELEVATION; zoomed := false;
                  targetFrustum := FRUSTUM_DEFAULT; targetOrbitY := 0 |};
     exploded := false;
     hotspotInstances :=
       markerClick gpuHotspot
         [ newInstance gpuHotspot
             {| ref := [0; 1]%nat; obj := Obj "RTX 5090" true (Some 1%nat) [] |};
           newInstance {| match_ := "DDR5 module"; title := "MEMORY"; desc := "DDR5 module" |}
             {| ref := [2]%nat; obj := Obj "DDR5 module" true (Some 2%nat) [] |} ] |}.


(** C10.  The key 'e' or 'E' flips [exploded] and gives every hotspot
    instance the new value as its [open] flag and as the presence of the
    ['visible'] class of its card, whatever these were before, for
    instance after clicks on markers; the anchors, the descriptors and
    the camera are untouched.  So entering exploded mode opens all cards
    and leaving it closes them all. *)
Theorem explode_key_overwrites_hotspot_open
    (modelHeight modelCenterY : R) (key : string) (st : State) :
  key = "e"%string \/ key = "E"%string ->
  let st' := keydown modelHeight modelCenterY key st in
  exploded st' = negb (exploded st)
  /\ camera st' = camera st
  /\ List.length (hotspotInstances st') = List.length (hotspotInstances st)
  /\ (forall i inst, hotspotInstances st !! i = Some inst ->
        exists inst',
          hotspotInstances st' !! i = Some inst'
          /\ data inst' = data inst /\ object inst' = object inst
          /\ open inst' = exploded st'
          /\ tagVisible inst' = exploded st')
  /\ (forall inst', inst' ∈ hotspotInstances st' ->
        open inst' = negb (exploded st) /\ tagVisible inst' = negb (exploded st)).
Proof.
  intros Hkey st'.
  assert (Hst' : st' = {| camera := camera st; exploded := negb (exploded st);
                          hotspotInstances :=
                            map (fun inst => setOpen inst (negb (exploded st)))
                                (hotspotInstances st) |}).
  { unfold st'. by destruct Hkey as [-> | ->]. }
  rewrite Hst'. cbn [exploded camera hotspotInstances].
  split; [done|]. split; [done|]. split; [apply length_map|]. split.
  - intros i inst Hi. exists (setOpen inst (negb (exploded st))).
    split; [|done]. by rewrite list_lookup_fmap, Hi.
  - intros inst' Hin. apply list_elem_of_fmap in Hin as (inst & -> & _). done.
Qed.

Lemma explode_key_on_two_cards :
  map open (hotspotInstances twoCards) = [true; false]
  /\ exploded (keydown 1 0 "e" twoCards) = true
  /\ map open (hotspotInstances (keydown 1 0 "e" twoCards)) = [true; true]
  /\ map open (hotspotInstances (keydown 1 0 "E" (keydown 1 0 "e" twoCards)))
     = [false; false].
Proof.
  pose proof (explode_key_overwrites_hotspot_open 1 0 "e" twoCards (or_introl eq_refl))
    as (He & _).
  split; [reflexivity|]. split; [exact He|]. split; reflexivity.
Defined.

End Keyboard.

(** ** Ownership of meshes: [findOwner], [collectMeshes] and clicks *)

Module PartOwnership.
Import SceneGraph Toggle.

(** The materials written by [setGroupEmissive(objects, ...)]: those of
    the meshes at or below the objects. *)
Definition materialsOf (objects : list Node) : gset nat :=
  list_to_set
    (omap (fun c => if isMesh (obj c) then material (obj c) else None)
          (flat_map traverseNode objects)).

(** What the emissive store says of the highlight: the highlighted
    materials are exactly those of the hovered group. *)
Definition highlightMatchesHover (toggleMap : ToggleMap) (s : State) : Prop :=
  (forall m, emissive s !! m = Some highlightEmissive ->
     exists g, hoveredGroup s = Some g /\ m ∈ materialsOf (groupObjects toggleMap g))
  /\ (forall g m, hoveredGroup s = Some g -> m ∈ materialsOf (groupObjects toggleMap g) ->
        emissive s !! m = Some highlightEmissive).

(** *** [findOwner] *)

Lemma find_ref_Some (r : Ref) candidates c :
  find (fun c => bool_decide (ref c = r)) candidates = Some c ->
  c ∈ candidates /\ ref c = r.
Proof.
  intros Hf. apply find_some in Hf as [Hin Hr].
  split; [by apply list_elem_of_In | by apply bool_decide_eq_true in Hr].
Qed.

Lemma find_ref_None (r : Ref) candidates c :
  find (fun c => bool_decide (ref c = r)) candidates = None ->
  c ∈ candidates -> ref c <> r.
Proof.
  intros Hf Hin Hr. apply list_elem_of_In in Hin.
  pose proof (find_none _ _ Hf c Hin) as Hb. cbn in Hb.
  by apply bool_decide_eq_false in Hb.
Qed.

Lemma suffix_of_cons {A} (l l2 : list A) (y : A) :
  l `suffix_of` y :: l2 -> l = y :: l2 \/ l `suffix_of` l2.
Proof.
  intros [k Hk]. destruct k as [|x k]; [by left|].
  right. injection Hk as -> ->. by exists k.
Qed.

Lemma findOwner_Some mesh candidates c :
  findOwner mesh candidates = Some c ->
  c ∈ candidates /\ ref c `suffix_of` mesh
  /\ (forall c', c' ∈ candidates -> ref c' `suffix_of` mesh -> ref c' `suffix_of` ref c)
  /\ find (fun c' => bool_decide (ref c' = ref c)) candidates = Some c.
Proof.
  induction mesh as [|i parent IH]; intros H; cbn in H.
  - destruct (find (fun c0 => bool_decide (ref c0 = [])) candidates) as [c0|] eqn:Hf;
      [|done].
    injection H as <-. destruct (find_ref_Some _ _ _ Hf) as [Hin Hr].
    rewrite Hr. split; [done|]. split; [done|]. split; [|done]. by intros c' _ Hs.
  - destruct (find (fun c0 => bool_decide (ref c0 = i :: parent)) candidates)
      as [c0|] eqn:Hf.
    + injection H as <-. destruct (find_ref_Some _ _ _ Hf) as [Hin Hr].
      rewrite Hr. split; [done|]. split; [done|]. split; [|done]. by intros c' _ Hs.
    + destruct (IH H) as (Hin & Hs & Hnear & Hfirst).
      split; [done|]. split; [by apply suffix_cons_r|]. split; [|done].
      intros c' Hc' Hs'. apply suffix_of_cons in Hs' as [Heq|Hs'].
      * by destruct (find_ref_None _ _ _ Hf Hc').
      * by apply Hnear.
Qed.

Lemma findOwner_None mesh candidates c :
  findOwner mesh candidates = None -> c ∈ candidates -> ~ ref c `suffix_of` mesh.
Proof.
  induction mesh as [|i parent IH]; intros H Hin Hs; cbn in H.
  - destruct (find (fun c0 => bool_decide (ref c0 = [])) candidates) as [c0|] eqn:Hf;
      [done|].
    apply suffix_nil_inv in Hs. by destruct (find_ref_None _ _ _ Hf Hin).
  - destruct (find (fun c0 => bool_decide (ref c0 = i :: parent)) candidates)
      as [c0|] eqn:Hf; [done|].
    apply suffix_of_cons in Hs as [Heq|Hs].
    + by destruct (find_ref_None _ _ _ Hf Hin).
    + by apply (IH H Hin).
Qed.

(** [findOwner] finds the nearest owner.  When it returns an object, that
    object is a candidate, it is the mesh itself or one of its
    ancestors, every other candidate at or above the mesh is at or above
    the object returned, and among candidates that are the same object it
    is the first.  When it returns nothing, no candidate is the mesh or
    an ancestor of it. *)
Theorem findOwner_nearest_owner (mesh : Ref) (candidates : list Node) :
  match findOwner mesh candidates with
  | Some c =>
      c ∈ candidates /\ ref c `suffix_of` mesh
      /\ (forall c', c' ∈ candidates -> ref c' `suffix_of` mesh ->
            ref c' `suffix_of` ref c)
      /\ find (fun c' => bool_decide (ref c' = ref c)) candidates = Some c
  | None => forall c', c' ∈ candidates -> ~ ref c' `suffix_of` mesh
  end.
Proof.
  destruct (findOwner mesh candidates) as [c|] eqn:Hf.
  - by apply findOwner_Some.
  - intros c'. by apply findOwner_None.
Qed.

(** *** [collectMeshes] *)

Lemma collectMeshes_flat objects :
  collectMeshes objects
  = flat_map (fun o => List.filter (fun c => isMesh (obj c)) (traverseNode o)) objects.
Proof.
  unfold collectMeshes.
  assert (Hgen : forall acc,
    foldl (fun meshes o =>
             foldl (fun meshes c => if isMesh (obj c) then meshes ++ [c] else meshes)
                   meshes (traverseNode o)) acc objects
    = acc ++ flat_map (fun o => List.filter (fun c => isMesh (obj c)) (traverseNode o))
               objects).
  { induction objects as [|o objects IH]; intros acc; cbn.
    - by rewrite app_nil_r.
    - rewrite IH, (foldl_push_filter (fun c => isMesh (obj c))). by rewrite <- app_assoc. }
  apply (Hgen []).
Qed.

Lemma elem_of_collectMeshes m objects :
  m ∈ collectMeshes objects <->
  exists o, o ∈ objects /\ m ∈ traverseNode o /\ isMesh (obj m) = true.
Proof.
  rewrite collectMeshes_flat, list_elem_of_In, in_flat_map. split.
  - intros (o & Ho & Hm). apply filter_In in Hm as [Hm Hmesh].
    exists o. by rewrite !list_elem_of_In.
  - intros (o & Ho & Hm & Hmesh). exists o. rewrite filter_In, <- !list_elem_of_In. auto.
Qed.

Lemma traverseNode_suffix m o : m ∈ traverseNode o -> ref o `suffix_of` ref m.
Proof.
  intros Hm. apply traverseAt_descend in Hm as (path & Hr & _).
  rewrite Hr. by exists (rev path).
Qed.

Lemma findOwner_of_collected hit objects :
  hit ∈ ref <$> collectMeshes objects -> findOwner hit objects <> None.
Proof.
  intros Hin Hnone. apply list_elem_of_fmap in Hin as (m & -> & Hm).
  apply elem_of_collectMeshes in Hm as (o & Ho & Hm & _).
  by apply (findOwner_None _ _ o Hnone Ho), traverseNode_suffix.
Qed.

Lemma findOwner_app_None mesh l1 l2 :
  findOwner mesh l1 = None -> findOwner mesh l2 = None -> findOwner mesh (l1 ++ l2) = None.
Proof.
  intros H1 H2. destruct (findOwner mesh (l1 ++ l2)) as [c|] eqn:Hf; [|done].
  apply findOwner_Some in Hf as (Hin & Hs & _).
  apply elem_of_app in Hin as [Hin|Hin].
  - by destruct (findOwner_None _ _ c H1 Hin).
  - by destruct (findOwner_None _ _ c H2 Hin).
Qed.

Lemma collectMeshes_filter_subset (p : Node -> bool) objects m :
  m ∈ collectMeshes (List.filter p objects) -> m ∈ collectMeshes objects.
Proof.
  rewrite !elem_of_collectMeshes. intros (o & Ho & Hm).
  exists o. split; [|done].
  apply list_elem_of_In in Ho. apply filter_In in Ho as [Ho _]. by apply list_elem_of_In.
Qed.

(** Every mesh handed to the ray caster is a mesh at or below one of the
    objects it was collected from, so a click whose nearest hit is one
    of the meshes tested is always handled, and a pointer move whose
    nearest hit is one of the meshes tested always ends with a hovered
    group. *)
Theorem hit_on_tested_mesh_has_owner
    (toggleMap : ToggleMap) (Ray : Type)
    (intersectObjects : Ray -> gset Ref -> list Node -> list Ref)
    (ray : Ray) (s : State) :
  (forall m objects, m ∈ collectMeshes objects ->
     isMesh (obj m) = true /\ exists o, o ∈ objects /\ ref o `suffix_of` ref m)
  /\ (forall hit rest,
        clickHits toggleMap Ray intersectObjects ray s = hit :: rest ->
        hit ∈ ref <$> collectMeshes (allToggleable toggleMap) ->
        fst (tryTogglePart toggleMap Ray intersectObjects ray s) = true)
  /\ (forall hit rest,
        hoverHits toggleMap Ray intersectObjects ray s = hit :: rest ->
        hit ∈ ref <$> collectMeshes
                (List.filter (fun p => visible (hidden s) (ref p))
                   (allToggleable toggleMap)) ->
        hoveredGroup (mousemove toggleMap Ray intersectObjects ray s) <> None).
Proof.
  split; [|split].
  - intros m objects Hm. apply elem_of_collectMeshes in Hm as (o & Ho & Hm & Hmesh).
    split; [done|]. exists o. split; [done | by apply traverseNode_suffix].
  - intros hit rest Hhits Hin. rewrite tryTogglePart_toggleHit, Hhits.
    apply findOwner_of_collected in Hin. unfold toggleHit.
    destruct (findOwner hit (individuals toggleMap)) eqn:Hi; [done|].
    destruct (findOwner hit (groupMembers toggleMap)) eqn:Hg; [done|].
    by destruct Hin; apply findOwner_app_None.
  - intros hit rest Hhits Hin.
    assert (Hown : findOwner hit (allToggleable toggleMap) <> None).
    { apply findOwner_of_collected. apply list_elem_of_fmap in Hin as (m & -> & Hm).
      apply list_elem_of_fmap. exists m. split; [done|].
      by apply collectMeshes_filter_subset in Hm. }
    unfold mousemove. unfold hoverHits in Hhits. rewrite Hhits.
    assert (Hnew : getToggleGroup toggleMap hit <> None).
    { unfold getToggleGroup.
      destruct (findOwner hit (individuals toggleMap)) eqn:Hi; [done|].
      destruct (findOwner hit (groupMembers toggleMap)) eqn:Hg; [done|].
      by destruct Hown; apply findOwner_app_None. }
    destruct (getToggleGroup toggleMap hit) as [g|]; [|done].
    destruct (negb (sameArray (Some g) (hoveredGroup s))) eqn:Hsame; cbn; [done|].
    destruct g, (hoveredGroup s) as [[]|]; cbn in Hsame; done.
Qed.

(** On the small model a click on the second group member is handled. *)
Lemma hit_on_tested_mesh_has_owner_case :
  fst (tryTogglePart (buildToggleMap caseModel) (option Ref) pointAt (Some [2%nat])
         (initialState ∅)) = true.
Proof.
  apply (proj1 (proj2 (hit_on_tested_mesh_has_owner (buildToggleMap caseModel)
                         (option Ref) pointAt (Some [2%nat]) (initialState ∅)))
           [2%nat] []).
  - reflexivity.
  - vm_compute. do 2 apply list_elem_of_further. apply list_elem_of_here.
Defined.

(** *** Two clicks *)

Lemma groupUniform_hidden toggleMap h g r :
  groupUniform toggleMap h -> g ∈ groupMembers toggleMap ->
  r ∈ refsOf (groupMembers toggleMap) -> (r ∈ h <-> ref g ∈ h).
Proof.
  intros Hu Hg Hr. apply elem_of_refsOf in Hr as (m & Hm & <-).
  specialize (Hu m g Hm Hg). rewrite <- !visible_false.
  by rewrite Hu.
Qed.

Lemma tryTogglePart_twice_group (toggleMap : ToggleMap) (Ray : Type)
    (intersectObjects : Ray -> gset Ref -> list Node -> list Ref)
    (ray : Ray) (s : State) (hit : Ref) (rest : list Ref) (g : Node) :
  clickHits toggleMap Ray intersectObjects ray s = hit :: rest ->
  findOwner hit (individuals toggleMap) = None ->
  findOwner hit (groupMembers toggleMap) = Some g ->
  groupUniform toggleMap (hidden s) ->
  hidden (snd (tryTogglePart toggleMap Ray intersectObjects ray
                 (snd (tryTogglePart toggleMap Ray intersectObjects ray s))))
  = hidden s.
Proof.
  intros Hhits Ho Hg Hu. rewrite (tryTogglePart_toggleHit _ _ _ ray s), Hhits.
  set (s1 := snd (toggleHit toggleMap (hit :: rest) s)).
  pose proof (findOwner_elem _ _ _ Hg) as Hgin.
  assert (Hs1 : hidden s1
                = foldl (fun h m => setVisible (ref m) (negb (visible (hidden s) (ref g))) h)
                    (hidden s) (groupMembers toggleMap)).
  { unfold s1, toggleHit. rewrite Ho, Hg. cbn. by rewrite hidden_clearHighlight. }
  assert (Hsame : clickHits toggleMap Ray intersectObjects ray s1 = hit :: rest).
  { rewrite <- Hhits. unfold clickHits. f_equal. rewrite Hs1, setVisible_all.
    unfold allToggleable. rewrite refsOf_app.
    destruct (negb _); set_solver. }
  rewrite tryTogglePart_toggleHit, Hsame. unfold toggleHit. rewrite Ho, Hg. cbn.
  rewrite hidden_clearHighlight. cbn.
  assert (Hvis : visible (hidden s1) (ref g) = negb (visible (hidden s) (ref g)))
    by (rewrite Hs1; by apply visible_group_all).
  rewrite Hvis, negb_involutive, Hs1, !setVisible_all.
  pose proof (groupUniform_hidden toggleMap (hidden s) g) as Hiff.
  destruct (visible (hidden s) (ref g)) eqn:Hv; cbn.
  - apply visible_true in Hv. apply set_eq. intros r.
    rewrite elem_of_difference, elem_of_union.
    destruct (decide (r ∈ refsOf (groupMembers toggleMap))) as [Hr|Hr]; [|tauto].
    pose proof (Hiff r Hu Hgin Hr). tauto.
  - apply visible_false in Hv. apply set_eq. intros r.
    rewrite elem_of_union, elem_of_difference.
    destruct (decide (r ∈ refsOf (groupMembers toggleMap))) as [Hr|Hr]; [|tauto].
    pose proof (Hiff r Hu Hgin Hr). tauto.
Qed.

(** Two clicks with the same ray give back the visibility of before the
    first: always when the nearest hit belongs to an individual part,
    and when it belongs to the group provided the group members agreed
    on their visibility before the first click. *)
Theorem two_clicks_restore_visibility
    (toggleMap : ToggleMap) (Ray : Type)
    (intersectObjects : Ray -> gset Ref -> list Node -> list Ref)
    (ray : Ray) (s : State) (hit : Ref) (rest : list Ref) :
  clickHits toggleMap Ray intersectObjects ray s = hit :: rest ->
  (findOwner hit (individuals toggleMap) <> None
   \/ (findOwner hit (groupMembers toggleMap) <> None
       /\ groupUniform toggleMap (hidden s))) ->
  hidden (snd (tryTogglePart toggleMap Ray intersectObjects ray
                 (snd (tryTogglePart toggleMap Ray intersectObjects ray s))))
  = hidden s.
Proof.
  intros Hhits Hcase.
  destruct (findOwner hit (individuals toggleMap)) as [o|] eqn:Ho.
  - by apply (tryTogglePart_twice_individual _ _ _ ray s hit rest o).
  - destruct Hcase as [?|[Hg Hu]]; [done|].
    destruct (findOwner hit (groupMembers toggleMap)) as [g|] eqn:Hgo; [|done].
    by apply (tryTogglePart_twice_group _ _ _ ray s hit rest g).
Qed.

(** On the small model two clicks on a group member leave everything
    visible. *)
Lemma two_clicks_restore_visibility_case :
  hidden (snd (tryTogglePart (buildToggleMap caseModel) (option Ref) pointAt
                 (Some [1%nat])
                 (snd (tryTogglePart (buildToggleMap caseModel) (option Ref) pointAt
                         (Some [1%nat]) (initialState ∅)))))
  = ∅.
Proof.
  apply (two_clicks_restore_visibility (buildToggleMap caseModel) (option Ref) pointAt
           (Some [1%nat]) (initialState ∅) [1%nat] []).
  - reflexivity.
  - right. split; [by vm_compute|]. intros m1 m2 _ _. reflexivity.
Defined.

(** *** The classification of a model *)

(** [buildToggleMap] splits the objects of the model whose non-empty name
    contains "Solid2", in traversal order: those named exactly "Solid2"
    or with ".001" in the name are individuals, all others are group
    members.  No object is in both lists, and an object outside the
    model or with another name is in neither. *)
Theorem buildToggleMap_partitions (root : Object3D) :
  individuals (buildToggleMap root)
  = List.filter (fun n => isSolid2 n && isIndividual n) (traverse root)
  /\ groupMembers (buildToggleMap root)
     = List.filter (fun n => isSolid2 n && negb (isIndividual n)) (traverse root)
  /\ (forall o m, o ∈ individuals (buildToggleMap root) ->
        m ∈ groupMembers (buildToggleMap root) -> ref o <> ref m)
  /\ (forall n, n ∈ allToggleable (buildToggleMap root) <->
        n ∈ traverse root /\ name (obj n) <> ""%string
        /\ exists before after,
             name (obj n) = (before +:+ "Solid2" +:+ after)%string).
Proof.
  destruct (buildToggleMap_spec root) as [Hi Hg].
  assert (Hff : forall (p q : Node -> bool) l,
            List.filter q (List.filter p l) = List.filter (fun n => p n && q n) l).
  { intros p q l. induction l as [|n l IH]; cbn; [done|].
    destruct (p n); cbn; [destruct (q n); by rewrite IH | exact IH]. }
  split; [by rewrite Hi, Hff|]. split; [by rewrite Hg, Hff|].
  split; [apply buildToggleMap_disjoint|].
  intros n. unfold allToggleable. rewrite elem_of_app, Hi, Hg.
  rewrite !list_elem_of_In, !filter_In, <- !list_elem_of_In.
  unfold isSolid2. rewrite andb_true_iff, includes_spec.
  assert (Ht : truthy (name (obj n)) = true <-> name (obj n) <> ""%string)
    by (destruct (name (obj n)); cbn; split; done).
  rewrite Ht. destruct (isIndividual n); cbn; tauto.
Qed.

(** *** The highlight *)

Lemma setGroupEmissive_flat objects color em :
  setGroupEmissive objects color em
  = foldl (fun em c =>
             match isMesh (obj c), material (obj c) with
             | true, Some m => <[ m := color ]> em
             | _, _ => em
             end)
          em (flat_map traverseNode objects).
Proof.
  unfold setGroupEmissive. revert em.
  induction objects as [|o objects IH]; intros em; cbn; [done|].
  by rewrite foldl_app, IH.
Qed.

(** [setGroupEmissive] writes the colour to the materials of the meshes
    at or below the objects and to no other material. *)
Lemma setGroupEmissive_lookup objects color em m :
  setGroupEmissive objects color em !! m
  = if decide (m ∈ materialsOf objects) then Some color else em !! m.
Proof.
  rewrite setGroupEmissive_flat. unfold materialsOf.
  generalize (flat_map traverseNode objects) as l. intros l. revert em.
  induction l as [|c l IH]; intros em; cbn.
  - case_decide as Hin; [|done]. by apply not_elem_of_empty in Hin.
  - rewrite IH. destruct (isMesh (obj c)), (material (obj c)) as [m'|]; cbn;
      try (repeat case_decide; done).
    destruct (decide (m = m')) as [->|Hne].
    + rewrite lookup_insert_eq. repeat case_decide; set_solver.
    + rewrite lookup_insert_ne by done. repeat case_decide; set_solver.
Qed.

Lemma highlight_ne_default : highlightEmissive <> defaultEmissive.
Proof. done. Qed.

Lemma clearHighlight_matches toggleMap s :
  highlightMatchesHover toggleMap s ->
  highlightMatchesHover toggleMap (clearHighlight toggleMap s).
Proof.
  intros Hinv. unfold clearHighlight.
  destruct (hoveredGroup s) as [g0|] eqn:Hh; [|exact Hinv].
  destruct Hinv as [Honly Hall].
  split; cbn; [|done]. intros m. rewrite setGroupEmissive_lookup.
  case_decide as Hin; [done|]. intros Hm.
  destruct (Honly m Hm) as (g & Hg & Hmat). congruence.
Qed.

Lemma withHidden_matches toggleMap s h :
  highlightMatchesHover toggleMap s -> highlightMatchesHover toggleMap (withHidden s h).
Proof. done. Qed.

Lemma toggleHit_matches toggleMap hits s :
  highlightMatchesHover toggleMap s ->
  highlightMatchesHover toggleMap (snd (toggleHit toggleMap hits s)).
Proof.
  intros Hinv. unfold toggleHit. destruct hits as [|hit rest]; [done|].
  destruct (findOwner hit (individuals toggleMap)).
  - cbn. by apply clearHighlight_matches, withHidden_matches.
  - destruct (findOwner hit (groupMembers toggleMap)); [|done].
    cbn. by apply clearHighlight_matches, withHidden_matches.
Qed.

Lemma mousemove_matches (toggleMap : ToggleMap) (Ray : Type)
    (intersectObjects : Ray -> gset Ref -> list Node -> list Ref)
    (ray : Ray) (s : State) :
  highlightMatchesHover toggleMap s ->
  highlightMatchesHover toggleMap (mousemove toggleMap Ray intersectObjects ray s).
Proof.
  intros [Honly Hall]. unfold mousemove.
  set (newGroup := match intersectObjects ray _ _ with
                   | [] => None
                   | hit :: _ => getToggleGroup toggleMap hit
                   end).
  destruct (negb (sameArray newGroup (hoveredGroup s))); [|by split].
  assert (Hold : forall m,
    match hoveredGroup s with
    | Some g => setGroupEmissive (groupObjects toggleMap g) defaultEmissive (emissive s)
    | None => emissive s
    end !! m <> Some highlightEmissive).
  { intros m. destruct (hoveredGroup s) as [g0|] eqn:Hh; intros Hm.
    - rewrite setGroupEmissive_lookup in Hm. case_decide as Hin; [done|].
      destruct (Honly m Hm) as (g & Hg & Hmat). congruence.
    - destruct (Honly m Hm) as (g & Hg & _). congruence. }
  destruct newGroup as [g'|]; split; cbn.
  - intros m. rewrite setGroupEmissive_lookup. case_decide as Hin.
    + intros _. by exists g'.
    + intros Hm. by destruct (Hold m).
  - intros g m [= <-] Hm. rewrite setGroupEmissive_lookup. by rewrite decide_True.
  - intros m Hm. by destruct (Hold m).
  - done.
Qed.

(** Hover highlighting is exclusive.  From a freshly loaded model none
    of whose materials has the highlight colour, after any sequence of
    pointer moves and clicks the materials with the highlight colour are
    exactly the materials of the meshes of the hovered group: none when
    nothing is hovered. *)
Theorem highlight_only_on_hovered_group
    (toggleMap : ToggleMap) (Ray : Type)
    (intersectObjects : Ray -> gset Ref -> list Node -> list Ref)
    (events : list (Event Ray)) (em : gmap nat N) :
  (forall m, em !! m <> Some highlightEmissive) ->
  highlightMatchesHover toggleMap
    (run toggleMap Ray intersectObjects events (initialState em)).
Proof.
  intros Hem.
  assert (Hgen : forall s, highlightMatchesHover toggleMap s ->
            highlightMatchesHover toggleMap (run toggleMap Ray intersectObjects events s)).
  { unfold run. induction events as [|e events IH]; intros s Hs; [done|].
    cbn. apply IH. destruct e as [ray|ray]; cbn.
    - by apply mousemove_matches.
    - rewrite tryTogglePart_toggleHit. by apply toggleHit_matches. }
  apply Hgen. split; cbn; [|done]. intros m Hm. by destruct (Hem m).
Qed.

(** On the small model: hover the individual part, then a group member;
    only the two materials of the group are highlighted. *)
Lemma highlight_only_on_hovered_group_case :
  let s := run (buildToggleMap caseModel) (option Ref) pointAt
             [MouseMove _ (Some [0%nat]); MouseMove _ (Some [1%nat])] (initialState ∅) in
  highlightMatchesHover (buildToggleMap caseModel) s
  /\ emissive s !! 0%nat = Some defaultEmissive
  /\ emissive s !! 1%nat = Some highlightEmissive
  /\ emissive s !! 2%nat = Some highlightEmissive.
Proof.
  intros s. split; [|by vm_compute].
  apply (highlight_only_on_hovered_group (buildToggleMap caseModel) (option Ref) pointAt
           [MouseMove _ (Some [0%nat]); MouseMove _ (Some [1%nat])] ∅).
  intros m. by rewrite lookup_empty.
Defined.

End PartOwnership.

(** ** Hotspot cards: ray selection, and the card that follows its flag *)

Module HotspotEvents.
Import SceneGraph Hotspots.

(** The loop of [tryShowHotspot]: walk up from the object hit until an
    instance is anchored at the object reached; the index of that
    instance. *)
Fixpoint matchInstance (hitObj : Ref) (instances : list HotspotInstance) : option nat :=
  match list_find (fun h => ref (object h) = hitObj) instances with
  | Some (i, _) => Some i
  | None =>
      match hitObj with
      | [] => None
      | _ :: parent => matchInstance parent instances
      end
  end.

Definition flipOpen (inst : HotspotInstance) : HotspotInstance :=
  setOpen inst (negb (open inst)).

Section Raycast.

(** The ray caster of [tryShowHotspot]: for the ray of the event and the
    meshes handed over, the objects hit, nearest first. *)
Variable Ray : Type.
Variable intersectObjects : Ray -> list Node -> list Ref.

Definition allMeshes (model : Object3D) : list Node :=
  foldl (fun acc c => if isMesh (obj c) then acc ++ [c] else acc) [] (traverse model).

(** [tryShowHotspot(event)]. *)
Definition tryShowHotspot (currentModel : option Object3D) (ray : Ray)
    (instances : list HotspotInstance) : bool * list HotspotInstance :=
  match currentModel with
  | None => (false, instances)
  | Some model =>
      match intersectObjects ray (allMeshes model) with
      | [] => (false, instances)
      | hit :: _ =>
          match matchInstance hit instances with
          | None => (false, instances)
          | Some i => (true, alter flipOpen i instances)
          end
      end
  end.

(** What can happen to the cards: a click on the marker of a descriptor,
    a ray selection, a key, or a frame with its window size and
    projection. *)
Inductive CardEvent :=
  | MarkerClick (hs : Hotspot)
  | RaySelect (currentModel : option Object3D) (ray : Ray)
  | KeyDown (key : string)
  | FrameUpdate (innerWidth innerHeight : Q) (project : Node -> Q * Q * Q).

Definition withInstances (st : Keyboard.State) (instances : list HotspotInstance)
    : Keyboard.State :=
  {| Keyboard.camera := Keyboard.camera st;
     Keyboard.exploded := Keyboard.exploded st;
     Keyboard.hotspotInstances := instances |}.

Definition cardStep (modelHeight modelCenterY : R) (st : Keyboard.State) (e : CardEvent)
    : Keyboard.State :=
  match e with
  | MarkerClick hs =>
      withInstances st (markerClick hs (Keyboard.hotspotInstances st))
  | RaySelect currentModel ray =>
      withInstances st
        (snd (tryShowHotspot currentModel ray (Keyboard.hotspotInstances st)))
  | KeyDown key => Keyboard.keydown modelHeight modelCenterY key st
  | FrameUpdate w h project =>
      withInstances st (updateHotspotPositions w h project (Keyboard.hotspotInstances st))
  end.

(** A frame in which no anchor is behind the camera. *)
Definition inFront (e : CardEvent) : Prop :=
  match e with
  | FrameUpdate _ _ project => forall n, (snd (project n) <= 1)%Q
  | _ => True
  end.

End Raycast.

(** The card shows exactly when the flag says open. *)
Definition synced (inst : HotspotInstance) : Prop := tagVisible inst = open inst.

(** *** [tryShowHotspot] *)

Lemma matchInstance_Some hit instances i :
  matchInstance hit instances = Some i ->
  exists inst,
    instances !! i = Some inst
    /\ ref (object inst) `suffix_of` hit
    /\ (forall inst', inst' ∈ instances -> ref (object inst') `suffix_of` hit ->
          ref (object inst') `suffix_of` ref (object inst))
    /\ (forall j inst', instances !! j = Some inst' -> (j < i)%nat ->
          ref (object inst') <> ref (object inst)).
Proof.
  induction hit as [|k parent IH]; intros H; cbn in H.
  - destruct (list_find (fun h => ref (object h) = []) instances) as [[i0 inst]|] eqn:Hf;
      [|done].
    injection H as <-. apply list_find_Some in Hf as (Hi & Hr & Hfirst).
    exists inst. rewrite Hr. split; [done|]. split; [done|]. split.
    + by intros inst' _ Hs.
    + intros j inst' Hj Hlt. by apply (Hfirst j inst').
  - destruct (list_find (fun h => ref (object h) = k :: parent) instances)
      as [[i0 inst]|] eqn:Hf.
    + injection H as <-. apply list_find_Some in Hf as (Hi & Hr & Hfirst).
      exists inst. rewrite Hr. split; [done|]. split; [done|]. split.
      * by intros inst' _ Hs.
      * intros j inst' Hj Hlt. by apply (Hfirst j inst').
    + destruct (IH H) as (inst & Hi & Hs & Hnear & Hfirst).
      exists inst. split; [done|]. split; [by apply suffix_cons_r|]. split; [|done].
      intros inst' Hin Hs'. apply PartOwnership.suffix_of_cons in Hs' as [Heq|Hs'].
      * apply list_find_None in Hf. rewrite Forall_forall in Hf. by destruct (Hf inst' Hin).
      * by apply Hnear.
Qed.

Lemma matchInstance_None hit instances inst :
  matchInstance hit instances = None -> inst ∈ instances ->
  ~ ref (object inst) `suffix_of` hit.
Proof.
  induction hit as [|k parent IH]; intros H Hin Hs; cbn in H.
  - destruct (list_find (fun h => ref (object h) = []) instances) as [[i0 inst0]|] eqn:Hf;
      [done|].
    apply suffix_nil_inv in Hs. apply list_find_None in Hf.
    rewrite Forall_forall in Hf. by destruct (Hf inst Hin).
  - destruct (list_find (fun h => ref (object h) = k :: parent) instances)
      as [[i0 inst0]|] eqn:Hf; [done|].
    apply PartOwnership.suffix_of_cons in Hs as [Heq|Hs].
    + apply list_find_None in Hf. rewrite Forall_forall in Hf. by destruct (Hf inst Hin).
    + by apply (IH H Hin).
Qed.

(** [tryShowHotspot] without a model, without a hit, or with a nearest
    hit that has no anchor at or above it, is unhandled and changes no
    instance.  Otherwise it is handled and flips the open flag, with the
    card following, of one instance: the one anchored nearest at or
    above the object hit (the first such in the array); every other
    instance is as before. *)
Theorem tryShowHotspot_flips_nearest_anchor
    (Ray : Type) (intersectObjects : Ray -> list Node -> list Ref)
    (model : Object3D) (ray : Ray) (instances : list HotspotInstance) :
  tryShowHotspot Ray intersectObjects None ray instances = (false, instances)
  /\ match intersectObjects ray (allMeshes model) with
     | [] => tryShowHotspot Ray intersectObjects (Some model) ray instances
             = (false, instances)
     | hit :: _ =>
         ((forall inst, inst ∈ instances -> ~ ref (object inst) `suffix_of` hit) ->
          tryShowHotspot Ray intersectObjects (Some model) ray instances
          = (false, instances))
         /\ ((exists inst, inst ∈ instances /\ ref (object inst) `suffix_of` hit) ->
             exists i inst,
               instances !! i = Some inst
               /\ ref (object inst) `suffix_of` hit
               /\ (forall inst', inst' ∈ instances ->
                     ref (object inst') `suffix_of` hit ->
                     ref (object inst') `suffix_of` ref (object inst))
               /\ (forall j inst', instances !! j = Some inst' -> (j < i)%nat ->
                     ref (object inst') <> ref (object inst))
               /\ fst (tryShowHotspot Ray intersectObjects (Some model) ray instances)
                  = true
               /\ snd (tryShowHotspot Ray intersectObjects (Some model) ray instances) !! i
                  = Some (setOpen inst (negb (open inst)))
               /\ forall j, j <> i ->
                    snd (tryShowHotspot Ray intersectObjects (Some model) ray instances) !! j
                    = instances !! j)
     end.
Proof.
  split; [done|]. unfold tryShowHotspot.
  destruct (intersectObjects ray (allMeshes model)) as [|hit rest]; [done|].
  destruct (matchInstance hit instances) as [i|] eqn:Hm.
  - destruct (matchInstance_Some _ _ _ Hm) as (inst & Hi & Hs & Hnear & Hfirst). split.
    + intros Hno. destruct (Hno inst); [|done]. by apply list_elem_of_lookup_2 in Hi.
    + intros _. exists i, inst. cbn.
      split; [done|]. split; [done|]. split; [done|]. split; [done|]. split; [done|].
      split.
      * rewrite list_lookup_alter, decide_True by done. by rewrite Hi.
      * intros j Hj. by rewrite list_lookup_alter_ne.
  - split; [done|]. intros (inst & Hin & Hs).
    by destruct (matchInstance_None _ _ inst Hm Hin).
Qed.

(** The GPU scene with its one card: a ray hitting the GPU mesh is
    handled, and the card is open afterwards. *)
Lemma tryShowHotspot_opens_gpu_card :
  fst (tryShowHotspot (option Ref)
         (fun ray _ => match ray with Some r => [r] | None => [] end)
         (Some gpuScene) (Some [0; 1]%nat) (initHotspots gpuScene)) = true
  /\ snd (tryShowHotspot (option Ref)
            (fun ray _ => match ray with Some r => [r] | None => [] end)
            (Some gpuScene) (Some [0; 1]%nat) (initHotspots gpuScene))
     = [ openGpuInstance ].
Proof.
  split; [|reflexivity].
  pose proof (proj2 (tryShowHotspot_flips_nearest_anchor (option Ref)
                       (fun ray _ => match ray with Some r => [r] | None => [] end)
                       gpuScene (Some [0; 1]%nat) (initHotspots gpuScene))) as H.
  cbn beta iota in H. destruct H as [_ H].
  destruct H as (i & inst & _ & _ & _ & _ & Hfst & _); [|exact Hfst].
  exists (newInstance gpuHotspot
            {| ref := [0; 1]%nat; obj := Obj "RTX 5090" true (Some 1%nat) [] |}).
  split; [apply list_elem_of_here | done].
Defined.

(** *** Card and flag *)

Lemma synced_setOpen inst o : synced (setOpen inst o).
Proof. reflexivity. Qed.

Lemma synced_markerClick hs instances :
  Forall synced instances -> Forall synced (markerClick hs instances).
Proof.
  induction 1 as [|inst rest Hi Hrest IH]; cbn; [constructor|].
  case_bool_decide; constructor; auto using synced_setOpen.
Qed.

Lemma synced_alter i instances :
  Forall synced instances -> Forall synced (alter flipOpen i instances).
Proof.
  intros H. rewrite Forall_forall in *. intros inst Hin.
  apply list_elem_of_lookup in Hin as [j Hj].
  rewrite list_lookup_alter in Hj. case_decide.
  - destruct (instances !! i) as [inst0|]; [|done]. injection Hj as <-.
    apply synced_setOpen.
  - apply H. by apply list_elem_of_lookup_2 in Hj.
Qed.

Lemma synced_updateInstance w h project inst :
  (snd (project (object inst)) <= 1)%Q ->
  synced inst -> synced (updateInstance w h project inst).
Proof.
  unfold synced, updateInstance. destruct (project (object inst)) as [[px py] pz].
  cbn. intros Hz Hs. apply Qle_bool_iff in Hz. by rewrite Hz.
Qed.

(** The card follows the flag.  From the instances built for a model,
    after any sequence of marker clicks, ray selections, keys and frames
    in which no anchor is behind the camera, every instance shows its
    card exactly when its open flag is set. *)
Theorem card_visible_iff_open
    (Ray : Type) (intersectObjects : Ray -> list Node -> list Ref)
    (modelHeight modelCenterY : R) (root : Object3D)
    (camera : Keyboard.Camera) (exploded : bool) (events : list (CardEvent Ray)) :
  Forall (inFront Ray) events ->
  Forall synced
    (Keyboard.hotspotInstances
       (foldl (cardStep Ray intersectObjects modelHeight modelCenterY)
          {| Keyboard.camera := camera; Keyboard.exploded := exploded;
             Keyboard.hotspotInstances := initHotspots root |}
          events)).
Proof.
  intros Hfront.
  assert (Hinit : Forall synced (initHotspots root)).
  { rewrite initHotspots_omap. apply Forall_forall. intros inst Hin.
    apply list_elem_of_omap in Hin as (hs & _ & Hhs).
    destruct (resolveTarget root hs); [|done]. by injection Hhs as <-. }
  revert Hinit.
  generalize (initHotspots root) as instances. intros instances.
  generalize camera as c, exploded as x. revert instances.
  induction Hfront as [|e events He Hrest IH]; intros instances c x Hs; [done|].
  cbn [foldl].
  destruct e as [hs|model ray|key|w h project]; cbn [cardStep withInstances].
  - apply IH. by apply synced_markerClick.
  - apply IH. cbn. unfold tryShowHotspot.
    destruct model as [model|]; [|done].
    destruct (intersectObjects ray (allMeshes model)) as [|hit rest]; [done|].
    destruct (matchInstance hit instances); [|done]. by apply synced_alter.
  - unfold Keyboard.keydown.
    repeat (match goal with |- context [if ?b then _ else _] => destruct b end);
      cbn; apply IH; try done.
    rewrite Forall_forall. intros inst Hin.
    apply list_elem_of_fmap in Hin as (inst0 & -> & _). apply synced_setOpen.
  - apply IH. cbn. unfold updateHotspotPositions. rewrite Forall_forall in *.
    intros inst Hin. apply list_elem_of_fmap in Hin as (inst0 & -> & Hin).
    apply synced_updateInstance; [apply He | by apply Hs].
Qed.

(** The GPU scene: open the card by its marker, press 'e', draw a frame
    with everything in front of the camera. *)
Lemma card_visible_iff_open_case :
  Forall synced
    (Keyboard.hotspotInstances
       (foldl (cardStep (option Ref)
                 (fun ray _ => match ray with Some r => [r] | None => [] end) 1 0)
          {| Keyboard.camera := Keyboard.camera Keyboard.twoCards;
             Keyboard.exploded := false;
             Keyboard.hotspotInstances := initHotspots gpuScene |}
          [ MarkerClick _ gpuHotspot; KeyDown _ "e";
            FrameUpdate _ 1920 1080 (fun _ => (0, 0, 1 # 2)%Q) ])).
Proof.
  apply (card_visible_iff_open (option Ref)
           (fun ray _ => match ray with Some r => [r] | None => [] end) 1 0 gpuScene).
  repeat constructor. intros n. cbn. discriminate.
Defined.

(** *** Where the marker and the card go *)

Lemma screen_x_right_of_centre (px W : Q) :
  (0 < W)%Q -> (px * (W / 2) + W / 2 <= W / 2 <-> px <= 0)%Q.
Proof.
  intros HW.
  assert (E : (px * (W / 2) + W / 2 == (px + 1) * W * (1 # 2))%Q) by field.
  assert (E2 : (W / 2 == W * (1 # 2))%Q) by field.
  rewrite E, E2. split; intros; Lqa.nra.
Qed.

Lemma screen_x_inside (px W : Q) :
  (0 < W)%Q ->
  ((0 <= px * (W / 2) + W / 2 /\ px * (W / 2) + W / 2 <= W) <-> (-1 <= px /\ px <= 1))%Q.
Proof.
  intros HW.
  assert (E : (px * (W / 2) + W / 2 == (px + 1) * W * (1 # 2))%Q) by field.
  rewrite E. split; intros []; split; Lqa.nra.
Qed.

(** For an anchor in front of the camera in a window of positive width:
    the marker is put at the screen point of the projection, which lies
    between the left and right border exactly when the projected x lies
    in [-1, 1]; the card goes to the left of the marker exactly when the
    anchor projects right of the screen centre, and then its right edge
    is set 14 px left of the marker, otherwise its left edge 14 px right
    of it.  Updating twice with one projection is updating once. *)
Theorem updateInstance_places_marker_and_card
    (innerWidth innerHeight : Q) (project : Node -> Q * Q * Q)
    (inst : HotspotInstance) :
  (0 < innerWidth)%Q ->
  (snd (project (object inst)) <= 1)%Q ->
  let px := fst (fst (project (object inst))) in
  let py := snd (fst (project (object inst))) in
  let sx := (px * hw innerWidth + hw innerWidth)%Q in
  let sy := (- py * hh innerHeight + hh innerHeight)%Q in
  let inst' := updateInstance innerWidth innerHeight project inst in
  markerOpacity inst' = ""%string
  /\ markerLeft inst' = Px sx /\ markerTop inst' = Px sy /\ tagTop inst' = Px sy
  /\ ((0 <= sx /\ sx <= innerWidth)%Q <-> (-1 <= px /\ px <= 1)%Q)
  /\ (tagOnLeft inst' = true <-> (0 < px)%Q)
  /\ ((0 < px)%Q ->
      tagLeft inst' = Auto /\ tagRight inst' = Px (innerWidth - sx + 14)%Q)
  /\ ((px <= 0)%Q -> tagLeft inst' = Px (sx + 14)%Q /\ tagRight inst' = Auto)
  /\ updateInstance innerWidth innerHeight project inst' = inst'.
Proof.
  intros HW Hz px py sx sy inst'.
  assert (Hleft : Qle_bool sx (innerWidth / 2) = true <-> (px <= 0)%Q).
  { rewrite Qle_bool_iff. unfold sx, hw. by apply screen_x_right_of_centre. }
  assert (Hinst' :
    inst' = {| data := data inst; object := object inst; open := open inst;
               tagVisible := tagVisible inst;
               tagOnLeft := negb (Qle_bool sx (innerWidth / 2));
               markerOpacity := "";
               markerLeft := Px sx; markerTop := Px sy;
               tagLeft := if negb (Qle_bool sx (innerWidth / 2)) then Auto
                          else Px (sx + 14)%Q;
               tagRight := if negb (Qle_bool sx (innerWidth / 2))
                           then Px (innerWidth - sx + 14)%Q else Auto;
               tagTop := Px sy |}).
  { unfold inst', updateInstance, sx, sy, px, py.
    destruct (project (object inst)) as [[px0 py0] pz]. cbn in Hz |- *.
    apply Qle_bool_iff in Hz. by rewrite Hz. }
  assert (Hidem : updateInstance innerWidth innerHeight project inst' = inst').
  { rewrite Hinst'. unfold updateInstance at 1. cbn [object].
    fold px py. unfold sx, sy, px, py.
    destruct (project (object inst)) as [[px0 py0] pz]. cbn in Hz |- *.
    apply Qle_bool_iff in Hz. by rewrite Hz. }
  assert (Hon : tagOnLeft inst' = negb (Qle_bool sx (innerWidth / 2)))
    by by rewrite Hinst'.
  assert (Hl : tagLeft inst' = if negb (Qle_bool sx (innerWidth / 2)) then Auto
                               else Px (sx + 14)%Q) by by rewrite Hinst'.
  assert (Hr : tagRight inst' = if negb (Qle_bool sx (innerWidth / 2))
                                then Px (innerWidth - sx + 14)%Q else Auto)
    by by rewrite Hinst'.
  split; [by rewrite Hinst'|]. split; [by rewrite Hinst'|].
  split; [by rewrite Hinst'|]. split; [by rewrite Hinst'|].
  split; [unfold sx, hw; by apply screen_x_inside|].
  rewrite Hon, Hl, Hr.
  split; [|split; [|split; [|exact Hidem]]].
  - rewrite negb_true_iff. split.
    + intros Hf. apply Qnot_le_lt. intros Hle. apply Hleft in Hle. congruence.
    + intros Hlt. destruct (Qle_bool sx (innerWidth / 2)); [|done].
      destruct (Qlt_not_le _ _ Hlt). by apply Hleft.
  - intros Hlt. destruct (Qle_bool sx (innerWidth / 2)); [|done].
    destruct (Qlt_not_le _ _ Hlt). by apply Hleft.
  - intros Hle. apply Hleft in Hle. by rewrite Hle.
Qed.

(** A 1920 px wide window and an anchor projecting to (1/2, 0, 1/2): the
    marker is at x = 1440 and the card is on its left. *)
Lemma updateInstance_places_marker_and_card_case :
  let inst' := updateInstance 1920 1080 (fun _ => (1 # 2, 0, 1 # 2)%Q) openGpuInstance in
  tagOnLeft inst' = true /\ tagLeft inst' = Auto
  /\ markerLeft inst' = Px ((1 # 2) * hw 1920 + hw 1920)%Q
  /\ ((1 # 2) * hw 1920 + hw 1920 == 1440)%Q.
Proof.
  intros inst'.
  destruct (updateInstance_places_marker_and_card 1920 1080
              (fun _ => (1 # 2, 0, 1 # 2)%Q) openGpuInstance)
    as (_ & Hml & _ & _ & _ & Hon & Hl & _); [reflexivity | cbn; discriminate |].
  split; [by apply Hon|]. split; [by apply Hl|]. split; [exact Hml | reflexivity].
Defined.

(** *** Marker clicks *)

Lemma HOTSPOTS_NoDup : NoDup HOTSPOTS.
Proof. apply (bool_decide_unpack _). vm_compute. reflexivity. Qed.

Lemma initHotspots_data root : sublist (map data (initHotspots root)) HOTSPOTS.
Proof.
  rewrite initHotspots_omap. generalize HOTSPOTS as l.
  induction l as [|hs l IH]; cbn; [constructor|].
  destruct (resolveTarget root hs); cbn; by constructor.
Qed.

Lemma initHotspots_new root inst :
  inst ∈ initHotspots root -> inst = newInstance (data inst) (object inst).
Proof.
  rewrite initHotspots_omap. intros Hin.
  apply list_elem_of_omap in Hin as (hs & _ & Hf).
  destruct (resolveTarget root hs); cbn in Hf; [|done]. by injection Hf as <-.
Qed.

Lemma markerClick_map hs instances :
  map data (markerClick hs instances) = map data instances
  /\ map object (markerClick hs instances) = map object instances.
Proof.
  induction instances as [|inst rest [IH1 IH2]]; cbn; [done|].
  case_bool_decide; cbn; [done|]. by rewrite IH1, IH2.
Qed.

Lemma markerClick_elem hs instances inst' :
  NoDup (map data instances) ->
  inst' ∈ markerClick hs instances ->
  exists inst,
    inst ∈ instances
    /\ inst' = if bool_decide (data inst = hs) then setOpen inst (negb (open inst))
               else inst.
Proof.
  induction instances as [|inst0 rest IH]; cbn; intros Hnd Hin.
  - by apply elem_of_nil in Hin.
  - apply NoDup_cons in Hnd as [Hnot Hnd]. case_bool_decide as Hd.
    + apply elem_of_cons in Hin as [-> | Hin].
      * exists inst0. split; [apply list_elem_of_here|]. by rewrite bool_decide_true.
      * exists inst'. split; [by apply list_elem_of_further|].
        rewrite bool_decide_false; [done|]. intros Heq. apply Hnot.
        rewrite Hd, <- Heq. apply list_elem_of_fmap. by exists inst'.
    + apply elem_of_cons in Hin as [-> | Hin].
      * exists inst0. split; [apply list_elem_of_here|]. by rewrite bool_decide_false.
      * destruct (IH Hnd Hin) as (inst & Hi & ->).
        exists inst. split; [by apply list_elem_of_further | done].
Qed.

(** A card is open exactly when its marker was clicked an odd number of
    times.  The instances [initHotspots] builds have pairwise different
    descriptors, in the order of [HOTSPOTS]; after any sequence of
    marker clicks the descriptors and anchors are as built, the open
    flag of every instance is the parity of the number of clicks on the
    marker of its descriptor, whatever was clicked in between, and its
    card is visible exactly when it is open. *)
Theorem marker_clicks_open_cards_by_parity (root : Object3D) (clicks : list Hotspot) :
  let instances := initHotspots root in
  let after := foldl (fun l hs => markerClick hs l) instances clicks in
  NoDup (map data instances)
  /\ sublist (map data instances) HOTSPOTS
  /\ map data after = map data instances
  /\ map object after = map object instances
  /\ forall inst, inst ∈ after ->
       open inst
       = Nat.odd (length (List.filter (fun hs => bool_decide (hs = data inst)) clicks))
       /\ tagVisible inst = open inst.
Proof.
  intros instances after.
  pose proof (initHotspots_data root) as Hsub. fold instances in Hsub.
  assert (Hnd : NoDup (map data instances))
    by (eapply sublist_NoDup; [apply HOTSPOTS_NoDup | exact Hsub]).
  split; [exact Hnd|]. split; [exact Hsub|].
  unfold after. clear after. induction clicks as [|hs clicks IH] using rev_ind.
  - cbn. split; [done|]. split; [done|]. intros inst Hin.
    rewrite (initHotspots_new root inst Hin). done.
  - rewrite foldl_app. cbn [foldl].
    set (before := foldl (fun l h => markerClick h l) instances clicks) in *.
    destruct IH as (Hd & Ho & IH). destruct (markerClick_map hs before) as [Hd' Ho'].
    split; [by rewrite Hd'|]. split; [by rewrite Ho'|].
    intros inst' Hin. apply markerClick_elem in Hin as (inst & Hin & ->);
      [|by rewrite Hd].
    destruct (IH inst Hin) as [Hopen Hvis].
    rewrite List.filter_app, length_app. cbn [List.filter].
    case_bool_decide as Hdata.
    + cbn [data setOpen open tagVisible]. rewrite bool_decide_true by done.
      cbn [length]. rewrite Nat.add_1_r, Nat.odd_succ, <- Nat.negb_odd, <- Hopen. done.
    + rewrite bool_decide_false by done. cbn [length]. by rewrite Nat.add_0_r.
Qed.

End HotspotEvents.

(** * Cycling through the view presets

    The [click] and [contextmenu] listeners of the canvas and the arrow
    keys step through [viewList]; [toggleZoom] switches the zoom targets. *)
Module Views.
Import SceneGraph Keyboard.
Local Open Scope R_scope.

(** [viewIndex = (viewIndex + 1) % viewList.length;
    setView(viewList[viewIndex]);] *)
Definition nextView (c : Camera) : Camera :=
  let n := Z.of_nat (List.length viewList) in
  let i := Z.rem (viewIndex c + 1) n in
  setView (viewAt i) (withViewIndex c i).

(** [viewIndex = (viewIndex - 1 + viewList.length) % viewList.length;
    setView(viewList[viewIndex]);] *)
Definition prevView (c : Camera) : Camera :=
  let n := Z.of_nat (List.length viewList) in
  let i := Z.rem (viewIndex c - 1 + n) n in
  setView (viewAt i) (withViewIndex c i).

Record Viewer := {
  parts : Toggle.State;
  cam : Camera }.

Section Canvas.

Variable toggleMap : Toggle.ToggleMap.
Variable Ray : Type.
Variable intersectObjects : Ray -> gset Ref -> list Node -> list Ref.

(** The [click] listener of the canvas. *)
Definition click (ray : Ray) (v : Viewer) : Viewer :=
  let r := Toggle.tryTogglePart toggleMap Ray intersectObjects ray (parts v) in
  if fst r then {| parts := snd r; cam := cam v |}
  else {| parts := snd r; cam := nextView (cam v) |}.

(** The [contextmenu] listener of the canvas. *)
Definition contextmenu (ray : Ray) (v : Viewer) : Viewer :=
  let r := Toggle.tryTogglePart toggleMap Ray intersectObjects ray (parts v) in
  if fst r then {| parts := snd r; cam := cam v |}
  else {| parts := snd r; cam := prevView (cam v) |}.

End Canvas.

(** The targets are those of the preset [viewIndex] names. *)
Definition viewConsistent (c : Camera) : Prop :=
  exists name,
    viewAt (viewIndex c) = Some name
    /\ viewAngles name = Some (targetAzimuth c)
    /\ targetElevation c
       = if String.eqb name "Isometric" then ISO_ELEVATION else DEFAULT_ELEVATION.

(** The zoom targets are those [toggleZoom] writes for the flag. *)
Definition zoomConsistent (modelHeight modelCenterY : R) (c : Camera) : Prop :=
  targetFrustum c
  = (if zoomed c then FRUSTUM_ZOOMED_CALC modelHeight else FRUSTUM_DEFAULT)
  /\ targetOrbitY c = modelCenterY.

(** The camera the viewer starts with. *)
Definition initialCamera (modelCenterY : R) : Camera :=
  {| viewIndex := 0; targetAzimuth := 0; targetElevation := DEFAULT_ELEVATION;
     zoomed := false; targetFrustum := FRUSTUM_DEFAULT; targetOrbitY := modelCenterY |}.

Lemma viewConsistent_range c :
  viewConsistent c -> (0 <= viewIndex c < 5)%Z.
Proof.
  intros (name & Hat & _). unfold viewAt in Hat.
  destruct (0 <=? viewIndex c)%Z eqn:E; [|done].
  apply Z.leb_le in E. apply lookup_lt_Some in Hat. cbn in Hat. lia.
Qed.

Lemma viewIndex_cases (i : Z) :
  (0 <= i < 5)%Z -> i = 0%Z \/ i = 1%Z \/ i = 2%Z \/ i = 3%Z \/ i = 4%Z.
Proof. lia. Qed.

Lemma viewConsistent_targets c :
  viewConsistent c ->
  (viewIndex c = 0%Z /\ targetAzimuth c = 0 /\ targetElevation c = DEFAULT_ELEVATION)
  \/ (viewIndex c = 1%Z /\ targetAzimuth c = - PI / 3
      /\ targetElevation c = DEFAULT_ELEVATION)
  \/ (viewIndex c = 2%Z /\ targetAzimuth c = PI /\ targetElevation c = DEFAULT_ELEVATION)
  \/ (viewIndex c = 3%Z /\ targetAzimuth c = PI / 3
      /\ targetElevation c = DEFAULT_ELEVATION)
  \/ (viewIndex c = 4%Z /\ targetAzimuth c = PI / 4 /\ targetElevation c = ISO_ELEVATION).
Proof.
  intros Hc. pose proof (viewConsistent_range c Hc) as Hr.
  destruct Hc as (name & Hat & Hang & Hel).
  destruct (viewIndex_cases _ Hr) as [E | [E | [E | [E | E]]]];
    rewrite E in Hat; cbn in Hat; injection Hat as <-;
    cbn in Hang, Hel; injection Hang as Hang; rewrite <- Hang, Hel; tauto.
Qed.

Lemma nextView_index c :
  (0 <= viewIndex c < 5)%Z ->
  viewIndex (nextView c) = ((viewIndex c + 1) mod 5)%Z
  /\ viewConsistent (nextView c)
  /\ zoomed (nextView c) = zoomed c
  /\ targetFrustum (nextView c) = targetFrustum c
  /\ targetOrbitY (nextView c) = targetOrbitY c.
Proof.
  intros Hr. destruct c as [i az el z tf ty]. cbn in Hr.
  destruct (viewIndex_cases _ Hr) as [E | [E | [E | [E | E]]]]; cbn in E; subst i;
    (split; [reflexivity|]); (split; [|done]);
    [exists "Right"%string | exists "Rear"%string | exists "Left"%string
     | exists "Isometric"%string | exists "Front"%string]; done.
Qed.

Lemma prevView_index c :
  (0 <= viewIndex c < 5)%Z ->
  viewIndex (prevView c) = ((viewIndex c - 1) mod 5)%Z
  /\ viewConsistent (prevView c)
  /\ zoomed (prevView c) = zoomed c
  /\ targetFrustum (prevView c) = targetFrustum c
  /\ targetOrbitY (prevView c) = targetOrbitY c.
Proof.
  intros Hr. destruct c as [i az el z tf ty]. cbn in Hr.
  destruct (viewIndex_cases _ Hr) as [E | [E | [E | [E | E]]]]; cbn in E; subst i;
    (split; [reflexivity|]); (split; [|done]);
    [exists "Isometric"%string | exists "Front"%string | exists "Right"%string
     | exists "Rear"%string | exists "Left"%string]; done.
Qed.

Lemma prevView_nextView c :
  viewConsistent c -> prevView (nextView c) = c /\ nextView (prevView c) = c.
Proof.
  intros Hc. destruct c as [i az el z tf ty].
  destruct (viewConsistent_targets _ Hc)
    as [(E & Ha & He) | [(E & Ha & He) | [(E & Ha & He) | [(E & Ha & He) | (E & Ha & He)]]]];
    cbn in E, Ha, He; subst i az el; split; reflexivity.
Qed.

Lemma nextView_five_times c :
  viewConsistent c -> nextView (nextView (nextView (nextView (nextView c)))) = c.
Proof.
  intros Hc. destruct c as [i az el z tf ty].
  destruct (viewConsistent_targets _ Hc)
    as [(E & Ha & He) | [(E & Ha & He) | [(E & Ha & He) | [(E & Ha & He) | (E & Ha & He)]]]];
    cbn in E, Ha, He; subst i az el; reflexivity.
Qed.

(** With the view index inside the list of the five presets, the
    step forward of a click or the right arrow key puts the index at
    (index + 1) mod 5 and the step back of the context menu or the left
    arrow key at (index - 1) mod 5; each sets the azimuth and elevation
    targets of the preset it arrives at and leaves the zoom targets.
    When the targets were those of the current preset, a step forward
    and a step back cancel in either order, and five steps forward come
    back to the same camera targets. *)
Theorem view_steps_cycle_through_presets (c : Camera) :
  (0 <= viewIndex c < 5)%Z ->
  (viewIndex (nextView c) = ((viewIndex c + 1) mod 5)%Z
   /\ viewIndex (prevView c) = ((viewIndex c - 1) mod 5)%Z
   /\ viewConsistent (nextView c) /\ viewConsistent (prevView c)
   /\ zoomed (nextView c) = zoomed c /\ zoomed (prevView c) = zoomed c
   /\ targetFrustum (nextView c) = targetFrustum c
   /\ targetFrustum (prevView c) = targetFrustum c
   /\ targetOrbitY (nextView c) = targetOrbitY c
   /\ targetOrbitY (prevView c) = targetOrbitY c)
  /\ (viewConsistent c ->
      prevView (nextView c) = c /\ nextView (prevView c) = c
      /\ nextView (nextView (nextView (nextView (nextView c)))) = c).
Proof.
  intros Hr.
  destruct (nextView_index c Hr) as (? & ? & ? & ? & ?).
  destruct (prevView_index c Hr) as (? & ? & ? & ? & ?).
  split; [tauto|]. intros Hc.
  destruct (prevView_nextView c Hc). split; [done|]. split; [done|].
  by apply nextView_five_times.
Qed.

(** From the isometric view the step forward wraps around to the front. *)
Lemma view_steps_wrap_around :
  viewIndex (nextView (prevView (initialCamera 0))) = 0%Z
  /\ viewIndex (prevView (initialCamera 0)) = 4%Z
  /\ targetElevation (prevView (initialCamera 0)) = ISO_ELEVATION.
Proof.
  destruct (view_steps_cycle_through_presets (initialCamera 0)) as [_ Hback];
    [cbn; lia|].
  destruct Hback as (_ & Hnp & _); [by exists "Front"%string|].
  split; [by rewrite Hnp|]. split; reflexivity.
Defined.

(** *** A click toggles a part or steps the view, never both *)

Section CanvasFacts.

Variable toggleMap : Toggle.ToggleMap.
Variable Ray : Type.
Variable intersectObjects : Ray -> gset Ref -> list Node -> list Ref.

(** The owner group of the nearest hit of a click, if there is one. *)
Definition clickedGroup (ray : Ray) (s : Toggle.State) : option Toggle.Group :=
  match Toggle.clickHits toggleMap Ray intersectObjects ray s with
  | hit :: _ => Toggle.getToggleGroup toggleMap hit
  | [] => None
  end.

Lemma hoveredGroup_clearHighlight s :
  Toggle.hoveredGroup (Toggle.clearHighlight toggleMap s) = None.
Proof.
  unfold Toggle.clearHighlight. by destruct (Toggle.hoveredGroup s) eqn:E.
Qed.

Lemma tryTogglePart_handled ray s :
  let r := Toggle.tryTogglePart toggleMap Ray intersectObjects ray s in
  match clickedGroup ray s with
  | Some g =>
      fst r = true
      /\ Toggle.hoveredGroup (snd r) = None
      /\ exists o,
           o ∈ Toggle.allToggleable toggleMap
           /\ o ∈ Toggle.groupObjects toggleMap g
           /\ Toggle.visible (Toggle.hidden (snd r)) (ref o)
              = negb (Toggle.visible (Toggle.hidden s) (ref o))
  | None => fst r = false /\ snd r = s
  end.
Proof.
  intros r. unfold r, clickedGroup. rewrite Toggle.tryTogglePart_toggleHit.
  destruct (Toggle.clickHits toggleMap Ray intersectObjects ray s) as [|hit rest];
    [done|].
  unfold Toggle.getToggleGroup.
  destruct (findOwner hit (Toggle.individuals toggleMap)) as [o|] eqn:Ho.
  - destruct (Toggle.toggleHit_individual toggleMap hit rest o s Ho) as [Hf Hv].
    split; [done|]. split.
    + unfold Toggle.toggleHit. rewrite Ho. cbn. apply hoveredGroup_clearHighlight.
    + exists o. split; [|split; [cbn; apply list_elem_of_here | done]].
      apply elem_of_app. left. by apply Toggle.findOwner_elem in Ho.
  - destruct (findOwner hit (Toggle.groupMembers toggleMap)) as [g|] eqn:Hg.
    + destruct (Toggle.toggleHit_group toggleMap hit rest g s Ho Hg) as [Hf Hv].
      pose proof (Toggle.findOwner_elem _ _ _ Hg) as Hin.
      split; [done|]. split.
      * unfold Toggle.toggleHit. rewrite Ho, Hg. cbn.
        apply hoveredGroup_clearHighlight.
      * exists g. split; [apply elem_of_app; by right|]. split; [done|]. by apply Hv.
    + unfold Toggle.toggleHit. by rewrite Ho, Hg.
Qed.

End CanvasFacts.

(** A left or right click on the canvas does exactly one of two things.
    When the nearest hit among the meshes of all toggleable parts, tested
    with none of them hidden, belongs to a part, the click flips the
    visibility of that part, ends with no hovered group, and leaves the
    camera targets as they are.  Otherwise, also when nothing is hit, it
    leaves visibility, colours, hovered group and cursor untouched and
    steps the view: forward for [click], back for [contextmenu]. *)
Theorem click_toggles_part_or_steps_view
    (toggleMap : Toggle.ToggleMap) (Ray : Type)
    (intersectObjects : Ray -> gset Ref -> list Node -> list Ref)
    (ray : Ray) (v : Viewer) :
  let l := click toggleMap Ray intersectObjects ray v in
  let r := contextmenu toggleMap Ray intersectObjects ray v in
  match clickedGroup toggleMap Ray intersectObjects ray (parts v) with
  | Some g =>
      cam l = cam v /\ cam r = cam v /\ parts l = parts r
      /\ Toggle.hoveredGroup (parts l) = None
      /\ exists o,
           o ∈ Toggle.groupObjects toggleMap g
           /\ Toggle.visible (Toggle.hidden (parts l)) (ref o)
              = negb (Toggle.visible (Toggle.hidden (parts v)) (ref o))
  | None =>
      parts l = parts v /\ parts r = parts v
      /\ cam l = nextView (cam v) /\ cam r = prevView (cam v)
  end.
Proof.
  intros l r. unfold l, r, click, contextmenu.
  pose proof (tryTogglePart_handled toggleMap Ray intersectObjects ray (parts v)) as H.
  cbv zeta in H.
  destruct (clickedGroup toggleMap Ray intersectObjects ray (parts v)) as [g|].
  - destruct H as (-> & Hh & o & _ & Ho & Hv). cbn.
    split; [done|]. split; [done|]. split; [done|]. split; [done|]. by exists o.
  - destruct H as (-> & ->). done.
Qed.

(** *** The keys keep view and zoom targets in step *)

Section Keys.

Variables modelHeight modelCenterY : R.

Definition cameraConsistent (c : Camera) : Prop :=
  viewConsistent c /\ zoomConsistent modelHeight modelCenterY c.

Lemma keydown_arrows (st : State) :
  camera (keydown modelHeight modelCenterY "ArrowRight" st) = nextView (camera st)
  /\ camera (keydown modelHeight modelCenterY "ArrowLeft" st) = prevView (camera st).
Proof. split; reflexivity. Qed.

Lemma toggleZoom_consistent c :
  zoomConsistent modelHeight modelCenterY (toggleZoom modelHeight modelCenterY c).
Proof.
  unfold zoomConsistent, toggleZoom. cbn. split; [done|]. by destruct (negb _).
Qed.

Lemma toggleZoom_twice c :
  zoomConsistent modelHeight modelCenterY c ->
  toggleZoom modelHeight modelCenterY (toggleZoom modelHeight modelCenterY c) = c.
Proof.
  destruct c as [i az el z tf ty]. intros [Hf Hy]. cbn in Hf, Hy. subst tf ty.
  unfold toggleZoom. cbn. rewrite negb_involutive. by destruct z.
Qed.

Lemma keydown_consistent key st :
  cameraConsistent (camera st) ->
  cameraConsistent (camera (keydown modelHeight modelCenterY key st)).
Proof.
  intros [Hv Hz]. pose proof (viewConsistent_range _ Hv) as Hr.
  unfold keydown.
  destruct (isKey key ["ArrowRight"]).
  { destruct (nextView_index _ Hr) as (_ & Hv' & Hzo & Hf & Hy).
    change (cameraConsistent (nextView (camera st))).
    split; [exact Hv'|]. unfold zoomConsistent. rewrite Hzo, Hf, Hy. exact Hz. }
  destruct (isKey key ["ArrowLeft"]).
  { destruct (prevView_index _ Hr) as (_ & Hv' & Hzo & Hf & Hy).
    change (cameraConsistent (prevView (camera st))).
    split; [exact Hv'|]. unfold zoomConsistent. rewrite Hzo, Hf, Hy. exact Hz. }
  destruct (isKey key ["z"; "Z"; "ArrowUp"; "ArrowDown"]).
  { split; [exact Hv | apply toggleZoom_consistent]. }
  by destruct (isKey key ["e"; "E"]).
Qed.

End Keys.

(** Starting from camera targets that are those of the current view
    preset and of the current zoom flag, every sequence of key presses
    keeps them so: the view index stays inside the list of presets, the
    azimuth and elevation targets are those of the preset at that index,
    the frustum target is the zoomed one exactly when [zoomed] is set, and
    the height the orbit target moves to is always the model centre's:
    zooming never re-centres.  A zoom key flips [zoomed] and leaves the
    view; pressed twice it restores the camera targets. *)
Theorem keys_keep_camera_targets_consistent
    (modelHeight modelCenterY : R) (keys : list string) (st : State) :
  cameraConsistent modelHeight modelCenterY (camera st) ->
  let st' := foldl (fun s key => keydown modelHeight modelCenterY key s) st keys in
  (0 <= viewIndex (camera st') < 5)%Z
  /\ viewConsistent (camera st')
  /\ targetFrustum (camera st')
     = (if zoomed (camera st') then modelHeight / (95 / 100) else 22 / 10)
  /\ targetOrbitY (camera st') = modelCenterY
  /\ (forall key, key ∈ ["z"; "Z"; "ArrowUp"; "ArrowDown"]%string ->
        let z := camera (keydown modelHeight modelCenterY key st') in
        zoomed z = negb (zoomed (camera st'))
        /\ viewIndex z = viewIndex (camera st')
        /\ targetAzimuth z = targetAzimuth (camera st')
        /\ targetElevation z = targetElevation (camera st')
        /\ camera (keydown modelHeight modelCenterY key
                     (keydown modelHeight modelCenterY key st'))
           = camera st').
Proof.
  intros Hc st'.
  assert (Hc' : cameraConsistent modelHeight modelCenterY (camera st')).
  { unfold st'. clear st'. revert st Hc.
    induction keys as [|key keys IH]; intros st Hc; [done|].
    cbn. apply IH. by apply keydown_consistent. }
  clearbody st'. destruct Hc' as [Hv [Hf Hy]].
  split; [by apply viewConsistent_range|]. split; [done|].
  split; [exact Hf|]. split; [exact Hy|].
  intros key Hkey z.
  assert (Hz : forall s, keydown modelHeight modelCenterY key s
               = withCamera s (toggleZoom modelHeight modelCenterY (camera s))).
  { intros s. set_unfold in Hkey.
    destruct Hkey as [-> | [-> | [-> | [-> | []]]]]; reflexivity. }
  unfold z. rewrite !Hz. cbn. split; [done|]. split; [done|]. split; [done|].
  split; [done|]. by apply toggleZoom_twice.
Qed.

(** The viewer's first state, the keys right, up, left, left, [z]: the
    view ends on the isometric preset, zoomed out again. *)
Lemma keys_keep_camera_targets_consistent_case :
  let st' := foldl (fun s key => keydown 1 0 key s) twoCards
               ["ArrowRight"; "ArrowUp"; "ArrowLeft"; "ArrowLeft"; "z"]%string in
  viewIndex (camera st') = 4%Z
  /\ zoomed (camera st') = false
  /\ targetFrustum (camera st') = 22 / 10
  /\ targetOrbitY (camera st') = 0.
Proof.
  intros st'.
  destruct (keys_keep_camera_targets_consistent 1 0
              ["ArrowRight"; "ArrowUp"; "ArrowLeft"; "ArrowLeft"; "z"]%string twoCards)
    as (_ & _ & Hf & Hy & _).
  { split; [by exists "Front"%string | by split]. }
  split; [reflexivity|]. split; [reflexivity|]. split; [exact Hf | exact Hy].
Defined.

End Views.

(** * The orbiting camera

    [updateCamera] moves the current azimuth, elevation, frustum size and
    orbit height a fraction of the way to their targets each frame and
    puts the active camera on a sphere around the orbit target;
    [switchCamera] exchanges the active camera.  Numbers are reals. *)
Module Orbit.
Import SceneGraph Keyboard Explode.
Local Open Scope R_scope.

Definition orbitRadius : R := 25 / 10.

Inductive CameraId := Ortho | Persp.

Record Pose := { position : Vector3; quaternion : Quaternion }.

Record Rig := {
  currentAzimuth : R;
  currentElevation : R;
  frustumSize : R;
  orbitTarget : Vector3;
  orthoLeft : R; orthoRight : R; orthoTop : R; orthoBottom : R;
  perspFov : R;
  orthoCamera : Pose;
  perspCamera : Pose;
  (** the object the variable [camera] refers to *)
  activeCamera : CameraId;
  cameraType : string;
  (** [pass.camera] of every pass of the composer, in order *)
  passCameras : list (option CameraId);
  (** [bokehPass.materialBokeh.defines.PERSPECTIVE_CAMERA] *)
  bokehPerspective : Z }.

Definition poseOf (id : CameraId) (rig : Rig) : Pose :=
  match id with Ortho => orthoCamera rig | Persp => perspCamera rig end.

(** The pose of [camera]. *)
Definition activePose (rig : Rig) : Pose := poseOf (activeCamera rig) rig.

(** [switchCamera(type)]. *)
Definition switchCamera (type : string) (rig : Rig) : Rig :=
  let prev := activePose rig in
  let camera := if String.eqb type "Orthographic" then Ortho else Persp in
  {| currentAzimuth := currentAzimuth rig;
     currentElevation := currentElevation rig;
     frustumSize := frustumSize rig;
     orbitTarget := orbitTarget rig;
     orthoLeft := orthoLeft rig; orthoRight := orthoRight rig;
     orthoTop := orthoTop rig; orthoBottom := orthoBottom rig;
     perspFov := perspFov rig;
     orthoCamera := match camera with Ortho => prev | Persp => orthoCamera rig end;
     perspCamera := match camera with Persp => prev | Ortho => perspCamera rig end;
     activeCamera := camera;
     cameraType := type;
     passCameras :=
       map (fun c => match c with Some _ => Some camera | None => None end)
           (passCameras rig);
     bokehPerspective := if String.eqb type "Perspective" then 1%Z else 0%Z |}.

Section Frame.

(** [camera.lookAt(target)] of the rendering library: the orientation
    it gives a camera at a position. *)
Variable lookAt : Vector3 -> Vector3 -> Quaternion.

(** [current += (target - current) * k]. *)
Definition approach (current target k : R) : R :=
  current + (target - current) * k.

(** [updateCamera()], with the targets of the moment and the aspect
    ratio [window.innerWidth / window.innerHeight]. *)
Definition updateCamera (c : Camera) (a : R) (rig : Rig) : Rig :=
  let az := approach (currentAzimuth rig) (targetAzimuth c) (1 / 10) in
  let el := approach (currentElevation rig) (targetElevation c) (8 / 100) in
  let fs := approach (frustumSize rig) (targetFrustum c) (8 / 100) in
  let ot := setY (orbitTarget rig)
              (approach (y (orbitTarget rig)) (targetOrbitY c) (8 / 100)) in
  let pos := {| x := x ot + orbitRadius * sin az * cos el;
                y := y ot + orbitRadius * sin el;
                z := z ot + orbitRadius * cos az * cos el |} in
  let pose := {| position := pos; quaternion := lookAt pos ot |} in
  {| currentAzimuth := az;
     currentElevation := el;
     frustumSize := fs;
     orbitTarget := ot;
     orthoLeft := - fs * a / 2; orthoRight := fs * a / 2;
     orthoTop := fs / 2; orthoBottom := - fs / 2;
     perspFov := fs * (40 / FRUSTUM_DEFAULT);
     orthoCamera := match activeCamera rig with Ortho => pose | Persp => orthoCamera rig end;
     perspCamera := match activeCamera rig with Persp => pose | Ortho => perspCamera rig end;
     activeCamera := activeCamera rig;
     cameraType := cameraType rig;
     passCameras := passCameras rig;
     bokehPerspective := bokehPerspective rig |}.

(** What the viewer's camera state goes through: an animation frame, a
    key press, or a camera switch from the settings panel. *)
Inductive RigEvent :=
  | AnimationFrame (a : R)
  | KeyDown (key : string)
  | SwitchCamera (type : string).

Variables modelHeight modelCenterY : R.

Definition rigStep (s : State * Rig) (e : RigEvent) : State * Rig :=
  match e with
  | AnimationFrame a => (fst s, updateCamera (camera (fst s)) a (snd s))
  | KeyDown key => (keydown modelHeight modelCenterY key (fst s), snd s)
  | SwitchCamera type => (fst s, switchCamera type (snd s))
  end.

End Frame.

(** The rig the viewer starts with, for a model whose centre is at
    height [modelCenterY] in a window of aspect ratio [aspect]. *)
Definition initialRig (modelCenterY aspect : R) : Rig :=
  let pose := {| position := {| x := 0; y := 3 / 10; z := 25 / 10 |};
                 quaternion := {| qx := 0; qy := 0; qz := 0; qw := 1 |} |} in
  {| currentAzimuth := 0;
     currentElevation := DEFAULT_ELEVATION;
     frustumSize := FRUSTUM_DEFAULT;
     orbitTarget := {| x := 0; y := modelCenterY; z := 0 |};
     orthoLeft := - FRUSTUM_DEFAULT * aspect / 2;
     orthoRight := FRUSTUM_DEFAULT * aspect / 2;
     orthoTop := FRUSTUM_DEFAULT / 2; orthoBottom := - FRUSTUM_DEFAULT / 2;
     perspFov := 40;
     orthoCamera := pose; perspCamera := pose;
     activeCamera := Ortho;
     cameraType := "Orthographic";
     passCameras := [Some Ortho; Some Ortho; Some Ortho; None; None; None; None];
     bokehPerspective := 0 |}.

(** *** The camera is on the orbit sphere *)

Lemma orbit_distance (ot : Vector3) (az el : R) :
  length (subVectors
            {| x := x ot + orbitRadius * sin az * cos el;
               y := y ot + orbitRadius * sin el;
               z := z ot + orbitRadius * cos az * cos el |} ot) = orbitRadius.
Proof.
  unfold length, subVectors, orbitRadius. cbn.
  pose proof (sin2_cos2 az) as Ha. pose proof (sin2_cos2 el) as He.
  unfold Rsqr in Ha, He.
  set (sa := sin az) in *. set (ca := cos az) in *.
  set (se := sin el) in *. set (ce := cos el) in *.
  replace ((x ot + 25 / 10 * sa * ce - x ot) * (x ot + 25 / 10 * sa * ce - x ot)
           + (y ot + 25 / 10 * se - y ot) * (y ot + 25 / 10 * se - y ot)
           + (z ot + 25 / 10 * ca * ce - z ot) * (z ot + 25 / 10 * ca * ce - z ot))
    with ((25 / 10) * (25 / 10)) by nsatz.
  apply sqrt_square. lra.
Qed.

Lemma activePose_updateCamera lookAt c a rig :
  position (activePose (updateCamera lookAt c a rig))
  = {| x := x (orbitTarget (updateCamera lookAt c a rig))
            + orbitRadius * sin (currentAzimuth (updateCamera lookAt c a rig))
              * cos (currentElevation (updateCamera lookAt c a rig));
       y := y (orbitTarget (updateCamera lookAt c a rig))
            + orbitRadius * sin (currentElevation (updateCamera lookAt c a rig));
       z := z (orbitTarget (updateCamera lookAt c a rig))
            + orbitRadius * cos (currentAzimuth (updateCamera lookAt c a rig))
              * cos (currentElevation (updateCamera lookAt c a rig)) |}.
Proof. unfold activePose, poseOf. cbn. by destruct (activeCamera rig). Qed.

Lemma activePose_switchCamera type rig :
  activePose (switchCamera type rig) = activePose rig.
Proof.
  unfold activePose at 1, poseOf, switchCamera. cbn.
  by destruct (String.eqb type "Orthographic").
Qed.

(** After a frame the active camera is at the distance [orbitRadius] =
    2.5 from the orbit target of that frame, whatever the angles and
    targets were; the orthographic frustum is symmetric about the view
    axis, as high as the frustum size and [a] times as wide, and the
    perspective field of view is 40 degrees per 2.2 units of frustum
    size.  A camera switch after the frame, to either camera or with any
    other string, hands the pose over: the camera then in use is at the
    same position with the same orientation, so still on the sphere. *)
Theorem updateCamera_puts_camera_on_orbit_sphere
    (lookAt : Vector3 -> Vector3 -> Quaternion) (c : Camera) (a : R) (rig : Rig)
    (type : string) :
  let rig' := updateCamera lookAt c a rig in
  length (subVectors (position (activePose rig')) (orbitTarget rig')) = 25 / 10
  /\ quaternion (activePose rig')
     = lookAt (position (activePose rig')) (orbitTarget rig')
  /\ orthoLeft rig' = - orthoRight rig' /\ orthoBottom rig' = - orthoTop rig'
  /\ orthoTop rig' - orthoBottom rig' = frustumSize rig'
  /\ orthoRight rig' - orthoLeft rig' = a * frustumSize rig'
  /\ perspFov rig' * (22 / 10) = 40 * frustumSize rig'
  /\ activePose (switchCamera type rig') = activePose rig'
  /\ orbitTarget (switchCamera type rig') = orbitTarget rig'
  /\ length (subVectors (position (activePose (switchCamera type rig')))
                        (orbitTarget (switchCamera type rig'))) = 25 / 10.
Proof.
  intros rig'.
  assert (Hd : length (subVectors (position (activePose rig')) (orbitTarget rig'))
               = 25 / 10).
  { unfold rig'. rewrite activePose_updateCamera. apply orbit_distance. }
  split; [exact Hd|].
  split; [unfold rig', activePose, poseOf; cbn; by destruct (activeCamera rig)|].
  unfold rig'. cbn. unfold FRUSTUM_DEFAULT.
  split; [lra|]. split; [lra|]. split; [lra|]. split; [lra|]. split; [lra|].
  split; [apply activePose_switchCamera|]. split; [done|].
  fold rig'. rewrite activePose_switchCamera. exact Hd.
Qed.

(** *** What stays true while keys, frames and camera switches alternate *)

Definition elevationInRange (e : R) : Prop :=
  DEFAULT_ELEVATION <= e <= ISO_ELEVATION.

(** Every pass that has a camera has the one in use, and the camera type
    and the define of the depth-of-field pass name it. *)
Definition passesFollow (rig : Rig) : Prop :=
  Forall (fun p => p = None \/ p = Some (activeCamera rig)) (passCameras rig)
  /\ cameraType rig
     = match activeCamera rig with Ortho => "Orthographic" | Persp => "Perspective" end%string
  /\ bokehPerspective rig
     = match activeCamera rig with Ortho => 0%Z | Persp => 1%Z end.

Definition knownType (e : RigEvent) : Prop :=
  match e with
  | SwitchCamera type => type = "Orthographic"%string \/ type = "Perspective"%string
  | _ => True
  end.

Definition rigInvariant (modelHeight modelCenterY : R) (s : State * Rig) : Prop :=
  Views.cameraConsistent modelHeight modelCenterY (camera (fst s))
  /\ elevationInRange (currentElevation (snd s))
  /\ 0 < frustumSize (snd s)
  /\ passesFollow (snd s).

Lemma approach_between (lo hi current target k : R) :
  0 <= k <= 1 -> lo <= current <= hi -> lo <= target <= hi ->
  lo <= approach current target k <= hi.
Proof. unfold approach. intros. nra. Qed.

Lemma approach_pos (current target k : R) :
  0 <= k <= 1 -> 0 < current -> 0 < target -> 0 < approach current target k.
Proof. unfold approach. intros. nra. Qed.

Lemma viewConsistent_elevation c :
  Views.viewConsistent c -> elevationInRange (targetElevation c).
Proof.
  intros (name & _ & _ & ->). unfold elevationInRange, ISO_ELEVATION, DEFAULT_ELEVATION.
  destruct (String.eqb name "Isometric"); lra.
Qed.

Lemma zoomConsistent_frustum modelHeight modelCenterY c :
  0 < modelHeight -> Views.zoomConsistent modelHeight modelCenterY c ->
  0 < targetFrustum c.
Proof.
  intros Hh [-> _]. unfold FRUSTUM_ZOOMED_CALC, FRUSTUM_DEFAULT.
  destruct (zoomed c); [|lra]. apply Rdiv_lt_0_compat; lra.
Qed.

Lemma passesFollow_switchCamera type rig :
  type = "Orthographic"%string \/ type = "Perspective"%string ->
  passesFollow (switchCamera type rig).
Proof.
  intros Ht. unfold passesFollow, switchCamera. cbn. split.
  - apply Forall_forall. intros p Hp. apply list_elem_of_fmap in Hp as (p0 & -> & _).
    destruct p0; [by right | by left].
  - by destruct Ht as [-> | ->].
Qed.

Lemma rigInvariant_step lookAt modelHeight modelCenterY s e :
  0 < modelHeight -> knownType e ->
  rigInvariant modelHeight modelCenterY s ->
  rigInvariant modelHeight modelCenterY (rigStep lookAt modelHeight modelCenterY s e).
Proof.
  intros Hh Hk (Hc & He & Hf & Hp). destruct e as [a | key | type]; cbn.
  - split; [exact Hc|]. destruct Hc as [Hv Hz]. split; [|split; [|exact Hp]].
    + apply approach_between; [lra | exact He | by apply viewConsistent_elevation].
    + apply approach_pos; [lra | exact Hf |].
      by apply (zoomConsistent_frustum modelHeight modelCenterY).
  - split; [by apply Views.keydown_consistent|]. done.
  - split; [exact Hc|]. split; [exact He|]. split; [exact Hf|].
    by apply passesFollow_switchCamera.
Qed.

Lemma three_lt_PI : 3 < PI.
Proof. pose proof PI2_3_2. lra. Qed.

(** Start with camera targets that are those of the current view and
    zoom flag, a current elevation between the two preset elevations
    0.15 and 0.55, a positive frustum size, a model of positive height,
    and passes that render with the camera in use.  Then after every
    sequence of frames, key presses and switches between the two camera
    types: the current elevation is still between 0.15 and 0.55 and the
    frustum size still positive; every pass that has a camera has the one
    in use, and the depth-of-field define is 1 exactly for the
    perspective camera.  The next frame puts the camera strictly above
    the height of the orbit target and gives the orthographic frustum a
    positive height and the perspective camera a positive field of
    view. *)
Theorem camera_stays_above_orbit_target
    (lookAt : Vector3 -> Vector3 -> Quaternion) (modelHeight modelCenterY : R)
    (events : list RigEvent) (s : State * Rig) (a : R) :
  0 < modelHeight ->
  Forall knownType events ->
  rigInvariant modelHeight modelCenterY s ->
  let s' := foldl (rigStep lookAt modelHeight modelCenterY) s events in
  let rig' := updateCamera lookAt (camera (fst s')) a (snd s') in
  15 / 100 <= currentElevation (snd s') <= 55 / 100
  /\ 0 < frustumSize (snd s')
  /\ Forall (fun p => p = None \/ p = Some (activeCamera (snd s'))) (passCameras (snd s'))
  /\ (bokehPerspective (snd s') = 1%Z <-> activeCamera (snd s') = Persp)
  /\ y (orbitTarget rig') < y (position (activePose rig'))
  /\ orthoBottom rig' < orthoTop rig'
  /\ 0 < perspFov rig'.
Proof.
  intros Hh Hev Hs s' rig'.
  assert (Hinv : rigInvariant modelHeight modelCenterY s').
  { unfold s'. clear s' rig'. revert s Hs.
    induction Hev as [|e events Hk _ IH]; intros s Hs; [done|].
    cbn. apply IH. by apply rigInvariant_step. }
  assert (Hnext : rigInvariant modelHeight modelCenterY (fst s', rig')).
  { apply (rigInvariant_step lookAt modelHeight modelCenterY s' (AnimationFrame a));
      [exact Hh | exact I | exact Hinv]. }
  destruct Hinv as (Hc & He & Hf & Hall & _ & Hb).
  destruct Hnext as (_ & He' & Hf' & _). cbn [fst snd] in He', Hf'.
  split; [exact He|]. split; [exact Hf|]. split; [exact Hall|].
  split; [rewrite Hb; by destruct (activeCamera (snd s'))|].
  split; [|split].
  - unfold rig' at 2. rewrite activePose_updateCamera. fold rig'. cbn [y].
    assert (0 < sin (currentElevation rig')); [|unfold orbitRadius; nra].
    unfold elevationInRange, DEFAULT_ELEVATION, ISO_ELEVATION in He'.
    pose proof three_lt_PI. apply sin_gt_0; lra.
  - change (orthoBottom rig') with (- frustumSize rig' / 2).
    change (orthoTop rig') with (frustumSize rig' / 2). lra.
  - change (perspFov rig') with (frustumSize rig' * (40 / FRUSTUM_DEFAULT)).
    unfold FRUSTUM_DEFAULT. lra.
Qed.

(** From the first state: a frame, the switch to the perspective camera,
    the left arrow (to the isometric view) and a zoom key. *)
Lemma camera_stays_above_orbit_target_case :
  let s' := foldl (rigStep (fun _ _ => identityQuaternion) 1 0) (twoCards, initialRig 0 (16 / 9))
              [AnimationFrame (16 / 9); SwitchCamera "Perspective"; KeyDown "ArrowLeft";
               KeyDown "z"] in
  let rig' := updateCamera (fun _ _ => identityQuaternion) (camera (fst s')) (16 / 9) (snd s') in
  activeCamera (snd s') = Persp
  /\ bokehPerspective (snd s') = 1%Z
  /\ y (orbitTarget rig') < y (position (activePose rig'))
  /\ 0 < perspFov rig'.
Proof.
  intros s' rig'.
  destruct (camera_stays_above_orbit_target (fun _ _ => identityQuaternion) 1 0
              [AnimationFrame (16 / 9); SwitchCamera "Perspective"; KeyDown "ArrowLeft";
               KeyDown "z"] (twoCards, initialRig 0 (16 / 9)) (16 / 9))
    as (_ & _ & _ & _ & Hy & _ & Hfov).
  - lra.
  - repeat (constructor; [first [exact I | by right]|]). constructor.
  - split; [split; [by exists "Front"%string | by split]|].
    split; [unfold elevationInRange, initialRig; cbn [snd currentElevation];
            unfold ISO_ELEVATION, DEFAULT_ELEVATION; lra|].
    split; [unfold initialRig; cbn [snd frustumSize]; unfold FRUSTUM_DEFAULT; lra|].
    split; [|by split]. cbn.
    repeat (constructor; [first [by left | by right]|]). constructor.
  - split; [reflexivity|]. split; [reflexivity|]. split; [exact Hy | exact Hfov].
Defined.

End Orbit.

(** * The eased animations

    [updateCamera] and [updateExplode] move a value a fixed fraction of
    the remaining way to its target on every frame. *)
Module Easing.
Import SceneGraph Keyboard Explode Orbit.
Local Open Scope R_scope.

Lemma approach_error (current target k : R) :
  approach current target k - target = (1 - k) * (current - target).
Proof. unfold approach. ring. Qed.

Lemma geometric_small (k d eps : R) :
  0 <= k < 1 -> 0 < eps ->
  exists N, forall n, (N <= n)%nat -> Rabs (k ^ n * d) < eps.
Proof.
  intros Hk Heps. destruct (Req_dec d 0) as [-> | Hd].
  - exists 0%nat. intros n _. rewrite Rmult_0_r, Rabs_R0. exact Heps.
  - assert (Hd' : 0 < Rabs d) by by apply Rabs_pos_lt.
    destruct (pow_lt_1_zero k) with (y := eps / Rabs d) as [N HN].
    + rewrite Rabs_pos_eq; lra.
    + by apply Rdiv_lt_0_compat.
    + exists N. intros n Hn. rewrite Rabs_mult.
      specialize (HN n Hn). apply (Rmult_lt_compat_r (Rabs d)) in HN; [|exact Hd'].
      replace (eps / Rabs d * Rabs d) with eps in HN by (field; lra). exact HN.
Qed.

Section Frames.

Variable lookAt : Vector3 -> Vector3 -> Quaternion.
Variable c : Camera.
Variable a : R.

(** [n] frames during which no event changes the targets. *)
Definition frames (n : nat) (rig : Rig) : Rig :=
  Nat.iter n (updateCamera lookAt c a) rig.

Lemma frames_errors n rig :
  currentAzimuth (frames n rig) - targetAzimuth c
  = (9 / 10) ^ n * (currentAzimuth rig - targetAzimuth c)
  /\ currentElevation (frames n rig) - targetElevation c
     = (92 / 100) ^ n * (currentElevation rig - targetElevation c)
  /\ frustumSize (frames n rig) - targetFrustum c
     = (92 / 100) ^ n * (frustumSize rig - targetFrustum c)
  /\ y (orbitTarget (frames n rig)) - targetOrbitY c
     = (92 / 100) ^ n * (y (orbitTarget rig) - targetOrbitY c)
  /\ x (orbitTarget (frames n rig)) = x (orbitTarget rig)
  /\ z (orbitTarget (frames n rig)) = z (orbitTarget rig).
Proof.
  induction n as [|n (IH1 & IH2 & IH3 & IH4 & IH5 & IH6)].
  - cbn. repeat split; lra.
  - unfold frames. rewrite Nat.iter_succ. fold (frames n rig).
    cbn [updateCamera currentAzimuth currentElevation frustumSize orbitTarget setY x y z].
    rewrite !approach_error, IH1, IH2, IH3, IH4. cbn [pow].
    repeat split; [lra | lra | lra | lra | exact IH5 | exact IH6].
Qed.

End Frames.

(** While the targets stay the same, each frame multiplies the distance
    of the current azimuth from its target by 0.9 and the distances of
    the current elevation, the frustum size and the orbit height from
    theirs by 0.92; the orbit target moves in height only.  So after [n]
    frames the distances are 0.9^n and 0.92^n times the first ones, and
    all four come and stay below any positive bound after finitely many
    frames. *)
Theorem updateCamera_approaches_targets
    (lookAt : Vector3 -> Vector3 -> Quaternion) (c : Camera) (a : R) (rig : Rig) :
  (forall n,
     currentAzimuth (frames lookAt c a n rig) - targetAzimuth c
     = (9 / 10) ^ n * (currentAzimuth rig - targetAzimuth c)
     /\ currentElevation (frames lookAt c a n rig) - targetElevation c
        = (92 / 100) ^ n * (currentElevation rig - targetElevation c)
     /\ frustumSize (frames lookAt c a n rig) - targetFrustum c
        = (92 / 100) ^ n * (frustumSize rig - targetFrustum c)
     /\ y (orbitTarget (frames lookAt c a n rig)) - targetOrbitY c
        = (92 / 100) ^ n * (y (orbitTarget rig) - targetOrbitY c)
     /\ x (orbitTarget (frames lookAt c a n rig)) = x (orbitTarget rig)
     /\ z (orbitTarget (frames lookAt c a n rig)) = z (orbitTarget rig))
  /\ (forall eps, 0 < eps ->
      exists N, forall n, (N <= n)%nat ->
        Rabs (currentAzimuth (frames lookAt c a n rig) - targetAzimuth c) < eps
        /\ Rabs (currentElevation (frames lookAt c a n rig) - targetElevation c) < eps
        /\ Rabs (frustumSize (frames lookAt c a n rig) - targetFrustum c) < eps
        /\ Rabs (y (orbitTarget (frames lookAt c a n rig)) - targetOrbitY c) < eps).
Proof.
  split; [intros n; apply frames_errors|].
  intros eps Heps.
  destruct (geometric_small (9 / 10) (currentAzimuth rig - targetAzimuth c) eps)
    as [N1 H1]; [lra | exact Heps |].
  destruct (geometric_small (92 / 100) (currentElevation rig - targetElevation c) eps)
    as [N2 H2]; [lra | exact Heps |].
  destruct (geometric_small (92 / 100) (frustumSize rig - targetFrustum c) eps)
    as [N3 H3]; [lra | exact Heps |].
  destruct (geometric_small (92 / 100) (y (orbitTarget rig) - targetOrbitY c) eps)
    as [N4 H4]; [lra | exact Heps |].
  exists (N1 + N2 + N3 + N4)%nat. intros n Hn.
  destruct (frames_errors lookAt c a n rig) as (-> & -> & -> & -> & _).
  split; [apply H1; lia|]. split; [apply H2; lia|]. split; [apply H3; lia | apply H4; lia].
Qed.

(** *** The explode animation *)

Lemma explodeT_frames parts n st :
  let st' := Nat.iter n (updateExplode parts) st in
  exploded st' = exploded st
  /\ explodeT st' - (if exploded st then 1 else 0)
     = (92 / 100) ^ n * (explodeT st - (if exploded st then 1 else 0)).
Proof.
  induction n as [|n [IH1 IH2]]; cbn zeta.
  - cbn. split; [done | lra].
  - rewrite Nat.iter_succ. cbn [updateExplode Explode.exploded explodeT].
    split; [exact IH1|]. unfold advance. rewrite IH1. cbn [pow].
    cbn zeta in IH2. lra.
Qed.

(** While the explode key is not pressed, [n] frames leave [exploded] as
    it is and multiply the distance of [explodeT] from its target (1
    when exploded, 0 when not) by 0.92^n: the distance comes and stays
    below any positive bound after finitely many frames, and over the
    reals it is never 0 unless it was 0 at the start. *)
Theorem updateExplode_approaches_target
    (parts : list ExplodePart) (st : ExplodeState) :
  let target := if Explode.exploded st then 1 else 0 in
  (forall n,
     let st' := Nat.iter n (updateExplode parts) st in
     Explode.exploded st' = Explode.exploded st
     /\ explodeT st' - target = (92 / 100) ^ n * (explodeT st - target)
     /\ (explodeT st' = target <-> explodeT st = target))
  /\ (forall eps, 0 < eps ->
      exists N, forall n, (N <= n)%nat ->
        Rabs (explodeT (Nat.iter n (updateExplode parts) st) - target) < eps).
Proof.
  intros target. split.
  - intros n st'. destruct (explodeT_frames parts n st) as [He Ht]. fold st' in He, Ht.
    fold target in Ht. split; [exact He|]. split; [exact Ht|].
    assert (Hpow : 0 < (92 / 100) ^ n) by (apply pow_lt; lra). split; intros H; nra.
  - intros eps Heps.
    destruct (geometric_small (92 / 100) (explodeT st - target) eps) as [N HN];
      [lra | exact Heps |].
    exists N. intros n Hn. destruct (explodeT_frames parts n st) as [_ Ht].
    cbn zeta in Ht. fold target in Ht. rewrite Ht. by apply HN.
Qed.

(** *** Where the parts settle *)

(** The position a part moves towards: its original position when the
    model is collapsed, and [EXPLODE_DISTANCE] along its direction when
    it is exploded. *)
Definition restPosition (exploded : bool) (p : ExplodePart) : Vector3 :=
  addScaledVector (originalPos p) (direction p)
    ((if exploded then 1 else 0) * EXPLODE_DISTANCE).

Lemma addScaledVector_difference v d s1 s2 :
  subVectors (addScaledVector v d s1) (addScaledVector v d s2)
  = multiplyScalar d (s1 - s2).
Proof. unfold subVectors, addScaledVector, multiplyScalar. cbn. f_equal; ring. Qed.

Lemma restPosition_collapsed p : restPosition false p = originalPos p.
Proof.
  unfold restPosition, addScaledVector. destruct (originalPos p) as [a b c]. cbn.
  f_equal; ring.
Qed.

(** For the parts built from a model whose meshes have parents with unit
    world orientations: while the explode key is not pressed, after the
    first frame every part has a position, and its distance from where
    it settles (the original position when collapsed, 0.3 along the
    direction when exploded) is 0.3 * 0.92^n * |explodeT - target| after
    [n] frames.  So all parts come and stay within any positive distance
    of their original positions after finitely many frames of a
    collapse, whatever [explodeT] was. *)
Theorem parts_settle_where_the_flag_says
    (boxCenter : Ref -> Vector3) (worldQuaternion : Ref -> Quaternion)
    (rootParentQuaternion : option Quaternion) (position : Ref -> Vector3)
    (root : Object3D) (st : ExplodeState) :
  (forall child q,
     parentQuaternion worldQuaternion rootParentQuaternion child = Some q ->
     unitQuaternion q) ->
  let parts :=
    buildExplodeParts boxCenter worldQuaternion rootParentQuaternion position root in
  let target := if Explode.exploded st then 1 else 0 in
  (forall n p, p ∈ parts ->
     exists pos,
       positions (Nat.iter (S n) (updateExplode parts) st) !! Explode.object p = Some pos
       /\ length (subVectors pos (restPosition (Explode.exploded st) p))
          = 3 / 10 * (92 / 100) ^ S n * Rabs (explodeT st - target))
  /\ (forall eps, 0 < eps ->
      exists N, forall n p, (N <= n)%nat -> p ∈ parts ->
        exists pos,
          positions (Nat.iter (S n) (updateExplode parts) st) !! Explode.object p
          = Some pos
          /\ length (subVectors pos (restPosition (Explode.exploded st) p)) < eps)
  /\ (Explode.exploded st = false ->
      forall p, restPosition (Explode.exploded st) p = originalPos p).
Proof.
  intros Hunit parts target.
  assert (Hdist : forall n p, p ∈ parts ->
            exists pos,
              positions (Nat.iter (S n) (updateExplode parts) st) !! Explode.object p
              = Some pos
              /\ length (subVectors pos (restPosition (Explode.exploded st) p))
                 = 3 / 10 * (92 / 100) ^ S n * Rabs (explodeT st - target)).
  { intros n p Hp.
    destruct (explodeT_frames parts (S n) st) as [_ Ht]. cbn zeta in Ht. fold target in Ht.
    rewrite Nat.iter_succ in Ht |- *.
    set (st1 := Nat.iter n (updateExplode parts) st) in *.
    eexists. split.
    { cbn [updateExplode positions]. apply placeParts_lookup; [|exact Hp].
      apply buildExplodeParts_functional. }
    unfold restPosition. rewrite addScaledVector_difference, length_multiplyScalar.
    assert (Hd : length (direction p) = 1).
    { apply buildExplodeParts_elem in Hp as (child & _ & _ & ->).
      unfold explodePart. cbn [direction].
      destruct (parentQuaternion _ _ _) as [q|] eqn:Hq.
      - rewrite applyQuaternion_length by (apply invert_unit; by eapply Hunit).
        apply worldDirection_length.
      - apply worldDirection_length. }
    rewrite Hd. fold target.
    change (advance (Explode.exploded st1) (explodeT st1))
      with (explodeT (updateExplode parts st1)).
    replace (explodeT (updateExplode parts st1) * EXPLODE_DISTANCE
             - target * EXPLODE_DISTANCE)
      with ((explodeT (updateExplode parts st1) - target) * EXPLODE_DISTANCE) by ring.
    rewrite Ht, !Rabs_mult. unfold EXPLODE_DISTANCE.
    rewrite (Rabs_pos_eq (3 / 10)) by lra.
    rewrite (Rabs_pos_eq ((92 / 100) ^ S n)) by (apply pow_le; lra). ring. }
  split; [exact Hdist|]. split.
  - intros eps Heps.
    destruct (geometric_small (92 / 100) (explodeT st - target) eps) as [N HN];
      [lra | exact Heps |].
    exists N. intros n p Hn Hp. destruct (Hdist n p Hp) as (pos & Hpos & Hlen).
    exists pos. split; [exact Hpos|]. rewrite Hlen.
    specialize (HN (S n) ltac:(lia)). rewrite Rabs_mult in HN.
    rewrite (Rabs_pos_eq ((92 / 100) ^ S n)) in HN by (apply pow_le; lra).
    assert (0 <= (92 / 100) ^ S n * Rabs (explodeT st - target)).
    { apply Rmult_le_pos; [apply pow_le; lra | apply Rabs_pos]. }
    lra.
  - intros -> p. apply restPosition_collapsed.
Qed.

(** The front panel of the panel model, collapsing from fully exploded:
    after the first frame it is 0.3 * 0.92 from its original position. *)
Lemma parts_settle_where_the_flag_says_case :
  exists pos,
    positions (updateExplode panelParts
                 {| Explode.exploded := false; explodeT := 1; positions := ∅ |})
      !! [0%nat] = Some pos
    /\ length (subVectors pos origin) = 3 / 10 * (92 / 100) ^ 1 * Rabs (1 - 0).
Proof.
  destruct (parts_settle_where_the_flag_says panelCenter (fun _ => cadOrientation)
              (Some identityQuaternion) (fun _ => origin) panelModel
              {| Explode.exploded := false; explodeT := 1; positions := ∅ |})
    as (Hd & _ & _).
  { intros [|i r] q Hq; cbn in Hq; injection Hq as <-.
    - unfold unitQuaternion, identityQuaternion. cbn. lra.
    - apply cadOrientation_unit. }
  fold panelParts in Hd.
  destruct (Hd 0%nat {| Explode.object := [0%nat]; originalPos := origin;
                        direction := {| x := 2 / 3; y := - (2 / 3); z := 1 / 3 |} |})
    as (pos & Hpos & Hlen).
  { rewrite panelParts_eq. apply list_elem_of_here. }
  exists pos. split; [exact Hpos|].
  unfold restPosition in Hlen.
  cbn [explodeT Explode.exploded originalPos direction] in Hlen.
  rewrite <- Hlen. do 2 f_equal. unfold addScaledVector, origin. cbn [x y z].
  f_equal; ring.
Defined.

End Easing.

(** * What a frame renders

    [animate] reads the scroll position and chooses the presets to
    apply; [updateDots] marks the dot of the nearest preset. *)
Module Frames.
Import Transition.
Local Open Scope Q_scope.

Record DotsView := {
  (** the ['active'] class of each dot button *)
  active : list bool;
  (** the text of the label element *)
  labelText : string }.

Section Dots.

Variable presets : list ContextPreset.
(** Whether the elements [context-dots] and [context-label] exist. *)
Variables dotsEl labelEl : bool.

(** The dot buttons as they are generated: the first one is active. *)
Definition generatedDots : list bool :=
  if dotsEl then imap (fun i _ => bool_decide (i = 0%nat)) presets else [].

(** [updateDots(activeIdx)]; [None] when [contexts[activeIdx]] is
    [undefined] and its name is read. *)
Definition updateDots (activeIdx : Z) (view : DotsView) : option DotsView :=
  if negb dotsEl then Some view
  else
    let active' := imap (fun i _ => (Z.of_nat i =? activeIdx)%Z) (active view) in
    if labelEl then
      match contextAt presets activeIdx with
      | Some ctx => Some {| active := active'; labelText := ctxName ctx |}
      | None => None
      end
    else Some {| active := active'; labelText := labelText view |}.

End Dots.

(** [Math.round(scrollPosition)]. *)
Definition round (scrollPosition : Q) : Z := Qfloor (scrollPosition + (1 # 2)).

Lemma foldl_handle_inRange presets dotsEl inputs : forall pos,
  presets <> [] -> inRange presets pos ->
  inRange presets (foldl (handle presets dotsEl) pos inputs).
Proof.
  induction inputs as [|i inputs IH]; intros pos Hne Hpos; [done|].
  cbn. apply IH; [done|]. by apply handle_inRange.
Qed.

Lemma lastIndex_inject presets :
  lastIndex presets == inject_Z (Z.of_nat (length presets) - 1).
Proof. unfold lastIndex, Z.sub. rewrite inject_Z_plus, inject_Z_opp. reflexivity. Qed.

Lemma floor_inRange presets pos :
  inRange presets pos -> (0 <= Qfloor pos <= Z.of_nat (length presets) - 1)%Z.
Proof.
  intros [H0 Hn]. split.
  - change 0%Z with (Qfloor 0). by apply Qfloor_resp_le.
  - rewrite lastIndex_inject in Hn. apply Qfloor_resp_le in Hn.
    by rewrite Qfloor_Z in Hn.
Qed.

Lemma round_inRange presets pos :
  inRange presets pos -> (0 <= round pos <= Z.of_nat (length presets) - 1)%Z.
Proof.
  intros [H0 Hn]. unfold round. split.
  - change 0%Z with (Qfloor 0). apply Qfloor_resp_le. Lqa.lra.
  - rewrite lastIndex_inject in Hn.
    pose proof (Qfloor_le (pos + (1 # 2))) as Hf.
    assert (Hlt : inject_Z (Qfloor (pos + (1 # 2)))
                  < inject_Z (Z.of_nat (length presets) - 1 + 1)).
    { rewrite inject_Z_plus. change (inject_Z 1) with 1. Lqa.lra. }
    rewrite <- Zlt_Qlt in Hlt. lia.
Qed.

Lemma round_nearest pos : - (1 # 2) <= pos - inject_Z (round pos) < 1 # 2.
Proof.
  unfold round. pose proof (Qfloor_le (pos + (1 # 2))) as Hl.
  pose proof (Qlt_floor (pos + (1 # 2))) as Hu.
  rewrite inject_Z_plus in Hu. change (inject_Z 1) with 1 in Hu. split; Lqa.lra.
Qed.

Lemma progress_range pos : 0 <= progress pos < 1.
Proof.
  unfold progress, fromIdx. pose proof (Qfloor_le pos) as Hl.
  pose proof (Qlt_floor pos) as Hu.
  rewrite inject_Z_plus in Hu. change (inject_Z 1) with 1 in Hu. split; Lqa.lra.
Qed.

Lemma contextAt_Some presets i :
  (0 <= i <= Z.of_nat (length presets) - 1)%Z -> is_Some (contextAt presets i).
Proof.
  intros Hi. unfold contextAt. rewrite (proj2 (Z.leb_le 0 i)) by lia.
  apply lookup_lt_is_Some_2. lia.
Qed.

Lemma midTransition_iff presets pos :
  inRange presets pos ->
  (midTransition presets pos = true <-> 1 # 1000 < progress pos)
  /\ (1 # 1000 < progress pos -> toIdx presets pos = (fromIdx pos + 1)%Z).
Proof.
  intros Hpos.
  assert (Hto : 1 # 1000 < progress pos -> toIdx presets pos = (fromIdx pos + 1)%Z).
  { intros Hp. unfold toIdx, progress, fromIdx in *. destruct Hpos as [_ Hn].
    rewrite lastIndex_inject in Hn.
    assert (Hlt : inject_Z (Qfloor pos) < inject_Z (Z.of_nat (length presets) - 1))
      by Lqa.lra.
    rewrite <- Zlt_Qlt in Hlt. lia. }
  split; [|exact Hto]. unfold midTransition. rewrite andb_true_iff, !negb_true_iff.
  split.
  - intros [Hp _]. apply Qnot_le_lt. intros Hle. apply Qle_bool_iff in Hle. congruence.
  - intros Hp. split.
    + destruct (Qle_bool (progress pos) (1 # 1000)) eqn:E; [|done].
      apply Qle_bool_iff in E. Lqa.lra.
    + rewrite (Hto Hp). apply Z.eqb_neq. lia.
Qed.

(** With at least one preset, at every scroll position reached from 0 by
    wheel events and dot clicks, the frame finds what it reads: both
    [contexts[fromIdx]] and [contexts[toIdx]] exist, the fraction is in
    [0, 1), and the index given to [updateDots] is that of an existing
    preset, the one nearest to the position (the upper one half-way).
    The frame is mid-transition exactly when the fraction exceeds 0.001
    (the test [fromIdx !== toIdx] never decides), and then [toIdx] is
    [fromIdx + 1].  [updateDots] does not fail; when the dots element
    exists, the one dot with the rounded index is active afterwards and
    the label, when it exists, shows that preset's name. *)
Theorem frame_reads_existing_presets
    (presets : list ContextPreset) (dotsEl labelEl : bool)
    (inputs : list Input) (view : DotsView) :
  presets <> [] ->
  let pos := foldl (handle presets dotsEl) 0 inputs in
  (exists cf ct nearest,
     contextAt presets (fromIdx pos) = Some cf
     /\ contextAt presets (toIdx presets pos) = Some ct
     /\ contextAt presets (round pos) = Some nearest
     /\ - (1 # 2) <= pos - inject_Z (round pos) < 1 # 2
     /\ exists view',
          updateDots presets dotsEl labelEl (round pos) view = Some view'
          /\ (dotsEl = false -> view' = view)
          /\ (dotsEl = true ->
              length (active view') = length (active view)
              /\ (forall i b, active view' !! i = Some b ->
                    (b = true <-> Z.of_nat i = round pos))
              /\ labelText view' = if labelEl then ctxName nearest else labelText view))
  /\ 0 <= progress pos < 1
  /\ (midTransition presets pos = true <-> 1 # 1000 < progress pos)
  /\ (midTransition presets pos = true -> toIdx presets pos = (fromIdx pos + 1)%Z).
Proof.
  intros Hne pos.
  assert (Hpos : inRange presets pos).
  { apply foldl_handle_inRange; [done|]. split; [apply Qle_refl|].
    by apply lastIndex_nonneg. }
  clearbody pos.
  pose proof (floor_inRange presets pos Hpos) as Hf.
  pose proof (round_inRange presets pos Hpos) as Hr.
  destruct (midTransition_iff presets pos Hpos) as [Hmid Hto].
  split; [|split; [apply progress_range | split; [exact Hmid|]]].
  - destruct (contextAt_Some presets (fromIdx pos)) as [cf Hcf]; [exact Hf|].
    destruct (contextAt_Some presets (toIdx presets pos)) as [ct Hct].
    { unfold toIdx, fromIdx. lia. }
    destruct (contextAt_Some presets (round pos)) as [nearest Hnear]; [exact Hr|].
    exists cf, ct, nearest. split; [done|]. split; [done|]. split; [done|].
    split; [apply round_nearest|].
    unfold updateDots. rewrite Hnear. destruct dotsEl; cbn.
    + destruct labelEl; eexists; (split; [reflexivity|]); (split; [done|]); intros _;
        cbn; (split; [apply length_imap|]); (split; [|done]); intros i b Hi;
        rewrite list_lookup_imap in Hi; destruct (active view !! i); cbn in Hi;
        try done; injection Hi as <-; apply Z.eqb_eq.
    + exists view. done.
  - intros Hm. apply Hto. by apply Hmid.
Qed.

(** The ten presets: after a scroll of 600 units the position is 3/2;
    the frame wipes from Marble to Minimal and marks the third dot. *)
Lemma frame_reads_existing_presets_case :
  let pos := foldl (handle contexts true) 0 [Wheel 600] in
  pos == 3 # 2
  /\ midTransition contexts pos = true
  /\ toIdx contexts pos = (fromIdx pos + 1)%Z
  /\ updateDots contexts true true (round pos)
       {| active := generatedDots contexts true; labelText := "" |}
     = Some {| active := [false; false; true; false; false; false; false; false;
                          false; false];
               labelText := "Minimal" |}.
Proof.
  intros pos.
  destruct (frame_reads_existing_presets contexts true true [Wheel 600]
              {| active := generatedDots contexts true; labelText := "" |})
    as (_ & _ & _ & Hto); [discriminate|].
  split; [reflexivity|]. split; [reflexivity|]. split; [by apply Hto | reflexivity].
Defined.

End Frames.

(** * The curtain wipe

    The fragment shader of [wipeMaterial], with exact rational
    arithmetic in place of the GPU's floats.  [tA] holds the frame of the
    preset scrolled away from and [tB] that of the one scrolled to. *)
Module Wipe.
Import Transition.
Local Open Scope Q_scope.

(** The value [t] the shader computes for a fragment at [(ux, uy)]. *)
Definition wipeField (direction : Z) (ux uy : Q) : Q :=
  if (direction =? 0)%Z then 1 - uy
  else if (direction =? 1)%Z then uy
  else if (direction =? 2)%Z then ux
  else if (direction =? 3)%Z then 1 - ux
  else if (direction =? 4)%Z then (ux + 1 - uy) / 2
  else if (direction =? 5)%Z then (1 - ux + 1 - uy) / 2
  else if (direction =? 6)%Z then (ux * (1 # 2) + (1 - uy)) / (3 # 2)
  else ((1 - ux) * (1 # 2) + uy) / (3 # 2).

(** GLSL's [step(edge, x)]: 0 when [x < edge], else 1. *)
Definition step (edge x : Q) : Q :=
  if Qle_bool edge x then 1 else 0.

(** GLSL's [mix(a, b, m)], on one colour channel. *)
Definition mix (a b m : Q) : Q := a * (1 - m) + b * m.

Definition mask (direction : Z) (progress ux uy : Q) : Q :=
  step (wipeField direction ux uy) progress.

(** One channel of [gl_FragColor], from the channels of the two texels. *)
Definition fragColor (direction : Z) (progress ux uy a b : Q) : Q :=
  mix a b (mask direction progress ux uy).

(** The corner of the screen the wipe starts from, and the opposite one. *)
Definition firstCorner (direction : Z) : Q * Q :=
  if (direction =? 0)%Z then (0, 1)
  else if (direction =? 1)%Z then (0, 0)
  else if (direction =? 2)%Z then (0, 0)
  else if (direction =? 3)%Z then (1, 0)
  else if (direction =? 4)%Z then (0, 1)
  else if (direction =? 5)%Z then (1, 1)
  else if (direction =? 6)%Z then (0, 1)
  else (1, 0).

Definition lastCorner (direction : Z) : Q * Q :=
  (1 - fst (firstCorner direction), 1 - snd (firstCorner direction)).

Lemma half_of (q : Q) : q / 2 == q * (1 # 2).
Proof. field. Qed.

Lemma two_thirds_of (q : Q) : q / (3 # 2) == q * (2 # 3).
Proof. field. Qed.

Lemma wipeField_range direction ux uy :
  0 <= ux <= 1 -> 0 <= uy <= 1 -> 0 <= wipeField direction ux uy <= 1.
Proof.
  intros Hx Hy. unfold wipeField.
  repeat (match goal with |- context [(direction =? ?k)%Z] =>
            destruct (direction =? k)%Z end);
    rewrite ?half_of, ?two_thirds_of; Lqa.lra.
Qed.

Lemma wipeField_corners direction :
  wipeField direction (fst (firstCorner direction)) (snd (firstCorner direction)) == 0
  /\ wipeField direction (fst (lastCorner direction)) (snd (lastCorner direction)) == 1.
Proof.
  unfold lastCorner, firstCorner, wipeField.
  repeat (match goal with |- context [(direction =? ?k)%Z] =>
            destruct (direction =? k)%Z end); split; reflexivity.
Qed.

Lemma step_cases edge x :
  (x < edge /\ step edge x = 0) \/ (edge <= x /\ step edge x = 1).
Proof.
  unfold step. destruct (Qle_bool edge x) eqn:E.
  - right. split; [by apply Qle_bool_iff | done].
  - left. split; [|done]. apply Qnot_le_lt. intros H. apply Qle_bool_iff in H. congruence.
Qed.

(** For a fragment inside the screen and any direction number (all but
    0..6 run the last branch): [t] lies in [0, 1]; the fragment shows
    the texel of [tA] while [progress < t] and that of [tB] from
    [progress = t] on, never a blend; and what [tB] has uncovered stays
    uncovered when progress grows.  The directions 0/1, 2/3 and 6/7 are
    each other's reverse and 5 is 4 mirrored left to right. *)
Theorem wipe_uncovers_each_fragment_once
    (direction : Z) (progress progress' ux uy a b : Q) :
  0 <= ux <= 1 -> 0 <= uy <= 1 ->
  let t := wipeField direction ux uy in
  0 <= t <= 1
  /\ ((progress < t /\ mask direction progress ux uy = 0
       /\ fragColor direction progress ux uy a b == a)
      \/ (t <= progress /\ mask direction progress ux uy = 1
          /\ fragColor direction progress ux uy a b == b))
  /\ (progress <= progress' ->
      mask direction progress ux uy = 1 -> mask direction progress' ux uy = 1)
  /\ wipeField 1 ux uy == 1 - wipeField 0 ux uy
  /\ wipeField 3 ux uy == 1 - wipeField 2 ux uy
  /\ wipeField 7 ux uy == 1 - wipeField 6 ux uy
  /\ wipeField 5 ux uy == wipeField 4 (1 - ux) uy.
Proof.
  intros Hx Hy t. split; [by apply wipeField_range|]. split; [|split].
  - unfold fragColor, mix, mask. fold t.
    destruct (step_cases t progress) as [[Hlt ->] | [Hle ->]].
    + left. split; [done|]. split; [done|]. ring.
    + right. split; [done|]. split; [done|]. ring.
  - intros Hpp. unfold mask. fold t.
    destruct (step_cases t progress) as [[_ ->] | [Hle _]]; [done|]. intros _.
    destruct (step_cases t progress') as [[Hlt _] | [_ ->]]; [|done]. Lqa.lra.
  - unfold wipeField. cbn.
    split; [ring|]. split; [ring|]. split; [field | field].
Qed.

(** The diagonal wipe at progress 1/2 on the diagonal of the screen. *)
Lemma wipe_uncovers_each_fragment_once_case :
  wipeField 4 (1 # 4) (1 # 4) == 1 # 2
  /\ mask 4 (1 # 2) (1 # 4) (1 # 4) = 1
  /\ mask 4 (49 # 100) (1 # 4) (1 # 4) = 0
  /\ 0 <= wipeField 4 (1 # 4) (1 # 4) <= 1.
Proof.
  pose proof (wipe_uncovers_each_fragment_once 4 (1 # 2) 1 (1 # 4) (1 # 4) 0 1) as H.
  destruct H as (Hr & _); [split; discriminate | split; discriminate |].
  split; [reflexivity|]. split; [reflexivity|]. split; [reflexivity | exact Hr].
Defined.

(** In a mid-transition frame at a scroll position reached from 0, the
    progress handed to the shader is above 0.001 and below 1, so for
    every direction both presets are on screen: the corner the wipe
    starts from shows [tB] and the opposite corner shows [tA]. *)
Theorem mid_transition_shows_both_presets
    (presets : list ContextPreset) (dotsEl : bool) (inputs : list Input)
    (direction : Z) (a b : Q) :
  let pos := foldl (handle presets dotsEl) 0 inputs in
  midTransition presets pos = true ->
  In (SetWipeUniforms (progress pos) direction) (renderFrame presets direction pos)
  /\ 1 # 1000 < progress pos < 1
  /\ fragColor direction (progress pos)
       (fst (firstCorner direction)) (snd (firstCorner direction)) a b == b
  /\ fragColor direction (progress pos)
       (fst (lastCorner direction)) (snd (lastCorner direction)) a b == a.
Proof.
  intros pos Hmid. clearbody pos.
  assert (Hp : 1 # 1000 < progress pos < 1).
  { split; [|apply Frames.progress_range]. unfold midTransition in Hmid.
    apply andb_true_iff in Hmid as [Hmid _]. apply negb_true_iff in Hmid.
    apply Qnot_le_lt. intros Hle. apply Qle_bool_iff in Hle. congruence. }
  split.
  { unfold renderFrame. rewrite Hmid. cbn. tauto. }
  split; [exact Hp|].
  destruct (wipeField_corners direction) as [H0 H1].
  unfold fragColor, mix, mask. split.
  - destruct (step_cases (wipeField direction (fst (firstCorner direction))
                            (snd (firstCorner direction))) (progress pos))
      as [[Hlt _] | [_ ->]]; [|ring].
    rewrite H0 in Hlt. Lqa.lra.
  - destruct (step_cases (wipeField direction (fst (lastCorner direction))
                            (snd (lastCorner direction))) (progress pos))
      as [[_ ->] | [Hle _]]; [ring|].
    rewrite H1 in Hle. Lqa.lra.
Qed.

(** The ten presets, 600 units of scroll, the wipe from the top. *)
Lemma mid_transition_shows_both_presets_case :
  progress (foldl (handle contexts true) 0 [Wheel 600]) == 1 # 2
  /\ fragColor 0 (progress (foldl (handle contexts true) 0 [Wheel 600])) 0 1 0 1 == 1
  /\ fragColor 0 (progress (foldl (handle contexts true) 0 [Wheel 600])) 1 0 0 1 == 0.
Proof.
  destruct (mid_transition_shows_both_presets contexts true [Wheel 600] 0 0 1)
    as (_ & _ & Hb & Ha); [reflexivity|].
  split; [reflexivity|]. split; [exact Hb | exact Ha].
Defined.

End Wipe.

(** * Fitting the loaded model

    [loadModel] turns the model root, scales it by the reciprocal of the
    largest side of its world bounding box, and moves it so that the box
    is centred over the origin and stands on the ground.  Numbers are
    reals. *)
Module LoadModel.
Import Explode.
Local Open Scope R_scope.

Record Box3 := { boxMin : Vector3; boxMax : Vector3 }.

(** [Box3.expandByPoint]. *)
Definition expandByPoint (b : Box3) (p : Vector3) : Box3 :=
  {| boxMin := {| x := Rmin (x (boxMin b)) (x p);
                  y := Rmin (y (boxMin b)) (y p);
                  z := Rmin (z (boxMin b)) (z p) |};
     boxMax := {| x := Rmax (x (boxMax b)) (x p);
                  y := Rmax (y (boxMax b)) (y p);
                  z := Rmax (z (boxMax b)) (z p) |} |}.

(** The box of a set of points that is not empty. *)
Definition setFromPoints (p0 : Vector3) (ps : list Vector3) : Box3 :=
  foldl expandByPoint {| boxMin := p0; boxMax := p0 |} ps.

Definition getSize (b : Box3) : Vector3 := subVectors (boxMax b) (boxMin b).

Definition getCenter (b : Box3) : Vector3 :=
  {| x := (x (boxMin b) + x (boxMax b)) * (1 / 2);
     y := (y (boxMin b) + y (boxMax b)) * (1 / 2);
     z := (z (boxMin b) + z (boxMax b)) * (1 / 2) |}.

(** Orientation, uniform scale and position of the model root, which
    has no parent while [loadModel] measures it. *)
Record Transform := {
  rotation : Quaternion;
  scale : R;
  position : Vector3 }.

(** Where the root's transform puts a point of the model. *)
Definition toWorld (t : Transform) (v : Vector3) : Vector3 :=
  addScaledVector (position t) (applyQuaternion v (rotation t)) (scale t).

Section Model.

(** The points that span the model's box, in the frame of the root: the
    corners of the local bounding boxes of its meshes.  There is at
    least one. *)
Variable corner0 : Vector3.
Variable corners : list Vector3.

(** [new THREE.Box3().setFromObject(m)]. *)
Definition setFromObject (t : Transform) : Box3 :=
  setFromPoints (toWorld t corner0) (map (toWorld t) corners).

(** [Math.max(size.x, size.y, size.z)]. *)
Definition maxDim (b : Box3) : R :=
  Rmax (Rmax (x (getSize b)) (y (getSize b))) (z (getSize b)).

Definition rotated (t : Transform) : Transform :=
  {| rotation := cadOrientation; scale := scale t; position := position t |}.

(** The transform [loadModel] gives the root [m] of a loaded scene that
    arrives with the transform [t]. *)
Definition fitModel (t : Transform) : Transform :=
  let t1 := rotated t in
  let box := setFromObject t1 in
  let scale' := 1 / maxDim box in
  let t2 := {| rotation := rotation t1; scale := scale'; position := position t1 |} in
  let scaledBox := setFromObject t2 in
  let scaledCenter := getCenter scaledBox in
  {| rotation := rotation t2; scale := scale';
     position := {| x := x (position t2) - x scaledCenter;
                    y := y (position t2) - y (boxMin scaledBox);
                    z := z (position t2) - z scaledCenter |} |}.

End Model.

(** *** The box of a scaled and moved point set *)

Lemma Rmin_affine (a s m r : R) :
  0 <= s -> Rmin (a + m * s) (a + r * s) = a + Rmin m r * s.
Proof.
  intros Hs. unfold Rmin.
  destruct (Rle_dec m r), (Rle_dec (a + m * s) (a + r * s)); try lra; nra.
Qed.

Lemma Rmax_affine (a s m r : R) :
  0 <= s -> Rmax (a + m * s) (a + r * s) = a + Rmax m r * s.
Proof.
  intros Hs. unfold Rmax.
  destruct (Rle_dec m r), (Rle_dec (a + m * s) (a + r * s)); try lra; nra.
Qed.

Lemma foldl_expandByPoint (b : Box3) (ps : list Vector3) :
  x (boxMin (foldl expandByPoint b ps)) = foldl Rmin (x (boxMin b)) (map x ps)
  /\ y (boxMin (foldl expandByPoint b ps)) = foldl Rmin (y (boxMin b)) (map y ps)
  /\ z (boxMin (foldl expandByPoint b ps)) = foldl Rmin (z (boxMin b)) (map z ps)
  /\ x (boxMax (foldl expandByPoint b ps)) = foldl Rmax (x (boxMax b)) (map x ps)
  /\ y (boxMax (foldl expandByPoint b ps)) = foldl Rmax (y (boxMax b)) (map y ps)
  /\ z (boxMax (foldl expandByPoint b ps)) = foldl Rmax (z (boxMax b)) (map z ps).
Proof.
  revert b. induction ps as [|p ps IH]; intros b; [done|].
  cbn [foldl map]. destruct (IH (expandByPoint b p)) as (-> & -> & -> & -> & -> & ->).
  done.
Qed.

Lemma foldl_Rmin_affine (a s m : R) (rs : list R) :
  0 <= s ->
  foldl Rmin (a + m * s) (map (fun r => a + r * s) rs) = a + foldl Rmin m rs * s.
Proof.
  intros Hs. revert m. induction rs as [|r rs IH]; intros m; [done|].
  cbn [foldl map]. rewrite Rmin_affine by done. apply IH.
Qed.

Lemma foldl_Rmax_affine (a s m : R) (rs : list R) :
  0 <= s ->
  foldl Rmax (a + m * s) (map (fun r => a + r * s) rs) = a + foldl Rmax m rs * s.
Proof.
  intros Hs. revert m. induction rs as [|r rs IH]; intros m; [done|].
  cbn [foldl map]. rewrite Rmax_affine by done. apply IH.
Qed.

Lemma foldl_Rmin_le_Rmax (m : R) (rs : list R) : foldl Rmin m rs <= foldl Rmax m rs.
Proof.
  assert (H : forall lo hi, lo <= hi -> foldl Rmin lo rs <= foldl Rmax hi rs).
  { induction rs as [|r rs IH]; intros lo hi Hle; [done|].
    cbn. apply IH. unfold Rmin, Rmax.
    destruct (Rle_dec lo r), (Rle_dec hi r); lra. }
  apply H. lra.
Qed.

(** The box of the model in the frame of the root turned by [q]: what
    [setFromObject] measures at scale 1 and position 0. *)
Definition localBox (q : Quaternion) (corner0 : Vector3) (corners : list Vector3) : Box3 :=
  setFromPoints (applyQuaternion corner0 q) (map (fun v => applyQuaternion v q) corners).

Lemma Box3_eq (b1 b2 : Box3) :
  x (boxMin b1) = x (boxMin b2) -> y (boxMin b1) = y (boxMin b2) ->
  z (boxMin b1) = z (boxMin b2) -> x (boxMax b1) = x (boxMax b2) ->
  y (boxMax b1) = y (boxMax b2) -> z (boxMax b1) = z (boxMax b2) -> b1 = b2.
Proof.
  destruct b1 as [[] []], b2 as [[] []]. cbn. intros. by subst.
Qed.

Lemma setFromObject_affine corner0 corners t :
  0 <= scale t ->
  let b := localBox (rotation t) corner0 corners in
  setFromObject corner0 corners t
  = {| boxMin := addScaledVector (position t) (boxMin b) (scale t);
       boxMax := addScaledVector (position t) (boxMax b) (scale t) |}.
Proof.
  intros Hs b.
  destruct (foldl_expandByPoint
              {| boxMin := toWorld t corner0; boxMax := toWorld t corner0 |}
              (map (toWorld t) corners)) as (H1 & H2 & H3 & H4 & H5 & H6).
  destruct (foldl_expandByPoint
              {| boxMin := applyQuaternion corner0 (rotation t);
                 boxMax := applyQuaternion corner0 (rotation t) |}
              (map (fun v => applyQuaternion v (rotation t)) corners))
    as (L1 & L2 & L3 & L4 & L5 & L6).
  apply Box3_eq; unfold b, setFromObject, localBox, setFromPoints;
    cbn [boxMin boxMax addScaledVector x y z];
    rewrite ?H1, ?H2, ?H3, ?H4, ?H5, ?H6, ?L1, ?L2, ?L3, ?L4, ?L5, ?L6;
    cbn [boxMin boxMax];
    rewrite <- ?foldl_Rmin_affine, <- ?foldl_Rmax_affine by exact Hs;
    rewrite !map_map; reflexivity.
Qed.

Lemma Rmax_scale (m r s : R) : 0 <= s -> Rmax (m * s) (r * s) = Rmax m r * s.
Proof.
  intros Hs. unfold Rmax. destruct (Rle_dec m r), (Rle_dec (m * s) (r * s)); try lra; nra.
Qed.

Lemma maxDim_affine (p : Vector3) (b : Box3) (s : R) :
  0 <= s ->
  maxDim {| boxMin := addScaledVector p (boxMin b) s;
            boxMax := addScaledVector p (boxMax b) s |}
  = maxDim b * s.
Proof.
  intros Hs. unfold maxDim, getSize, subVectors, addScaledVector. cbn [boxMin boxMax x y z].
  rewrite <- !Rmax_scale by exact Hs. f_equal; [f_equal|]; ring.
Qed.

Lemma foldl_Rmin_le_init (m : R) (rs : list R) : foldl Rmin m rs <= m.
Proof.
  revert m. induction rs as [|r0 rs IH]; intros m; cbn; [lra|].
  apply Rle_trans with (Rmin m r0); [apply IH | apply Rmin_l].
Qed.

Lemma foldl_Rmin_lower (m : R) (rs : list R) (r : R) :
  r = m \/ In r rs -> foldl Rmin m rs <= r.
Proof.
  revert m. induction rs as [|r0 rs IH]; intros m [-> | Hin].
  - cbn. lra.
  - destruct Hin.
  - apply foldl_Rmin_le_init.
  - cbn [foldl]. destruct Hin as [-> | Hin].
    + apply Rle_trans with (Rmin m r); [apply foldl_Rmin_le_init | apply Rmin_r].
    + apply IH. by right.
Qed.

(** For a loaded scene whose root arrives with a positive scale and
    whose world box has a positive largest side: the scale given to the
    root is positive, and the world box of the fitted model has the
    largest side 1 / (the scale it arrived with), which is 1 for the
    scale 1 of a fresh scene; its centre lies over the origin (x = z =
    0), its underside is at height 0, so its centre is at half its
    height, and no corner of the model is below the ground. *)
Theorem loadModel_fits_centres_and_grounds
    (corner0 : Vector3) (corners : list Vector3) (t : Transform) :
  0 < scale t ->
  0 < maxDim (setFromObject corner0 corners (rotated t)) ->
  let t' := fitModel corner0 corners t in
  let modelBox := setFromObject corner0 corners t' in
  0 < scale t'
  /\ rotation t' = cadOrientation
  /\ maxDim modelBox * scale t = 1
  /\ x (getCenter modelBox) = 0 /\ z (getCenter modelBox) = 0
  /\ y (boxMin modelBox) = 0
  /\ 0 <= y (getSize modelBox) <= maxDim modelBox
  /\ y (getCenter modelBox) = y (getSize modelBox) / 2
  /\ (forall v, v = corner0 \/ In v corners -> 0 <= y (toWorld t' v)).
Proof.
  intros Hs0 Hd t' modelBox.
  set (b := localBox cadOrientation corner0 corners).
  assert (H1 : setFromObject corner0 corners (rotated t)
               = {| boxMin := addScaledVector (position t) (boxMin b) (scale t);
                    boxMax := addScaledVector (position t) (boxMax b) (scale t) |}).
  { apply (setFromObject_affine corner0 corners (rotated t)). cbn. lra. }
  rewrite H1, maxDim_affine in Hd by lra.
  assert (He : 0 < maxDim b) by nra.
  set (s' := 1 / (maxDim b * scale t)).
  assert (Hs' : 0 < s').
  { unfold s'. apply Rdiv_lt_0_compat; [lra | nra]. }
  set (t2 := {| rotation := cadOrientation; scale := s'; position := position t |}).
  assert (H2 : setFromObject corner0 corners t2
               = {| boxMin := addScaledVector (position t) (boxMin b) s';
                    boxMax := addScaledVector (position t) (boxMax b) s' |}).
  { apply (setFromObject_affine corner0 corners t2). cbn. lra. }
  assert (Ht' : t' = {| rotation := cadOrientation; scale := s';
                        position :=
                          {| x := x (position t)
                                  - x (getCenter (setFromObject corner0 corners t2));
                             y := y (position t)
                                  - y (boxMin (setFromObject corner0 corners t2));
                             z := z (position t)
                                  - z (getCenter (setFromObject corner0 corners t2)) |} |}).
  { unfold t', fitModel. cbn zeta. rewrite H1, maxDim_affine by lra. reflexivity. }
  assert (H3 : modelBox
               = {| boxMin := addScaledVector (position t') (boxMin b) s';
                    boxMax := addScaledVector (position t') (boxMax b) s' |}).
  { unfold modelBox. rewrite (setFromObject_affine corner0 corners t');
      rewrite Ht'; cbn [rotation scale position]; [reflexivity | lra]. }
  assert (Hy : y (boxMin b) <= y (boxMax b)).
  { destruct (foldl_expandByPoint
                {| boxMin := applyQuaternion corner0 cadOrientation;
                   boxMax := applyQuaternion corner0 cadOrientation |}
                (map (fun v => applyQuaternion v cadOrientation) corners))
      as (_ & L2 & _ & _ & L5 & _).
    unfold b, localBox, setFromPoints. rewrite L2, L5. apply foldl_Rmin_le_Rmax. }
  split; [by rewrite Ht'|]. split; [by rewrite Ht'|].
  assert (Hmax : maxDim modelBox = maxDim b * s').
  { rewrite H3. apply maxDim_affine. lra. }
  assert (Hpos : position t'
                 = {| x := - ((x (boxMin b) + x (boxMax b)) * (1 / 2)) * s';
                      y := - y (boxMin b) * s';
                      z := - ((z (boxMin b) + z (boxMax b)) * (1 / 2)) * s' |}).
  { rewrite Ht', H2. unfold getCenter, addScaledVector. cbn [position boxMin boxMax x y z].
    f_equal; field. }
  split.
  { rewrite Hmax. unfold s'. field. split; lra. }
  assert (Hsz : 0 <= y (getSize modelBox) <= maxDim modelBox).
  { split; [|unfold maxDim; apply Rle_trans with
                (Rmax (x (getSize modelBox)) (y (getSize modelBox)));
              [apply Rmax_r | apply Rmax_l]].
    rewrite H3. unfold getSize, subVectors, addScaledVector. cbn [boxMin boxMax y]. nra. }
  split; [|split; [|split; [|split; [exact Hsz|]]]];
    try (rewrite H3, Hpos; unfold getCenter, getSize, subVectors, addScaledVector;
         cbn [boxMin boxMax x y z]).
  - field.
  - field.
  - ring.
  - split.
    + field.
    + intros v Hv. unfold toWorld, addScaledVector. rewrite Hpos, Ht'.
      cbn [rotation scale position x y z].
      assert (Hlow : y (boxMin b) <= y (applyQuaternion v cadOrientation)).
      { destruct (foldl_expandByPoint
                    {| boxMin := applyQuaternion corner0 cadOrientation;
                       boxMax := applyQuaternion corner0 cadOrientation |}
                    (map (fun v => applyQuaternion v cadOrientation) corners))
          as (_ & L2 & _).
        unfold b, localBox, setFromPoints. rewrite L2. cbn [boxMin]. rewrite map_map.
        apply foldl_Rmin_lower. destruct Hv as [-> | Hin]; [by left | right].
        apply in_map_iff. by exists v. }
      nra.
Qed.

(** A bar of length 2 along the X axis, arriving with scale 1 at the
    origin. *)
Definition barEnd : Vector3 := {| x := 2; y := 0; z := 0 |}.

Definition freshTransform : Transform :=
  {| rotation := identityQuaternion; scale := 1; position := origin |}.

Lemma bar_maxDim : 0 < maxDim (setFromObject origin [barEnd] (rotated freshTransform)).
Proof.
  apply Rlt_le_trans with 2; [lra|]. unfold maxDim.
  eapply Rle_trans; [|apply Rmax_l]. eapply Rle_trans; [|apply Rmax_l].
  unfold getSize, subVectors, setFromObject, setFromPoints, toWorld, addScaledVector,
    applyQuaternion, cadOrientation, rotated, freshTransform, barEnd, origin.
  cbn [foldl map expandByPoint boxMin boxMax x y z qx qy qz qw rotation scale position].
  unfold cadOrientation. cbn [qx qy qz qw].
  unfold Rmax, Rmin. repeat destruct (Rle_dec _ _); lra.
Qed.

Lemma loadModel_fits_centres_and_grounds_case :
  let modelBox := setFromObject origin [barEnd] (fitModel origin [barEnd] freshTransform) in
  maxDim modelBox * 1 = 1
  /\ x (getCenter modelBox) = 0 /\ z (getCenter modelBox) = 0
  /\ y (boxMin modelBox) = 0.
Proof.
  intros modelBox.
  destruct (loadModel_fits_centres_and_grounds origin [barEnd] freshTransform)
    as (_ & _ & Hm & Hx & Hz & Hy & _); [cbn; lra | exact bar_maxDim |].
  split; [exact Hm|]. split; [exact Hx|]. split; [exact Hz | exact Hy].
Defined.

End LoadModel.

(** * Presets and their textures

    The textures of all presets are loaded once and cloned into one set
    for the plank and one for the wall; [applyContextNow] writes a preset
    into the materials, the lights and the renderer.  Textures are
    objects in a store, so that sharing would show. *)
Module Presets.
Import Transition.
Local Open Scope Q_scope.

Inductive Wrapping := ClampToEdgeWrapping | RepeatWrapping.
Inductive ColorSpace := NoColorSpace | SRGBColorSpace | LinearSRGBColorSpace.

Record Texture := {
  image : string;
  wrapS : Wrapping;
  wrapT : Wrapping;
  colorSpace : ColorSpace;
  repeat : Q * Q }.

(** The texture objects, by identity. *)
Abbreviation Store := (list Texture).

(** [{ diff, norm }]: two texture objects. *)
Record TexSet := { diff : nat; norm : nat }.

(** A preset with all it holds; [None] is a property the preset leaves
    out. *)
Record Look := {
  preset : ContextPreset;
  plankTex : string; wallTex : string;
  background : N;
  wall : N; wallRoughness : option Q; wallMetalness : option Q;
  plank : N; plankRoughness : Q;
  plankMetalness : option Q; plankClearcoat : option Q;
  plankClearcoatRoughness : option Q;
  bracket : N; bracketRoughness : option Q; bracketMetalness : option Q;
  ambientIntensity : Q; ambientColor : N;
  keyIntensity : Q; keyColor : N; keyPos : Q * Q * Q;
  fillIntensity : Q; fillColor : N;
  rimIntensity : Q; rimColor : N;
  exposure : Q }.

(** The ten presets of the viewer. *)
Definition looks : list Look :=
  [
    {| preset := {| ctxName := "Scandinavian" |};
       plankTex := "oak_veneer_01"; wallTex := "white_plaster_02";
       background := 0xf0ebe3;
       wall := 0xf0ebe3; wallRoughness := Some (95 # 100); wallMetalness := Some 0;
       plank := 0xc8a87c; plankRoughness := 65 # 100;
       plankMetalness := Some 0; plankClearcoat := Some (15 # 100);
       plankClearcoatRoughness := None;
       bracket := 0x222222; bracketRoughness := Some (4 # 10);
       bracketMetalness := Some (85 # 100);
       ambientIntensity := 4 # 10; ambientColor := 0xffffff;
       keyIntensity := 22 # 10; keyColor := 0xfff5e6;
       keyPos := (3, 4, 2);
       fillIntensity := 8 # 10; fillColor := 0x8899bb;
       rimIntensity := 12 # 10; rimColor := 0xffddaa;
       exposure := 11 # 10 |};
    {| preset := {| ctxName := "Marble" |};
       plankTex := "marble_01"; wallTex := "grey_plaster_03";
       background := 0xe8eaef;
       wall := 0xe0e3e8; wallRoughness := Some (3 # 10); wallMetalness := Some 0;
       plank := 0xf2f2f8; plankRoughness := 8 # 100;
       plankMetalness := Some 0; plankClearcoat := Some (7 # 10);
       plankClearcoatRoughness := Some (15 # 100);
       bracket := 0xcccccc; bracketRoughness := Some (15 # 100);
       bracketMetalness := Some (95 # 100);
       ambientIntensity := 5 # 10; ambientColor := 0xeef0ff;
       keyIntensity := 18 # 10; keyColor := 0xffffff;
       keyPos := (4, 3, 3);
       fillIntensity := 7 # 10; fillColor := 0x99aacc;
       rimIntensity := 8 # 10; rimColor := 0xddeeff;
       exposure := 105 # 100 |};
    {| preset := {| ctxName := "Minimal" |};
       plankTex := "concrete_wall_003"; wallTex := "concrete_wall_003";
       background := 0xd8d8d8;
       wall := 0xd0d0d0; wallRoughness := Some (92 # 100); wallMetalness := Some 0;
       plank := 0xc0c0c0; plankRoughness := 95 # 100;
       plankMetalness := Some 0; plankClearcoat := Some 0;
       plankClearcoatRoughness := None;
       bracket := 0x999999; bracketRoughness := Some (35 # 100);
       bracketMetalness := Some (8 # 10);
       ambientIntensity := 45 # 100; ambientColor := 0xeeeeff;
       keyIntensity := 18 # 10; keyColor := 0xffffff;
       keyPos := (2, 5, 3);
       fillIntensity := 9 # 10; fillColor := 0xbbccdd;
       rimIntensity := 6 # 10; rimColor := 0xddddee;
       exposure := 11 # 10 |};
    {| preset := {| ctxName := "Walnut" |};
       plankTex := "walnut_veneer"; wallTex := "white_plaster_02";
       background := 0xe8e0d4;
       wall := 0xe4dcd0; wallRoughness := Some (88 # 100); wallMetalness := Some 0;
       plank := 0x5a3a22; plankRoughness := 5 # 10;
       plankMetalness := Some 0; plankClearcoat := Some (4 # 10);
       plankClearcoatRoughness := None;
       bracket := 0xb89860; bracketRoughness := Some (4 # 10);
       bracketMetalness := Some (8 # 10);
       ambientIntensity := 35 # 100; ambientColor := 0xfff8ee;
       keyIntensity := 20 # 10; keyColor := 0xfff0dd;
       keyPos := (3, 4, 2);
       fillIntensity := 6 # 10; fillColor := 0xbbaa88;
       rimIntensity := 10 # 10; rimColor := 0xeeddbb;
       exposure := 105 # 100 |};
    {| preset := {| ctxName := "Steel" |};
       plankTex := "metal_plate"; wallTex := "grey_plaster_03";
       background := 0xe8e8ec;
       wall := 0xe0e0e5; wallRoughness := Some (6 # 10); wallMetalness := Some 0;
       plank := 0xb0b0b8; plankRoughness := 3 # 10;
       plankMetalness := Some (9 # 10); plankClearcoat := Some (1 # 10);
       plankClearcoatRoughness := None;
       bracket := 0x888890; bracketRoughness := Some (25 # 100);
       bracketMetalness := Some (92 # 100);
       ambientIntensity := 4 # 10; ambientColor := 0xeeeeff;
       keyIntensity := 20 # 10; keyColor := 0xffffff;
       keyPos := (3, 5, 1);
       fillIntensity := 6 # 10; fillColor := 0x99aabb;
       rimIntensity := 12 # 10; rimColor := 0xccddee;
       exposure := 115 # 100 |};
    {| preset := {| ctxName := "Terracotta" |};
       plankTex := "concrete_wall_003"; wallTex := "white_plaster_02";
       background := 0xece0d0;
       wall := 0xe8dcc8; wallRoughness := Some (9 # 10); wallMetalness := Some 0;
       plank := 0xc08060; plankRoughness := 85 # 100;
       plankMetalness := Some 0; plankClearcoat := Some 0;
       plankClearcoatRoughness := None;
       bracket := 0x4a3828; bracketRoughness := Some (5 # 10);
       bracketMetalness := Some (75 # 100);
       ambientIntensity := 4 # 10; ambientColor := 0xfff0dd;
       keyIntensity := 20 # 10; keyColor := 0xffeecc;
       keyPos := (4, 4, 2);
       fillIntensity := 6 # 10; fillColor := 0xccaa88;
       rimIntensity := 8 # 10; rimColor := 0xffddbb;
       exposure := 105 # 100 |};
    {| preset := {| ctxName := "Noir" |};
       plankTex := "dark_wood"; wallTex := "grey_plaster_03";
       background := 0x1a1a1a;
       wall := 0x151515; wallRoughness := Some (4 # 10); wallMetalness := Some 0;
       plank := 0x0e0e0e; plankRoughness := 5 # 100;
       plankMetalness := Some 0; plankClearcoat := Some (95 # 100);
       plankClearcoatRoughness := Some (1 # 10);
       bracket := 0xc8a050; bracketRoughness := Some (2 # 10);
       bracketMetalness := Some (95 # 100);
       ambientIntensity := 15 # 100; ambientColor := 0xffffff;
       keyIntensity := 28 # 10; keyColor := 0xfff0dd;
       keyPos := (4, 5, 1);
       fillIntensity := 2 # 10; fillColor := 0x333333;
       rimIntensity := 20 # 10; rimColor := 0xddaa44;
       exposure := 13 # 10 |};
    {| preset := {| ctxName := "Sage" |};
       plankTex := "marble_01"; wallTex := "white_plaster_02";
       background := 0xd8ddd4;
       wall := 0xd0d8cc; wallRoughness := Some (85 # 100); wallMetalness := Some 0;
       plank := 0xf0efea; plankRoughness := 2 # 10;
       plankMetalness := Some 0; plankClearcoat := Some (5 # 10);
       plankClearcoatRoughness := Some (25 # 100);
       bracket := 0xcc7744; bracketRoughness := Some (35 # 100);
       bracketMetalness := Some (88 # 100);
       ambientIntensity := 45 # 100; ambientColor := 0xf0f5ee;
       keyIntensity := 18 # 10; keyColor := 0xffffff;
       keyPos := (2, 4, 3);
       fillIntensity := 7 # 10; fillColor := 0x99aa88;
       rimIntensity := 9 # 10; rimColor := 0xffcc99;
       exposure := 11 # 10 |};
    {| preset := {| ctxName := "Blush" |};
       plankTex := "oak_veneer_01"; wallTex := "white_plaster_02";
       background := 0xf0e0dd;
       wall := 0xecdad6; wallRoughness := Some (85 # 100); wallMetalness := Some 0;
       plank := 0xe0cbb5; plankRoughness := 6 # 10;
       plankMetalness := Some 0; plankClearcoat := Some (2 # 10);
       plankClearcoatRoughness := None;
       bracket := 0xcc9988; bracketRoughness := Some (3 # 10);
       bracketMetalness := Some (85 # 100);
       ambientIntensity := 45 # 100; ambientColor := 0xfff0ee;
       keyIntensity := 18 # 10; keyColor := 0xffeedd;
       keyPos := (3, 4, 2);
       fillIntensity := 7 # 10; fillColor := 0xddaaaa;
       rimIntensity := 9 # 10; rimColor := 0xffccbb;
       exposure := 11 # 10 |};
    {| preset := {| ctxName := "Gallery" |};
       plankTex := "dark_wood"; wallTex := "grey_plaster_03";
       background := 0xe0dcd5;
       wall := 0xdad6ce; wallRoughness := Some (8 # 10); wallMetalness := Some 0;
       plank := 0x7a6a55; plankRoughness := 55 # 100;
       plankMetalness := Some 0; plankClearcoat := Some (3 # 10);
       plankClearcoatRoughness := None;
       bracket := 0x887755; bracketRoughness := Some (55 # 100);
       bracketMetalness := Some (7 # 10);
       ambientIntensity := 4 # 10; ambientColor := 0xfff5ee;
       keyIntensity := 18 # 10; keyColor := 0xfff8ee;
       keyPos := (3, 4, 2);
       fillIntensity := 6 # 10; fillColor := 0xbbaa88;
       rimIntensity := 8 # 10; rimColor := 0xddccaa;
       exposure := 105 # 100 |} ].

(** [[...new Set(xs)]]: the elements in the order of their first
    occurrence. *)
Definition setOf (xs : list string) : list string :=
  foldl (fun acc x => if bool_decide (x ∈ acc) then acc else acc ++ [x]) [] xs.

Definition textureNames (presets : list Look) : list string :=
  setOf (flat_map (fun ctx => [plankTex ctx; wallTex ctx]) presets).

Definition PLANK_REPEAT : Q * Q := (4, 2).
Definition WALL_REPEAT : Q * Q := (12, 12).

Definition base (name : string) : string :=
  ("https://dl.polyhaven.org/file/ph-assets/Textures/jpg/1k/" ++ name ++ "/" ++ name)%string.

Definition diffUrl (name : string) : string := (base name ++ "_diff_1k.jpg")%string.
Definition normUrl (name : string) : string := (base name ++ "_nor_gl_1k.jpg")%string.

(** The texture object the loader resolves with. *)
Definition loaded (url : string) : Texture :=
  {| image := url; wrapS := ClampToEdgeWrapping; wrapT := ClampToEdgeWrapping;
     colorSpace := NoColorSpace; repeat := (1, 1) |}.

(** [loadTex(url)], when the download succeeds: a new object. *)
Definition loadTex (url : string) (store : Store) : nat * Store :=
  (length store, store ++ [loaded url]).

(** One callback of the [Promise.all] over the names; the callbacks are
    taken in the order of the names. *)
Definition loadRaw (st : gmap string TexSet * Store) (name : string)
    : gmap string TexSet * Store :=
  let d := loadTex (diffUrl name) (snd st) in
  let n := loadTex (normUrl name) (snd d) in
  (<[ name := {| diff := fst d; norm := fst n |} ]> (fst st), snd n).

(** [tex.clone()]: a new object with the same content; [None] when
    there is no such object. *)
Definition clone (id : nat) (store : Store) : option (nat * Store) :=
  match store !! id with
  | Some tex => Some (length store, store ++ [tex])
  | None => None
  end.

Definition configured (tex : Texture) (isSRGB : bool) (rep : Q * Q) : Texture :=
  {| image := image tex; wrapS := RepeatWrapping; wrapT := RepeatWrapping;
     colorSpace := if isSRGB then SRGBColorSpace else LinearSRGBColorSpace;
     repeat := rep |}.

(** [configure(tex, isSRGB)] inside [prepareTexSet(raw, repeat)]. *)
Definition configure (id : nat) (isSRGB : bool) (rep : Q * Q) (store : Store) : Store :=
  alter (fun tex => configured tex isSRGB rep) id store.

(** [prepareTexSet(raw, repeat)]. *)
Definition prepareTexSet (raw : TexSet) (rep : Q * Q) (store : Store)
    : option (TexSet * Store) :=
  match clone (diff raw) store with
  | Some (d, store1) =>
      let store2 := configure d true rep store1 in
      match clone (norm raw) store2 with
      | Some (n, store3) =>
          Some ({| diff := d; norm := n |}, configure n false rep store3)
      | None => None
      end
  | None => None
  end.

Record Prepared := {
  plankTextures : gmap string TexSet;
  wallTextures : gmap string TexSet;
  store : Store }.

(** The body of [textureNames.forEach]; [None] when [rawCache[name]] is
    [undefined] and is read from. *)
Definition prepareName (rawCache : gmap string TexSet)
    (acc : option Prepared) (name : string) : option Prepared :=
  match acc with
  | Some acc =>
      match rawCache !! name with
      | Some raw =>
          match prepareTexSet raw PLANK_REPEAT (store acc) with
          | Some (p, store1) =>
              match prepareTexSet raw WALL_REPEAT store1 with
              | Some (w, store2) =>
                  Some {| plankTextures := <[ name := p ]> (plankTextures acc);
                          wallTextures := <[ name := w ]> (wallTextures acc);
                          store := store2 |}
              | None => None
              end
          | None => None
          end
      | None => None
      end
  | None => None
  end.

(** From the download of the textures to the two sets of clones. *)
Definition preload (presets : list Look) : option Prepared :=
  let names := textureNames presets in
  let raw := foldl loadRaw (∅, []) names in
  foldl (prepareName (fst raw))
        (Some {| plankTextures := ∅; wallTextures := ∅; store := snd raw |}) names.

(** What [applyContextNow] writes. *)
Record Studio := {
  sceneBackground : N;
  wallMap : option nat; wallNormalMap : option nat; wallNormalScale : Q * Q;
  wallColor : N; wallMatRoughness : Q; wallMatMetalness : Q;
  woodMap : option nat; woodNormalMap : option nat; woodNormalScale : Q * Q;
  woodColor : N; woodRoughness : Q; woodMetalness : Q;
  woodClearcoat : Q; woodClearcoatRoughness : Q;
  bracketColor : N; bracketMatRoughness : Q; bracketMatMetalness : Q;
  ambientLightIntensity : Q; ambientLightColor : N;
  keyLightIntensity : Q; keyLightColor : N; keyLightPosition : Q * Q * Q;
  fillLightIntensity : Q; fillLightColor : N;
  rimLightIntensity : Q; rimLightColor : N;
  toneMappingExposure : Q }.

(** [v ?? d]. *)
Definition nullish (v : option Q) (d : Q) : Q :=
  match v with Some v => v | None => d end.

(** [applyContextNow(ctx)]. *)
Definition applyContextNow (textures : Prepared) (ctx : Look) (studio : Studio) : Studio :=
  let wt := wallTextures textures !! wallTex ctx in
  let pt := plankTextures textures !! plankTex ctx in
  {| sceneBackground := background ctx;
     wallMap := option_map diff wt; wallNormalMap := option_map norm wt;
     wallNormalScale := (1 # 2, 1 # 2);
     wallColor := wall ctx;
     wallMatRoughness := nullish (wallRoughness ctx) (95 # 100);
     wallMatMetalness := nullish (wallMetalness ctx) 0;
     woodMap := option_map diff pt; woodNormalMap := option_map norm pt;
     woodNormalScale := (8 # 10, 8 # 10);
     woodColor := plank ctx;
     woodRoughness := plankRoughness ctx;
     woodMetalness := nullish (plankMetalness ctx) 0;
     woodClearcoat := nullish (plankClearcoat ctx) (15 # 100);
     woodClearcoatRoughness := nullish (plankClearcoatRoughness ctx) (4 # 10);
     bracketColor := bracket ctx;
     bracketMatRoughness := nullish (bracketRoughness ctx) (4 # 10);
     bracketMatMetalness := nullish (bracketMetalness ctx) (85 # 100);
     ambientLightIntensity := ambientIntensity ctx;
     ambientLightColor := ambientColor ctx;
     keyLightIntensity := keyIntensity ctx;
     keyLightColor := keyColor ctx;
     keyLightPosition := keyPos ctx;
     fillLightIntensity := fillIntensity ctx;
     fillLightColor := fillColor ctx;
     rimLightIntensity := rimIntensity ctx;
     rimLightColor := rimColor ctx;
     toneMappingExposure := exposure ctx |}.

(** *** The names *)

Lemma looks_are_contexts : map preset looks = contexts.
Proof. reflexivity. Qed.

Lemma setOf_acc (xs acc : list string) :
  let r := foldl (fun acc x => if bool_decide (x ∈ acc) then acc else acc ++ [x]) acc xs in
  (forall x, x ∈ r <-> x ∈ acc \/ x ∈ xs) /\ (NoDup acc -> NoDup r).
Proof.
  revert acc. induction xs as [|x0 xs IH]; intros acc; cbn.
  - split; [|done]. intros x. rewrite elem_of_nil. tauto.
  - destruct (IH (if bool_decide (x0 ∈ acc) then acc else acc ++ [x0])) as [Hel Hnd].
    split.
    + intros x. rewrite Hel, elem_of_cons. case_bool_decide as Hin.
      * split; [tauto|]. intros [H | [-> | H]]; tauto.
      * rewrite elem_of_app, list_elem_of_singleton. tauto.
    + intros Hacc. apply Hnd. case_bool_decide as Hin; [done|].
      apply NoDup_app. split; [done|]. split; [|apply NoDup_singleton].
      intros y Hy Hy'. apply list_elem_of_singleton in Hy'. by subst.
Qed.

Lemma textureNames_spec (presets : list Look) :
  NoDup (textureNames presets)
  /\ forall name, name ∈ textureNames presets
       <-> exists ctx, ctx ∈ presets /\ (name = plankTex ctx \/ name = wallTex ctx).
Proof.
  unfold textureNames, setOf.
  destruct (setOf_acc (flat_map (fun ctx => [plankTex ctx; wallTex ctx]) presets) [])
    as [Hel Hnd].
  split; [apply Hnd, NoDup_nil_2|]. intros name. rewrite Hel, elem_of_nil.
  rewrite list_elem_of_In, in_flat_map. split.
  - intros [[] | (ctx & Hctx & Hin)]. exists ctx. rewrite list_elem_of_In.
    cbn in Hin. split; [done|]. destruct Hin as [<- | [<- | []]]; tauto.
  - intros (ctx & Hctx & Hname). right. exists ctx. rewrite <- list_elem_of_In.
    split; [done|]. cbn. destruct Hname as [-> | ->]; tauto.
Qed.

(** *** The store only grows *)

Definition extends (store store' : Store) : Prop :=
  forall id tex, store !! id = Some tex -> store' !! id = Some tex.

Lemma extends_refl store : extends store store.
Proof. by intros id tex. Qed.

Lemma extends_trans s1 s2 s3 : extends s1 s2 -> extends s2 s3 -> extends s1 s3.
Proof. intros H12 H23 id tex H. by apply H23, H12. Qed.

Lemma extends_push store tex : extends store (store ++ [tex]).
Proof. intros id t H. by apply lookup_app_l_Some. Qed.

Lemma clone_configure store id tex isSRGB rep :
  store !! id = Some tex ->
  clone id store = Some (length store, store ++ [tex])
  /\ extends store (configure (length store) isSRGB rep (store ++ [tex]))
  /\ configure (length store) isSRGB rep (store ++ [tex]) !! length store
     = Some (configured tex isSRGB rep).
Proof.
  intros Hid. unfold clone, configure. rewrite Hid. split; [done|]. split.
  - intros i t Hi. rewrite list_lookup_alter_ne.
    + by apply lookup_app_l_Some.
    + apply lookup_lt_Some in Hi. lia.
  - rewrite list_lookup_alter_eq, lookup_app_r by lia.
    by rewrite Nat.sub_diag.
Qed.

Lemma prepareTexSet_spec raw rep store td tn :
  store !! diff raw = Some td -> store !! norm raw = Some tn ->
  exists set store',
    prepareTexSet raw rep store = Some (set, store')
    /\ extends store store'
    /\ store' !! diff set = Some (configured td true rep)
    /\ store' !! norm set = Some (configured tn false rep).
Proof.
  intros Hd Hn. unfold prepareTexSet.
  destruct (clone_configure store (diff raw) td true rep Hd) as (-> & He1 & Hl1).
  set (store2 := configure (length store) true rep (store ++ [td])) in *.
  destruct (clone_configure store2 (norm raw) tn false rep (He1 _ _ Hn)) as (-> & He2 & Hl2).
  eexists _, _. split; [reflexivity|]. split; [by eapply extends_trans|].
  split; [by apply He2 | exact Hl2].
Qed.

(** *** What is in the cache and in the two sets *)

Definition rawOK (cache : gmap string TexSet) (store : Store) (name : string) : Prop :=
  exists raw,
    cache !! name = Some raw
    /\ store !! diff raw = Some (loaded (diffUrl name))
    /\ store !! norm raw = Some (loaded (normUrl name)).

Definition texOK (textures : Prepared) (name : string) : Prop :=
  exists pt wt,
    plankTextures textures !! name = Some pt
    /\ wallTextures textures !! name = Some wt
    /\ store textures !! diff pt
       = Some (configured (loaded (diffUrl name)) true PLANK_REPEAT)
    /\ store textures !! norm pt
       = Some (configured (loaded (normUrl name)) false PLANK_REPEAT)
    /\ store textures !! diff wt
       = Some (configured (loaded (diffUrl name)) true WALL_REPEAT)
    /\ store textures !! norm wt
       = Some (configured (loaded (normUrl name)) false WALL_REPEAT).

Lemma rawOK_extends cache store store' name :
  extends store store' -> rawOK cache store name -> rawOK cache store' name.
Proof. intros He (raw & Hc & Hd & Hn). exists raw. split; [done|]. split; by apply He. Qed.

Lemma loadRaw_step st name :
  extends (snd st) (snd (loadRaw st name))
  /\ rawOK (fst (loadRaw st name)) (snd (loadRaw st name)) name
  /\ forall name', rawOK (fst st) (snd st) name' ->
       rawOK (fst (loadRaw st name)) (snd (loadRaw st name)) name'.
Proof.
  destruct st as [cache store0]. unfold loadRaw, loadTex. cbn [fst snd].
  assert (He : extends store0 ((store0 ++ [loaded (diffUrl name)])
                               ++ [loaded (normUrl name)])).
  { eapply extends_trans; apply extends_push. }
  assert (Hnew : rawOK (<[name := {| diff := length store0;
                                      norm := length (store0 ++ [loaded (diffUrl name)]) |}]>
                          cache)
                   ((store0 ++ [loaded (diffUrl name)]) ++ [loaded (normUrl name)]) name).
  { eexists. split; [apply lookup_insert_eq|]. cbn [diff norm]. split.
    - apply extends_push. rewrite lookup_app_r by lia. by rewrite Nat.sub_diag.
    - rewrite lookup_app_r by lia. by rewrite Nat.sub_diag. }
  split; [exact He|]. split; [exact Hnew|].
  intros name' Hok. destruct (decide (name' = name)) as [-> | Hne]; [exact Hnew|].
  destruct Hok as (raw & Hc & Hd & Hn). exists raw.
  split; [by rewrite lookup_insert_ne|]. split; by apply He.
Qed.

Lemma loadRaw_fold names : forall st done,
  (forall name, name ∈ done -> rawOK (fst st) (snd st) name) ->
  forall name, name ∈ done ++ names ->
    rawOK (fst (foldl loadRaw st names)) (snd (foldl loadRaw st names)) name.
Proof.
  induction names as [|n names IH]; intros st done Hdone name Hin.
  - rewrite app_nil_r in Hin. by apply Hdone.
  - cbn [foldl]. apply (IH (loadRaw st n) (done ++ [n])).
    + intros name' Hin'. destruct (loadRaw_step st n) as (_ & Hnew & Hold).
      apply elem_of_app in Hin' as [Hin' | Hin'].
      * by apply Hold, Hdone.
      * apply list_elem_of_singleton in Hin'. by subst.
    + by rewrite <- app_assoc.
Qed.

Lemma texOK_extends textures textures' name :
  plankTextures textures' = plankTextures textures ->
  wallTextures textures' = wallTextures textures ->
  extends (store textures) (store textures') ->
  texOK textures name -> texOK textures' name.
Proof.
  intros Hp Hw He (pt & wt & H1 & H2 & H3 & H4 & H5 & H6).
  exists pt, wt. rewrite Hp, Hw. repeat split; try done; by apply He.
Qed.

Lemma prepareName_step cache textures name :
  rawOK cache (store textures) name ->
  exists textures',
    prepareName cache (Some textures) name = Some textures'
    /\ extends (store textures) (store textures')
    /\ texOK textures' name
    /\ forall name', texOK textures name' -> texOK textures' name'.
Proof.
  intros (raw & Hc & Hd & Hn). unfold prepareName. rewrite Hc.
  destruct (prepareTexSet_spec raw PLANK_REPEAT (store textures) _ _ Hd Hn)
    as (p & store1 & -> & He1 & Hp1 & Hp2).
  destruct (prepareTexSet_spec raw WALL_REPEAT store1 _ _ (He1 _ _ Hd) (He1 _ _ Hn))
    as (w & store2 & -> & He2 & Hw1 & Hw2).
  eexists. split; [reflexivity|]. cbn [store plankTextures wallTextures].
  assert (Hnew : texOK {| plankTextures := <[name := p]> (plankTextures textures);
                          wallTextures := <[name := w]> (wallTextures textures);
                          store := store2 |} name).
  { exists p, w. cbn [store plankTextures wallTextures]. rewrite !lookup_insert_eq.
    repeat split; try done; by apply He2. }
  split; [by eapply extends_trans|]. split; [exact Hnew|].
  intros name' Hok. destruct (decide (name' = name)) as [-> | Hne]; [exact Hnew|].
  destruct Hok as (pt & wt & H1 & H2 & H3 & H4 & H5 & H6).
  exists pt, wt. cbn [store plankTextures wallTextures].
  rewrite !lookup_insert_ne by done.
  repeat split; try done; by apply He2, He1.
Qed.

Lemma prepareName_fold cache names : forall textures done,
  (forall name, name ∈ done ++ names -> rawOK cache (store textures) name) ->
  (forall name, name ∈ done -> texOK textures name) ->
  exists textures',
    foldl (prepareName cache) (Some textures) names = Some textures'
    /\ forall name, name ∈ done ++ names -> texOK textures' name.
Proof.
  induction names as [|n names IH]; intros textures done Hraw Hdone.
  - exists textures. split; [done|]. intros name. rewrite app_nil_r. apply Hdone.
  - cbn [foldl].
    destruct (prepareName_step cache textures n) as (textures1 & -> & He & Hnew & Hold).
    { apply Hraw. apply elem_of_app. right. apply list_elem_of_here. }
    destruct (IH textures1 (done ++ [n])) as (textures' & Hf & Hall).
    + intros name Hin. rewrite <- app_assoc in Hin.
      by eapply rawOK_extends; [exact He | apply Hraw].
    + intros name Hin. apply elem_of_app in Hin as [Hin | Hin].
      * by apply Hold, Hdone.
      * apply list_elem_of_singleton in Hin. by subst.
    + exists textures'. split; [exact Hf|]. intros name Hin. apply Hall.
      by rewrite <- app_assoc.
Qed.

Lemma preload_ok (presets : list Look) :
  exists textures,
    preload presets = Some textures
    /\ forall name, name ∈ textureNames presets -> texOK textures name.
Proof.
  unfold preload.
  destruct (prepareName_fold (fst (foldl loadRaw (∅, []) (textureNames presets)))
              (textureNames presets)
              {| plankTextures := ∅; wallTextures := ∅;
                 store := snd (foldl loadRaw (∅, []) (textureNames presets)) |} [])
    as (textures & Hf & Hall).
  - intros name Hin. cbn [store]. apply (loadRaw_fold _ _ []); [|exact Hin].
    intros name' Hin'. by apply elem_of_nil in Hin'.
  - intros name Hin. by apply elem_of_nil in Hin.
  - exists textures. split; [exact Hf | exact Hall].
Qed.

(** For any list of presets: every texture name is downloaded once and
    is used by some preset, and the preparation does not fail.  For
    every preset of the list afterwards, the plank set under its plank
    texture name and the wall set under its wall texture name exist and
    hold four different texture objects: colour and normal map of the
    plank repeat 4 x 2, those of the wall 12 x 12, also when both
    surfaces use one texture name; all wrap by repetition, the colour
    maps are sRGB and the normal maps linear.  [applyContextNow] puts
    these objects into the two materials, never [null], and what it
    writes depends on the preset alone, not on what was applied before:
    a property that a preset leaves out gets its default. *)
Theorem preload_gives_each_surface_its_own_textures (presets : list Look) :
  NoDup (textureNames presets)
  /\ (forall name, name ∈ textureNames presets ->
        exists ctx, ctx ∈ presets /\ (name = plankTex ctx \/ name = wallTex ctx))
  /\ exists textures,
       preload presets = Some textures
       /\ forall ctx, ctx ∈ presets ->
            exists pt wt,
              plankTextures textures !! plankTex ctx = Some pt
              /\ wallTextures textures !! wallTex ctx = Some wt
              /\ store textures !! diff pt
                 = Some {| image := diffUrl (plankTex ctx); wrapS := RepeatWrapping;
                           wrapT := RepeatWrapping; colorSpace := SRGBColorSpace;
                           repeat := (4, 2) |}
              /\ store textures !! norm pt
                 = Some {| image := normUrl (plankTex ctx); wrapS := RepeatWrapping;
                           wrapT := RepeatWrapping; colorSpace := LinearSRGBColorSpace;
                           repeat := (4, 2) |}
              /\ store textures !! diff wt
                 = Some {| image := diffUrl (wallTex ctx); wrapS := RepeatWrapping;
                           wrapT := RepeatWrapping; colorSpace := SRGBColorSpace;
                           repeat := (12, 12) |}
              /\ store textures !! norm wt
                 = Some {| image := normUrl (wallTex ctx); wrapS := RepeatWrapping;
                           wrapT := RepeatWrapping; colorSpace := LinearSRGBColorSpace;
                           repeat := (12, 12) |}
              /\ NoDup [diff pt; norm pt; diff wt; norm wt]
              /\ forall studio studio',
                   let studio1 := applyContextNow textures ctx studio in
                   woodMap studio1 = Some (diff pt)
                   /\ woodNormalMap studio1 = Some (norm pt)
                   /\ wallMap studio1 = Some (diff wt)
                   /\ wallNormalMap studio1 = Some (norm wt)
                   /\ applyContextNow textures ctx studio' = studio1.
Proof.
  destruct (textureNames_spec presets) as [Hnd Hnames].
  split; [exact Hnd|]. split; [intros name; apply Hnames|].
  destruct (preload_ok presets) as (textures & Hpre & Hall).
  exists textures. split; [exact Hpre|]. intros ctx Hctx.
  destruct (Hall (plankTex ctx)) as (pt & _ & Hp & _ & Hp1 & Hp2 & _ & _).
  { apply Hnames. exists ctx. tauto. }
  destruct (Hall (wallTex ctx)) as (_ & wt & _ & Hw & _ & _ & Hw1 & Hw2).
  { apply Hnames. exists ctx. tauto. }
  exists pt, wt. split; [exact Hp|]. split; [exact Hw|].
  split; [exact Hp1|]. split; [exact Hp2|]. split; [exact Hw1|]. split; [exact Hw2|].
  split.
  - assert (Hne : forall i j t1 t2,
              store textures !! i = Some t1 -> store textures !! j = Some t2 ->
              t1 <> t2 -> i <> j) by (intros i j t1 t2 Hi Hj Ht ->; congruence).
    repeat apply NoDup_cons_2; try apply NoDup_nil_2; rewrite ?elem_of_cons, ?elem_of_nil.
    + intros [E | [E | [E | []]]]; revert E;
        [apply (Hne _ _ _ _ Hp1 Hp2) | apply (Hne _ _ _ _ Hp1 Hw1)
         | apply (Hne _ _ _ _ Hp1 Hw2)]; discriminate.
    + intros [E | [E | []]]; revert E;
        [apply (Hne _ _ _ _ Hp2 Hw1) | apply (Hne _ _ _ _ Hp2 Hw2)]; discriminate.
    + intros [E | []]; revert E. apply (Hne _ _ _ _ Hw1 Hw2). discriminate.
    + tauto.
  - intros studio studio' studio1. unfold studio1, applyContextNow.
    cbn [woodMap woodNormalMap wallMap wallNormalMap]. rewrite Hp, Hw. done.
Qed.

(** Marble sets the clearcoat roughness of the plank to 0.15;
    Scandinavian, applied after it, leaves the property out and gets the
    default 0.4.  Minimal names one texture for both surfaces. *)
Example default_replaces_previous_value textures studio marble scandinavian minimal :
  looks !! 1%nat = Some marble -> looks !! 0%nat = Some scandinavian ->
  looks !! 2%nat = Some minimal ->
  woodClearcoatRoughness (applyContextNow textures marble studio) = 15 # 100
  /\ woodClearcoatRoughness
       (applyContextNow textures scandinavian (applyContextNow textures marble studio))
     = 4 # 10
  /\ plankTex minimal = wallTex minimal.
Proof.
  intros Hm Hs Hmin. injection Hm as <-. injection Hs as <-. injection Hmin as <-.
  repeat split.
Qed.

End Presets.
